(** * ScreenSharing_WebRTC_P2P: the signalling and data-channel logic of
      [src/App.tsx], embedded as state-passing functions.

    The component [App] keeps its data in three kinds of places:
    - React state cells ([useState]); a closure created while rendering
      sees the value the cell had in that render, and a setter writes
      the cell for later renders;
    - refs ([useRef]), mutable boxes shared by the closures of all
      renders;
    - browser objects (peer connections, data channels, blob URLs).
    [AppState] holds all three.  The values a closure captures from its
    render are explicit parameters of the functions below. *)

From stdpp Require Import base list strings pretty.

Open Scope string_scope.
Open Scope list_scope.

(** ** Data *)

Definition ArrayBuffer := list Byte.byte.
Definition byteLength (b : ArrayBuffer) : nat := length b.

(** [new Blob(chunks)]: the bytes of the chunks, one after the other. *)
Definition Blob := list Byte.byte.
Definition new_Blob (chunks : list ArrayBuffer) : Blob := concat chunks.

(** The object a [file-meta] text frame parses to. *)
Record FileMeta := { name : string; size : N }.

(** What [JSON.parse(data)] gives for a text frame, as far as the
    handler looks at it: the [type] field and the fields of that kind
    of message. *)
Inductive Envelope :=
| chat (content : string)
| file_meta (name : string) (size : N)
| other_json.

(** [event.data] of a data-channel message (and the argument of
    [dc.send]).  A text frame is identified with what [JSON.parse]
    makes of it: [TextJSON] when it parses, [TextPlain] when
    [JSON.parse] (or reading [parsed.type]) throws. *)
Inductive MessageData :=
| TextJSON (parsed : Envelope)
| TextPlain (data : string)
| Binary (data : ArrayBuffer).

Inductive ReadyState := connecting | open | closing | closed.
Inductive SignalingState :=
| stable | have_local_offer | have_remote_offer | signaling_closed.
Inductive SdpType := offer | answer.

Global Instance ReadyState_eq_dec : EqDecision ReadyState.
Proof. solve_decision. Defined.
Global Instance SignalingState_eq_dec : EqDecision SignalingState.
Proof. solve_decision. Defined.
Global Instance SdpType_eq_dec : EqDecision SdpType.
Proof. solve_decision. Defined.

Record RTCSessionDescription := { sdp_type : SdpType; sdp : string }.

Record MediaStreamTrack := { track_id : nat; kind : string }.
Global Instance MediaStreamTrack_eq_dec : EqDecision MediaStreamTrack.
Proof. solve_decision. Defined.
Definition MediaStream := list MediaStreamTrack.

(** A [handleDataChannelMessage] closure differs from the one of another
    render only in the [receivedFileMeta] it captured. *)
Definition Handler := option FileMeta.

Record RTCDataChannel := {
  label : string;
  readyState : ReadyState;
  onmessage : option Handler;
  sent : list MessageData            (* frames handed to [send], oldest first *)
}.

Record RTCPeerConnection := {
  signalingState : SignalingState;
  localDescription : option RTCSessionDescription;
  remoteDescription : option RTCSessionDescription;
  senders : list MediaStreamTrack;
  ondatachannel : option Handler
}.

Record User := { id : string; ip : string }.

Inductive ConsoleLine :=
| log_reusing (targetUserId : string)
| log_creating (targetUserId : string)
| log_no_local_stream
| log_starting_call (targetUserId : string)
| log_adding_track (kind : string)
| log_sending_offer (targetUserId : string)
| log_received_offer (callerId : string)
| log_set_remote_from (callerId : string)
| log_sending_answer (callerId : string)
| log_received_answer (callerId : option string)
| log_set_remote_for_answer
| log_set_remote_fallback (userId : string)
| log_received_data_channel (targetUserId : string)
| log_existing_users (users : list string)
| log_display_media_acquired
| log_requesting_display_media
| log_error_screen_share.

Inductive SocketPayload :=
| offer_payload (target callerId : option string)
    (sdp : option RTCSessionDescription)
| answer_payload (target : string) (sdp : option RTCSessionDescription).

(** Calls that leave the component, in the order they are made. *)
Inductive Effect :=
| console_log (line : ConsoleLine)
| socket_emit (event : string) (payload : SocketPayload)
| alert (msg : string).

Record AppState := {
  (* useState *)
  status : string;
  messages : list string;
  messageInput : string;
  receivedFileMeta : option FileMeta;
  downloadLink : option (string * nat);       (* name, url *)
  isSharing : bool;
  connectedUsers : list User;
  (* useRef *)
  receivedFileChunksRef : list ArrayBuffer;
  peerConnections : list (string * nat);      (* Map, in insertion order *)
  dataChannels : list (string * RTCDataChannel);
  localStream : option MediaStream;
  isSharingRef : bool;
  peersRef : list string;
  (* browser *)
  constructed : list RTCPeerConnection;       (* every [new RTCPeerConnection] *)
  objectURLs : list Blob;                     (* every [URL.createObjectURL] *)
  socket_id : option string;
  effects : list Effect
}.

(** The state when the component mounts. *)
Definition initialState : AppState :=
  {| status := ""; messages := []; messageInput := "";
     receivedFileMeta := None; downloadLink := None; isSharing := false;
     connectedUsers := []; receivedFileChunksRef := [];
     peerConnections := []; dataChannels := []; localStream := None;
     isSharingRef := false; peersRef := []; constructed := [];
     objectURLs := []; socket_id := None; effects := [] |}.

(** ** Setters

    One per cell, ref or store; [setMessages] takes the updater function,
    as the code calls it, and [emit] adds a call to the trace. *)

Definition setStatus (v : string) (st : AppState) : AppState :=
  {| status := v; messages := messages st; messageInput := messageInput st;
     receivedFileMeta := receivedFileMeta st;
     downloadLink := downloadLink st; isSharing := isSharing st;
     connectedUsers := connectedUsers st;
     receivedFileChunksRef := receivedFileChunksRef st;
     peerConnections := peerConnections st;
     dataChannels := dataChannels st; localStream := localStream st;
     isSharingRef := isSharingRef st; peersRef := peersRef st;
     constructed := constructed st; objectURLs := objectURLs st;
     socket_id := socket_id st; effects := effects st |}.
Definition setMessages (f : list string → list string) (st : AppState) : AppState :=
  {| status := status st; messages := f (messages st);
     messageInput := messageInput st;
     receivedFileMeta := receivedFileMeta st;
     downloadLink := downloadLink st; isSharing := isSharing st;
     connectedUsers := connectedUsers st;
     receivedFileChunksRef := receivedFileChunksRef st;
     peerConnections := peerConnections st;
     dataChannels := dataChannels st; localStream := localStream st;
     isSharingRef := isSharingRef st; peersRef := peersRef st;
     constructed := constructed st; objectURLs := objectURLs st;
     socket_id := socket_id st; effects := effects st |}.
Definition setMessageInput (v : string) (st : AppState) : AppState :=
  {| status := status st; messages := messages st; messageInput := v;
     receivedFileMeta := receivedFileMeta st;
     downloadLink := downloadLink st; isSharing := isSharing st;
     connectedUsers := connectedUsers st;
     receivedFileChunksRef := receivedFileChunksRef st;
     peerConnections := peerConnections st;
     dataChannels := dataChannels st; localStream := localStream st;
     isSharingRef := isSharingRef st; peersRef := peersRef st;
     constructed := constructed st; objectURLs := objectURLs st;
     socket_id := socket_id st; effects := effects st |}.
Definition setReceivedFileMeta (v : option FileMeta) (st : AppState) : AppState :=
  {| status := status st; messages := messages st;
     messageInput := messageInput st; receivedFileMeta := v;
     downloadLink := downloadLink st; isSharing := isSharing st;
     connectedUsers := connectedUsers st;
     receivedFileChunksRef := receivedFileChunksRef st;
     peerConnections := peerConnections st;
     dataChannels := dataChannels st; localStream := localStream st;
     isSharingRef := isSharingRef st; peersRef := peersRef st;
     constructed := constructed st; objectURLs := objectURLs st;
     socket_id := socket_id st; effects := effects st |}.
Definition setDownloadLink (v : option (string * nat)) (st : AppState) : AppState :=
  {| status := status st; messages := messages st;
     messageInput := messageInput st;
     receivedFileMeta := receivedFileMeta st; downloadLink := v;
     isSharing := isSharing st; connectedUsers := connectedUsers st;
     receivedFileChunksRef := receivedFileChunksRef st;
     peerConnections := peerConnections st;
     dataChannels := dataChannels st; localStream := localStream st;
     isSharingRef := isSharingRef st; peersRef := peersRef st;
     constructed := constructed st; objectURLs := objectURLs st;
     socket_id := socket_id st; effects := effects st |}.
Definition setIsSharing (v : bool) (st : AppState) : AppState :=
  {| status := status st; messages := messages st;
     messageInput := messageInput st;
     receivedFileMeta := receivedFileMeta st;
     downloadLink := downloadLink st; isSharing := v;
     connectedUsers := connectedUsers st;
     receivedFileChunksRef := receivedFileChunksRef st;
     peerConnections := peerConnections st;
     dataChannels := dataChannels st; localStream := localStream st;
     isSharingRef := isSharingRef st; peersRef := peersRef st;
     constructed := constructed st; objectURLs := objectURLs st;
     socket_id := socket_id st; effects := effects st |}.
Definition setConnectedUsers (v : list User) (st : AppState) : AppState :=
  {| status := status st; messages := messages st;
     messageInput := messageInput st;
     receivedFileMeta := receivedFileMeta st;
     downloadLink := downloadLink st; isSharing := isSharing st;
     connectedUsers := v;
     receivedFileChunksRef := receivedFileChunksRef st;
     peerConnections := peerConnections st;
     dataChannels := dataChannels st; localStream := localStream st;
     isSharingRef := isSharingRef st; peersRef := peersRef st;
     constructed := constructed st; objectURLs := objectURLs st;
     socket_id := socket_id st; effects := effects st |}.
Definition set_receivedFileChunksRef (v : list ArrayBuffer) (st : AppState) : AppState :=
  {| status := status st; messages := messages st;
     messageInput := messageInput st;
     receivedFileMeta := receivedFileMeta st;
     downloadLink := downloadLink st; isSharing := isSharing st;
     connectedUsers := connectedUsers st; receivedFileChunksRef := v;
     peerConnections := peerConnections st;
     dataChannels := dataChannels st; localStream := localStream st;
     isSharingRef := isSharingRef st; peersRef := peersRef st;
     constructed := constructed st; objectURLs := objectURLs st;
     socket_id := socket_id st; effects := effects st |}.
Definition set_peerConnections (v : list (string * nat)) (st : AppState) : AppState :=
  {| status := status st; messages := messages st;
     messageInput := messageInput st;
     receivedFileMeta := receivedFileMeta st;
     downloadLink := downloadLink st; isSharing := isSharing st;
     connectedUsers := connectedUsers st;
     receivedFileChunksRef := receivedFileChunksRef st;
     peerConnections := v; dataChannels := dataChannels st;
     localStream := localStream st; isSharingRef := isSharingRef st;
     peersRef := peersRef st; constructed := constructed st;
     objectURLs := objectURLs st; socket_id := socket_id st;
     effects := effects st |}.
Definition set_dataChannels (v : list (string * RTCDataChannel)) (st : AppState) : AppState :=
  {| status := status st; messages := messages st;
     messageInput := messageInput st;
     receivedFileMeta := receivedFileMeta st;
     downloadLink := downloadLink st; isSharing := isSharing st;
     connectedUsers := connectedUsers st;
     receivedFileChunksRef := receivedFileChunksRef st;
     peerConnections := peerConnections st; dataChannels := v;
     localStream := localStream st; isSharingRef := isSharingRef st;
     peersRef := peersRef st; constructed := constructed st;
     objectURLs := objectURLs st; socket_id := socket_id st;
     effects := effects st |}.
Definition set_localStream (v : option MediaStream) (st : AppState) : AppState :=
  {| status := status st; messages := messages st;
     messageInput := messageInput st;
     receivedFileMeta := receivedFileMeta st;
     downloadLink := downloadLink st; isSharing := isSharing st;
     connectedUsers := connectedUsers st;
     receivedFileChunksRef := receivedFileChunksRef st;
     peerConnections := peerConnections st;
     dataChannels := dataChannels st; localStream := v;
     isSharingRef := isSharingRef st; peersRef := peersRef st;
     constructed := constructed st; objectURLs := objectURLs st;
     socket_id := socket_id st; effects := effects st |}.
Definition set_isSharingRef (v : bool) (st : AppState) : AppState :=
  {| status := status st; messages := messages st;
     messageInput := messageInput st;
     receivedFileMeta := receivedFileMeta st;
     downloadLink := downloadLink st; isSharing := isSharing st;
     connectedUsers := connectedUsers st;
     receivedFileChunksRef := receivedFileChunksRef st;
     peerConnections := peerConnections st;
     dataChannels := dataChannels st; localStream := localStream st;
     isSharingRef := v; peersRef := peersRef st;
     constructed := constructed st; objectURLs := objectURLs st;
     socket_id := socket_id st; effects := effects st |}.
Definition set_peersRef (v : list string) (st : AppState) : AppState :=
  {| status := status st; messages := messages st;
     messageInput := messageInput st;
     receivedFileMeta := receivedFileMeta st;
     downloadLink := downloadLink st; isSharing := isSharing st;
     connectedUsers := connectedUsers st;
     receivedFileChunksRef := receivedFileChunksRef st;
     peerConnections := peerConnections st;
     dataChannels := dataChannels st; localStream := localStream st;
     isSharingRef := isSharingRef st; peersRef := v;
     constructed := constructed st; objectURLs := objectURLs st;
     socket_id := socket_id st; effects := effects st |}.
Definition set_constructed (v : list RTCPeerConnection) (st : AppState) : AppState :=
  {| status := status st; messages := messages st;
     messageInput := messageInput st;
     receivedFileMeta := receivedFileMeta st;
     downloadLink := downloadLink st; isSharing := isSharing st;
     connectedUsers := connectedUsers st;
     receivedFileChunksRef := receivedFileChunksRef st;
     peerConnections := peerConnections st;
     dataChannels := dataChannels st; localStream := localStream st;
     isSharingRef := isSharingRef st; peersRef := peersRef st;
     constructed := v; objectURLs := objectURLs st;
     socket_id := socket_id st; effects := effects st |}.
Definition set_objectURLs (v : list Blob) (st : AppState) : AppState :=
  {| status := status st; messages := messages st;
     messageInput := messageInput st;
     receivedFileMeta := receivedFileMeta st;
     downloadLink := downloadLink st; isSharing := isSharing st;
     connectedUsers := connectedUsers st;
     receivedFileChunksRef := receivedFileChunksRef st;
     peerConnections := peerConnections st;
     dataChannels := dataChannels st; localStream := localStream st;
     isSharingRef := isSharingRef st; peersRef := peersRef st;
     constructed := constructed st; objectURLs := v;
     socket_id := socket_id st; effects := effects st |}.
Definition emit (e : Effect) (st : AppState) : AppState :=
  {| status := status st; messages := messages st;
     messageInput := messageInput st;
     receivedFileMeta := receivedFileMeta st;
     downloadLink := downloadLink st; isSharing := isSharing st;
     connectedUsers := connectedUsers st;
     receivedFileChunksRef := receivedFileChunksRef st;
     peerConnections := peerConnections st;
     dataChannels := dataChannels st; localStream := localStream st;
     isSharingRef := isSharingRef st; peersRef := peersRef st;
     constructed := constructed st; objectURLs := objectURLs st;
     socket_id := socket_id st; effects := effects st ++ [e] |}.

(** The socket library gives the socket its [id] when it connects. *)
Definition set_socket_id (v : option string) (st : AppState) : AppState :=
  {| status := status st; messages := messages st;
     messageInput := messageInput st;
     receivedFileMeta := receivedFileMeta st;
     downloadLink := downloadLink st; isSharing := isSharing st;
     connectedUsers := connectedUsers st;
     receivedFileChunksRef := receivedFileChunksRef st;
     peerConnections := peerConnections st;
     dataChannels := dataChannels st; localStream := localStream st;
     isSharingRef := isSharingRef st; peersRef := peersRef st;
     constructed := constructed st; objectURLs := objectURLs st;
     socket_id := v; effects := effects st |}.

(** ** Data-channel transfer protocol (App.tsx 165-202) *)

(** [newChunks.reduce((acc, chunk) => acc + chunk.byteLength, 0)] *)
Definition totalReceived (newChunks : list ArrayBuffer) : nat :=
  foldl (λ acc chunk, acc + byteLength chunk) 0 newChunks.

(** [URL.createObjectURL(blob)]: registers the blob, returns its URL. *)
Definition createObjectURL (blob : Blob) (st : AppState) : nat * AppState :=
  (length (objectURLs st), set_objectURLs (objectURLs st ++ [blob]) st).

(** [capturedFileMeta] is the [receivedFileMeta] of the render whose
    closure this is; [setReceivedFileMeta] writes the cell that later
    renders read and leaves the captured value as it is. *)
Definition handleDataChannelMessage (capturedFileMeta : Handler)
    (data : MessageData) (st : AppState) : AppState :=
  match data with
  | TextJSON (chat content) =>
      setMessages (λ prev, prev ++ ["Peer: " +:+ content]) st
  | TextJSON (file_meta n sz) =>
      let st := setReceivedFileMeta (Some {| name := n; size := sz |}) st in
      let st := set_receivedFileChunksRef [] st in
      setMessages (λ prev, prev ++
        ["System: Receiving file " +:+ n +:+ " (" +:+ pretty sz +:+ " bytes)..."]) st
  | TextJSON other_json => st
  | TextPlain data =>
      setMessages (λ prev, prev ++ ["Peer: " +:+ data]) st
  | Binary data =>
      match capturedFileMeta with
      | Some meta =>
          let st := set_receivedFileChunksRef (receivedFileChunksRef st ++ [data]) st in
          let newChunks := receivedFileChunksRef st in
          if decide (N.of_nat (totalReceived newChunks) >= size meta)%N then
            let blob := new_Blob newChunks in
            let '(url, st) := createObjectURL blob st in
            let st := setDownloadLink (Some (name meta, url)) st in
            setMessages (λ prev, prev ++
              ["System: File " +:+ name meta +:+ " received."]) st
          else st
      | None => st
      end
  end.

(** The frames [evs] arriving, one after the other, on a channel whose
    [onmessage] was assigned the closure [h] when the channel was set up
    (App.tsx 251, 311: the assignment is made once). *)
Definition receiveAll (h : Handler) (evs : list MessageData) (st : AppState) :=
  foldl (λ st ev, handleDataChannelMessage h ev st) st evs.

(** The same frames handled each time by the closure of the latest
    render, which is what the channel would run if [onmessage] were
    assigned again after every render. *)
Definition receiveAll_latest (evs : list MessageData) (st : AppState) :=
  foldl (λ st ev, handleDataChannelMessage (receivedFileMeta st) ev st) st evs.

(** Frames arriving on any channels, in the order the event loop takes
    them, each with the closure assigned to the channel it came in on. *)
Definition receiveEach (frames : list (Handler * MessageData)) (st : AppState) :=
  foldl (λ st f, handleDataChannelMessage f.1 f.2 st) st frames.

(** The payloads of the binary frames among [evs], in arrival order. *)
Definition binary_frames (evs : list MessageData) : list ArrayBuffer :=
  omap (λ ev, match ev with Binary data => Some data | _ => None end) evs.

(** Number of completion events between two states. *)
Definition completions (before after : AppState) : nat :=
  length (objectURLs after) - length (objectURLs before).

(** ** Peer connection manager (App.tsx 204-257, 326-362) *)

(** [Map.prototype.get] and [Map.prototype.set] on a map kept in
    insertion order: [set] on a present key replaces the value where it
    stands, on an absent key it adds the entry at the end. *)
Fixpoint Map_get {V} (k : string) (m : list (string * V)) : option V :=
  match m with
  | [] => None
  | (k', v) :: m => if decide (k' = k) then Some v else Map_get k m
  end.

Fixpoint Map_set {V} (k : string) (v : V) (m : list (string * V)) :=
  match m with
  | [] => [(k, v)]
  | (k', v') :: m =>
      if decide (k' = k) then (k, v) :: m else (k', v') :: Map_set k v m
  end.

(** [new RTCPeerConnection({iceServers})] with its callbacks wired; of
    the callbacks, [ondatachannel] is the one that installs a message
    handler, the closure [h] of the render that made the connection. *)
Definition new_RTCPeerConnection (h : Handler) : RTCPeerConnection :=
  {| signalingState := stable; localDescription := None;
     remoteDescription := None; senders := []; ondatachannel := Some h |}.

Definition with_signaling (s : SignalingState) (conn : RTCPeerConnection) :=
  {| signalingState := s; localDescription := localDescription conn;
     remoteDescription := remoteDescription conn; senders := senders conn;
     ondatachannel := ondatachannel conn |}.
Definition with_localDescription (d : RTCSessionDescription) (conn : RTCPeerConnection) :=
  {| signalingState := signalingState conn; localDescription := Some d;
     remoteDescription := remoteDescription conn; senders := senders conn;
     ondatachannel := ondatachannel conn |}.
Definition with_remoteDescription (d : RTCSessionDescription) (conn : RTCPeerConnection) :=
  {| signalingState := signalingState conn; localDescription := localDescription conn;
     remoteDescription := Some d; senders := senders conn;
     ondatachannel := ondatachannel conn |}.
Definition with_senders (s : list MediaStreamTrack) (conn : RTCPeerConnection) :=
  {| signalingState := signalingState conn; localDescription := localDescription conn;
     remoteDescription := remoteDescription conn; senders := s;
     ondatachannel := ondatachannel conn |}.

(** Modelled from the spec: the browser's negotiation state machine of
    section 4.1 ([stable → have-local-offer → stable] for the caller,
    [stable → have-remote-offer → stable] for the callee), which is not
    part of the repository.  [None] is a rejected promise. *)
Definition setRemoteDescription (d : RTCSessionDescription)
    (conn : RTCPeerConnection) : option RTCPeerConnection :=
  match sdp_type d, signalingState conn with
  | answer, have_local_offer => Some (with_signaling stable (with_remoteDescription d conn))
  | offer, stable | offer, have_remote_offer =>
      Some (with_signaling have_remote_offer (with_remoteDescription d conn))
  | _, _ => None
  end.

(** Modelled from the spec: the local half of the same state machine. *)
Definition setLocalDescription (d : RTCSessionDescription)
    (conn : RTCPeerConnection) : option RTCPeerConnection :=
  match sdp_type d, signalingState conn with
  | offer, stable | offer, have_local_offer =>
      Some (with_signaling have_local_offer (with_localDescription d conn))
  | answer, have_remote_offer => Some (with_signaling stable (with_localDescription d conn))
  | _, _ => None
  end.

(** [pc.addTrack(track, stream)] throws on a closed connection and when
    the track already has a sender on it. *)
Definition addTrack (track : MediaStreamTrack) (conn : RTCPeerConnection)
    : option RTCPeerConnection :=
  if decide (signalingState conn = signaling_closed) then None
  else if decide (track ∈ senders conn) then None
  else Some (with_senders (senders conn ++ [track]) conn).

(** [pc.createOffer()] and [pc.createAnswer()]; the body is opaque. *)
Definition createOffer (conn : RTCPeerConnection) : option RTCSessionDescription :=
  if decide (signalingState conn = signaling_closed) then None
  else Some {| sdp_type := offer; sdp := "v=0" |}.
Definition createAnswer (conn : RTCPeerConnection) : option RTCSessionDescription :=
  if decide (signalingState conn = have_remote_offer)
  then Some {| sdp_type := answer; sdp := "v=0" |} else None.

Definition createPeerConnection (h : Handler) (targetUserId : string)
    (st : AppState) : nat * AppState :=
  match Map_get targetUserId (peerConnections st) with
  | Some existingPc =>
      (existingPc, emit (console_log (log_reusing targetUserId)) st)
  | None =>
      let st := emit (console_log (log_creating targetUserId)) st in
      let pc := length (constructed st) in
      let st := set_constructed (constructed st ++ [new_RTCPeerConnection h]) st in
      let st := set_peerConnections (Map_set targetUserId pc (peerConnections st)) st in
      (pc, st)
  end.

(** The [pc.ondatachannel] callback of the connection made for
    [targetUserId] (App.tsx 248-253). *)
Definition pc_ondatachannel (h : Handler) (targetUserId : string)
    (channel : RTCDataChannel) (st : AppState) : AppState :=
  let st := emit (console_log (log_received_data_channel targetUserId)) st in
  let receiveChannel :=
    {| label := label channel; readyState := readyState channel;
       onmessage := Some h; sent := sent channel |} in
  set_dataChannels (Map_set targetUserId receiveChannel (dataChannels st)) st.

(** A message event on a channel runs the handler assigned to it. *)
Definition dispatch_message (dc : RTCDataChannel) (data : MessageData)
    (st : AppState) : AppState :=
  match onmessage dc with
  | Some h => handleDataChannelMessage h data st
  | None => st
  end.

(** The [forEach] over the local tracks in [startCall]; [false] when
    [addTrack] threw, which abandons the rest of [startCall]. *)
Fixpoint addTracks (tracks : list MediaStreamTrack) (pc : nat)
    (st : AppState) : bool * AppState :=
  match tracks with
  | [] => (true, st)
  | track :: rest =>
      let st := emit (console_log (log_adding_track (kind track))) st in
      match constructed st !! pc ≫= addTrack track with
      | Some conn => addTracks rest pc (set_constructed (<[pc := conn]> (constructed st)) st)
      | None => (false, st)
      end
  end.

(** App.tsx 294-324.  The function is [async]; the part after each
    [await] is run here right after the part before it. *)
Definition startCall (h : Handler) (targetUserId : string) (st : AppState) : AppState :=
  match localStream st with
  | None => emit (console_log log_no_local_stream) st
  | Some stream =>
      let st := emit (console_log (log_starting_call targetUserId)) st in
      let '(pc, st) := createPeerConnection h targetUserId st in
      match addTracks stream pc st with
      | (false, st) => st
      | (true, st) =>
          match constructed st !! pc with
          | None => st
          | Some conn =>
              if decide (signalingState conn = signaling_closed) then st else
              let dc := {| label := "chat"; readyState := connecting;
                           onmessage := Some h; sent := [] |} in
              let st := set_dataChannels (Map_set targetUserId dc (dataChannels st)) st in
              match createOffer conn ≫= λ o, setLocalDescription o conn with
              | None => st
              | Some conn =>
                  let st := set_constructed (<[pc := conn]> (constructed st)) st in
                  let st := emit (console_log (log_sending_offer targetUserId)) st in
                  emit (socket_emit "offer"
                          (offer_payload (Some targetUserId) (socket_id st)
                             (localDescription conn))) st
              end
          end
      end
  end.

(** App.tsx 326-341. *)
Definition handleReceiveOffer (h : Handler) (callerId : string)
    (sdp : RTCSessionDescription) (st : AppState) : AppState :=
  let st := emit (console_log (log_received_offer callerId)) st in
  let '(pc, st) := createPeerConnection h callerId st in
  match constructed st !! pc ≫= setRemoteDescription sdp with
  | None => st
  | Some conn =>
      let st := set_constructed (<[pc := conn]> (constructed st)) st in
      let st := emit (console_log (log_set_remote_from callerId)) st in
      match createAnswer conn ≫= λ a, setLocalDescription a conn with
      | None => st
      | Some conn =>
          let st := set_constructed (<[pc := conn]> (constructed st)) st in
          let st := emit (console_log (log_sending_answer callerId)) st in
          emit (socket_emit "answer" (answer_payload callerId (localDescription conn))) st
      end
  end.

(** The fallback loop of [handleReceiveAnswer] (App.tsx 354-360): the
    first entry whose connection is in [have-local-offer] gets the
    answer, and the loop breaks. *)
Fixpoint answer_fallback (entries : list (string * nat))
    (sdp : RTCSessionDescription) (st : AppState) : AppState :=
  match entries with
  | [] => st
  | (userId, pc) :: rest =>
      match constructed st !! pc with
      | Some conn =>
          if decide (signalingState conn = have_local_offer) then
            match setRemoteDescription sdp conn with
            | Some conn =>
                let st := set_constructed (<[pc := conn]> (constructed st)) st in
                emit (console_log (log_set_remote_fallback userId)) st
            | None => st
            end
          else answer_fallback rest sdp st
      | None => answer_fallback rest sdp st
      end
  end.

(** App.tsx 343-362.  [callerId] is [payload.callerId], absent from the
    answers the relay forwards. *)
Definition handleReceiveAnswer (callerId : option string)
    (sdp : RTCSessionDescription) (st : AppState) : AppState :=
  let st := emit (console_log (log_received_answer callerId)) st in
  match callerId ≫= λ k, Map_get k (peerConnections st) with
  | Some pc =>
      match constructed st !! pc ≫= setRemoteDescription sdp with
      | Some conn =>
          let st := set_constructed (<[pc := conn]> (constructed st)) st in
          emit (console_log log_set_remote_for_answer) st
      | None => st
      end
  | None => answer_fallback (peerConnections st) sdp st
  end.

(** ** Session controller (App.tsx 86-115, 259-292) *)

(** The [connect] handler (App.tsx 129-131), on a socket that the
    library has just given the id [sid]. *)
Definition handleConnect (sid : string) (st : AppState) : AppState :=
  let st := set_socket_id (Some sid) st in
  setStatus "Connected to signaling server" st.

Definition handleUserConnected (h : Handler) (userId : string)
    (st : AppState) : AppState :=
  let st := setStatus ("User connected: " +:+ userId) st in
  let st := if decide (userId ∈ peersRef st) then st
            else set_peersRef (peersRef st ++ [userId]) st in
  if isSharingRef st then startCall h userId st else st.

Definition handleUserDisconnected (userId : string) (st : AppState) : AppState :=
  let st := setStatus ("User disconnected: " +:+ userId) st in
  set_peersRef (filter (λ id, id ≠ userId) (peersRef st)) st.

Definition handleAllUsers (users : list string) (st : AppState) : AppState :=
  let st := set_peersRef users st in
  emit (console_log (log_existing_users users)) st.

(** [socket.id] is read when the broadcast arrives; it is [undefined]
    (here [None]) until the socket is connected, and then no id of the
    payload is different from it in the sense of [!==]. *)
Definition handleUpdateUserList (users : list User) (st : AppState) : AppState :=
  let st := setConnectedUsers users st in
  let otherUserIds := id <$> filter (λ u, Some (id u) ≠ socket_id st) users in
  set_peersRef otherUserIds st.

(** What [await navigator.mediaDevices.getDisplayMedia(...)] comes back
    with: a stream, or an error with its [name] and [message]. *)
Inductive DisplayMedia :=
| acquired (stream : MediaStream)
| rejected (err_name err_message : string).

(** App.tsx 259-292; [media] is the outcome of the [await]. *)
Definition startScreenShare (h : Handler) (media : DisplayMedia)
    (st : AppState) : AppState :=
  if isSharingRef st then st else
  let st := emit (console_log log_requesting_display_media) st in
  let st := setStatus "Requesting screen access..." st in
  match media with
  | acquired stream =>
      let st := emit (console_log log_display_media_acquired) st in
      let st := set_localStream (Some stream) st in
      let st := set_isSharingRef true st in
      let st := setIsSharing true st in
      let peersToCall := peersRef st in
      let st := setStatus
        (if decide (0 < length peersToCall)
         then "Screen sharing started. Calling " +:+ pretty (length peersToCall) +:+ " peers..."
         else "Screen sharing started. Waiting for peers to join...") st in
      foldl (λ st userId, startCall h userId st) st peersToCall
  | rejected err_name err_message =>
      let st := emit (console_log log_error_screen_share) st in
      let st := setStatus
        ("Screen sharing failed: " +:+ err_name +:+ " - " +:+ err_message) st in
      emit (alert ("Error sharing screen: " +:+ err_name +:+ " - " +:+ err_message)) st
  end.

(** ** Sending (App.tsx 387-437) *)

(** [dc.send(data)] on an open channel. *)
Definition dc_send (data : MessageData) (dc : RTCDataChannel) : RTCDataChannel :=
  {| label := label dc; readyState := readyState dc;
     onmessage := onmessage dc; sent := sent dc ++ [data] |}.

(** The loop of [sendMessage]: every open channel gets the frame;
    the flag tells whether one did. *)
Fixpoint send_to_open (data : MessageData)
    (entries : list (string * RTCDataChannel)) (sent_flag : bool)
    : list (string * RTCDataChannel) * bool :=
  match entries with
  | [] => ([], sent_flag)
  | (k, dc) :: rest =>
      if decide (readyState dc = open) then
        let '(rest', flag) := send_to_open data rest true in
        ((k, dc_send data dc) :: rest', flag)
      else
        let '(rest', flag) := send_to_open data rest sent_flag in
        ((k, dc) :: rest', flag)
  end.

(** [capturedInput] is the [messageInput] of the render whose button
    was clicked. *)
Definition sendMessage (capturedInput : string) (st : AppState) : AppState :=
  let '(dcs, sent_flag) :=
    send_to_open (TextJSON (chat capturedInput)) (dataChannels st) false in
  let st := set_dataChannels dcs st in
  if sent_flag then
    let st := setMessages (λ prev, prev ++ ["Me: " +:+ capturedInput]) st in
    setMessageInput "" st
  else st.

Record File := { file_name : string; file_bytes : ArrayBuffer }.
Definition file_size (file : File) : N := N.of_nat (length (file_bytes file)).

(** The search loop of [sendFile]: position of the first open channel. *)
Fixpoint first_open (entries : list (string * RTCDataChannel)) : option nat :=
  match entries with
  | [] => None
  | (_, dc) :: rest =>
      if decide (readyState dc = open) then Some 0 else S <$> first_open rest
  end.

Definition CHUNK_SIZE : nat := 16 * 1024.

(** [buffer.slice(i, j)] *)
Definition slice (i j : nat) (buffer : ArrayBuffer) : ArrayBuffer :=
  take (j - i) (drop i buffer).

(** [for (let i = 0; i < buffer.byteLength; i += chunk_size)
       send(buffer.slice(i, i + chunk_size))]
    with one unit of [fuel] per iteration; the chunks in sending order. *)
Fixpoint chunk_loop (chunk_size fuel i : nat) (buffer : ArrayBuffer)
    : list ArrayBuffer :=
  match fuel with
  | 0 => []
  | S fuel =>
      if decide (i < byteLength buffer) then
        slice i (i + chunk_size) buffer ::
        chunk_loop chunk_size fuel (i + chunk_size) buffer
      else []
  end.

(** No iteration leaves [i] where it was, so [byteLength] iterations
    are enough for the loop to end by its own test. *)
Definition file_chunks (buffer : ArrayBuffer) : list ArrayBuffer :=
  chunk_loop CHUNK_SIZE (byteLength buffer) 0 buffer.

(** [openChannel.send(data)], the channel being the entry at [pos]. *)
Definition send_on (pos : nat) (data : MessageData)
    (entries : list (string * RTCDataChannel)) :=
  alter (λ e, (e.1, dc_send data e.2)) pos entries.

(** App.tsx 403-437; the [await file.arrayBuffer()] is followed at once
    by the chunk loop. *)
Definition sendFile (file : File) (st : AppState) : AppState :=
  match first_open (dataChannels st) with
  | None => emit (alert "Connection not ready.") st
  | Some openChannel =>
      let meta := file_meta (file_name file) (file_size file) in
      let st := set_dataChannels (send_on openChannel (TextJSON meta) (dataChannels st)) st in
      let st := setMessages (λ prev, prev ++
                  ["Me: Sending file " +:+ file_name file +:+ "..."]) st in
      let st := foldl (λ st chunk,
                  set_dataChannels (send_on openChannel (Binary chunk) (dataChannels st)) st)
                  st (file_chunks (file_bytes file)) in
      setMessages (λ prev, prev ++ ["Me: File sent."]) st
  end.

(** ** Observations used in the statements *)

(** Connection requests made one after the other, each by the closure
    of some render; the connections they return, and the state after. *)
Fixpoint connection_requests (reqs : list (Handler * string)) (st : AppState)
    : list nat * AppState :=
  match reqs with
  | [] => ([], st)
  | (h, targetUserId) :: reqs =>
      let '(pc, st) := createPeerConnection h targetUserId st in
      let '(pcs, st) := connection_requests reqs st in
      (pc :: pcs, st)
  end.


(** The targets [startCall] went on to call, oldest first: one per
    [Starting call to] line in the console (App.tsx 300). *)
Definition started_calls (st : AppState) : list string :=
  omap (λ e, match e with
             | console_log (log_starting_call targetUserId) => Some targetUserId
             | _ => None
             end) (effects st).

Definition calls_started (userId : string) (st : AppState) : nat :=
  length (filter (λ t, t = userId) (started_calls st)).

Definition is_open (entry : string * RTCDataChannel) : Prop :=
  readyState entry.2 = open.

(** A channel after [frames] have been handed to [send], in order. *)
Definition after_sending (frames : list MessageData) (dc : RTCDataChannel) :=
  {| label := label dc; readyState := readyState dc;
     onmessage := onmessage dc; sent := sent dc ++ frames |}.

(** What a step that starts no call and is not part of the session
    controller leaves alone. *)
Definition session_untouched (st st' : AppState) : Prop :=
  started_calls st' = started_calls st ∧
  localStream st' = localStream st ∧
  isSharingRef st' = isSharingRef st ∧
  peersRef st' = peersRef st.

(** ** The event loop

    One event is handled at a time.  The closure that handles an event
    is the one that was registered for it, so each event comes with the
    [Handler] its closure captured. *)
Inductive AppEvent :=
| on_connect (sid : string)
| on_user_connected (h : Handler) (userId : string)
| on_user_disconnected (userId : string)
| on_all_users (users : list string)
| on_update_user_list (users : list User)
| on_offer (h : Handler) (callerId : string) (sdp : RTCSessionDescription)
| on_answer (callerId : option string) (sdp : RTCSessionDescription)
| on_datachannel (h : Handler) (targetUserId : string) (channel : RTCDataChannel)
| on_message (h : Handler) (data : MessageData)
| click_share (h : Handler) (media : DisplayMedia)
| click_send (input : string)
| choose_file (file : File).

Definition handle_event (ev : AppEvent) (st : AppState) : AppState :=
  match ev with
  | on_connect sid => handleConnect sid st
  | on_user_connected h userId => handleUserConnected h userId st
  | on_user_disconnected userId => handleUserDisconnected userId st
  | on_all_users users => handleAllUsers users st
  | on_update_user_list users => handleUpdateUserList users st
  | on_offer h callerId sdp => handleReceiveOffer h callerId sdp st
  | on_answer callerId sdp => handleReceiveAnswer callerId sdp st
  | on_datachannel h targetUserId channel =>
      pc_ondatachannel h targetUserId channel st
  | on_message h data => handleDataChannelMessage h data st
  | click_share h media => startScreenShare h media st
  | click_send input => sendMessage input st
  | choose_file file => sendFile file st
  end.

Definition run (evs : list AppEvent) (st : AppState) : AppState :=
  foldl (λ st ev, handle_event ev st) st evs.

(** The registry names each constructed connection once: the ids are
    pairwise different and the connections are the constructed ones, in
    construction order. *)
Definition registry_ok (st : AppState) : Prop :=
  NoDup (peerConnections st).*1 ∧
  (peerConnections st).*2 = seq 0 (length (constructed st)).

Definition registry_same (st st' : AppState) : Prop :=
  peerConnections st' = peerConnections st ∧
  length (constructed st') = length (constructed st).

(** Steps that neither attach a stream nor change the sharing flag. *)
Definition stream_same (st st' : AppState) : Prop :=
  localStream st' = localStream st ∧ isSharingRef st' = isSharingRef st.

(** ** Further observations *)

(** The chunk sequences the handler holds, one after the other, as the
    binary frames [arriving] come in on top of the chunks [held]. *)
Definition sequences_seen (held arriving : list ArrayBuffer)
    : list (list ArrayBuffer) :=
  (λ k, held ++ take k arriving) <$> seq 1 (length arriving).

(** The test of App.tsx 191 on a chunk sequence. *)
Definition reaches (meta : FileMeta) (chunks : list ArrayBuffer) : Prop :=
  (N.of_nat (totalReceived chunks) >= size meta)%N.

Global Instance reaches_dec meta chunks : Decision (reaches meta chunks).
Proof. unfold reaches. apply _. Defined.

(** Frames of the file transfer, as opposed to chat and other text. *)
Definition is_transfer_frame (data : MessageData) : bool :=
  match data with
  | TextJSON (file_meta _ _) | Binary _ => true
  | _ => false
  end.

(** The line a text frame adds to the message log, if it adds one. *)
Definition logged_line (data : MessageData) : option string :=
  match data with
  | TextJSON (chat content) => Some ("Peer: " +:+ content)
  | TextPlain data => Some ("Peer: " +:+ data)
  | _ => None
  end.

(** Two states with the same transfer in flight and the same blobs. *)
Definition same_transfer (st st' : AppState) : Prop :=
  receivedFileMeta st' = receivedFileMeta st ∧
  receivedFileChunksRef st' = receivedFileChunksRef st ∧
  downloadLink st' = downloadLink st ∧
  objectURLs st' = objectURLs st.

(** The targets of the offers sent to the relay, oldest first. *)
Definition offers_sent (st : AppState) : list (option string) :=
  omap (λ e, match e with
             | socket_emit _ (offer_payload target _ _) => Some target
             | _ => None
             end) (effects st).

(** What the functions of the peer connection manager leave alone:
    everything but the connections, the registry, the channel map and
    the trace of outside calls; and those only grow. *)
Definition mesh_step (st st' : AppState) : Prop :=
  status st' = status st ∧ messages st' = messages st ∧
  messageInput st' = messageInput st ∧
  receivedFileMeta st' = receivedFileMeta st ∧
  downloadLink st' = downloadLink st ∧ isSharing st' = isSharing st ∧
  connectedUsers st' = connectedUsers st ∧
  receivedFileChunksRef st' = receivedFileChunksRef st ∧
  localStream st' = localStream st ∧ isSharingRef st' = isSharingRef st ∧
  peersRef st' = peersRef st ∧ objectURLs st' = objectURLs st ∧
  socket_id st' = socket_id st ∧
  effects st `prefix_of` effects st' ∧
  peerConnections st `prefix_of` peerConnections st' ∧
  (length (constructed st) ≤ length (constructed st'))%nat.

(** Logs and stores that are only ever added to. *)
Definition grows (st st' : AppState) : Prop :=
  messages st `prefix_of` messages st' ∧
  effects st `prefix_of` effects st' ∧
  objectURLs st `prefix_of` objectURLs st' ∧
  peerConnections st `prefix_of` peerConnections st' ∧
  (length (constructed st) ≤ length (constructed st'))%nat.

(** A click on the share button that gets a stream. *)
Definition acquires (ev : AppEvent) : Prop :=
  match ev with
  | click_share _ (acquired _) => True
  | _ => False
  end.

Global Instance acquires_dec ev : Decision (acquires ev).
Proof. destruct ev as [| | | | | | | | |h [s|en em]| |]; simpl; apply _. Defined.

(** The sharing flag, its ref and the local stream say the same. *)
Definition sharing_consistent (st : AppState) : Prop :=
  isSharing st = isSharingRef st ∧
  bool_decide (is_Some (localStream st)) = isSharingRef st.

(** Steps that start no call and send no offer. *)
Definition calls_same (st st' : AppState) : Prop :=
  started_calls st' = started_calls st ∧ offers_sent st' = offers_sent st.

(** Steps whose offers, if any, are for calls they started. *)
Definition calls_step (st st' : AppState) : Prop :=
  ∃ ids offs,
    started_calls st' = started_calls st ++ ids ∧
    offers_sent st' = offers_sent st ++ offs ∧
    offs `sublist_of` (Some <$> ids).

(** An outside call that is neither the start of a call nor an offer. *)
Definition silent (e : Effect) : Prop :=
  match e with
  | console_log (log_starting_call _) => False
  | socket_emit _ (offer_payload _ _ _) => False
  | _ => True
  end.

(** ** ICE candidates (App.tsx 364-385)

    [handleNewICECandidateMsg] changes nothing the app keeps: it hands
    the candidate to connections and writes to the console.  It is
    modelled by what it does, in order; its console lines have
    constructors of their own here. *)
Inductive IceStep :=
| ice_received (callerId : option string)        (* "Received ICE candidate from" *)
| ice_addIceCandidate (pc : nat) (resolved : bool)
| ice_error                                      (* "Error adding ICE candidate:" *)
| ice_added_fallback (userId : string).          (* "Added ICE candidate to ... (fallback)" *)

(** The fallback loop (App.tsx 376-383): every entry is tried; a
    rejection is caught and the loop goes on. *)
Fixpoint ice_fallback (accepts : nat → bool) (entries : list (string * nat))
    : list IceStep :=
  match entries with
  | [] => []
  | (userId, conn) :: rest =>
      ice_addIceCandidate conn (accepts conn) ::
      (if accepts conn then [ice_added_fallback userId] else []) ++
      ice_fallback accepts rest
  end.

(** [accepts pc] tells whether the browser's [addIceCandidate] resolves
    on the connection [pc] for the candidate of the message. *)
Definition handleNewICECandidateMsg (accepts : nat → bool)
    (callerId : option string) (st : AppState) : list IceStep :=
  ice_received callerId ::
  match callerId ≫= λ k, Map_get k (peerConnections st) with
  | Some pc =>
      ice_addIceCandidate pc (accepts pc) ::
      (if accepts pc then [] else [ice_error])
  | None => ice_fallback accepts (peerConnections st)
  end.

(** The connections the candidate was handed to, in order. *)
Definition ice_offered (steps : list IceStep) : list nat :=
  omap (λ s, match s with ice_addIceCandidate pc _ => Some pc | _ => None end)
       steps.

(** The peers for which the fallback reported the candidate as added. *)
Definition ice_reported (steps : list IceStep) : list string :=
  omap (λ s, match s with ice_added_fallback userId => Some userId | _ => None end)
       steps.

(** The channel map tracks one channel per peer id, each with its
    message handler assigned. *)
Definition channels_ok (st : AppState) : Prop :=
  NoDup (dataChannels st).*1 ∧
  Forall (λ e, is_Some (onmessage e.2)) (dataChannels st).

(** * Properties *)

(** ** Transfer protocol *)

Lemma totalReceived_from (acc : nat) (chunks : list ArrayBuffer) :
  foldl (λ acc chunk, acc + byteLength chunk) acc chunks
  = acc + length (concat chunks).
Proof.
  revert acc. induction chunks as [|c chunks IH]; intros acc; simpl.
  - lia.
  - rewrite IH, length_app. unfold byteLength. lia.
Qed.

Lemma totalReceived_concat (chunks : list ArrayBuffer) :
  totalReceived chunks = length (concat chunks).
Proof. unfold totalReceived. by rewrite totalReceived_from. Qed.

Lemma receiveAll_snoc h evs ev st :
  receiveAll h (evs ++ [ev]) st
  = handleDataChannelMessage h ev (receiveAll h evs st).
Proof. unfold receiveAll. by rewrite foldl_app. Qed.

Lemma receiveEach_snoc frames f st :
  receiveEach (frames ++ [f]) st
  = handleDataChannelMessage f.1 f.2 (receiveEach frames st).
Proof. unfold receiveEach. by rewrite foldl_app. Qed.

(** A fixed closure is one way of handling each frame. *)
Lemma receiveAll_receiveEach h evs st :
  receiveAll h evs st = receiveEach ((λ ev, (h, ev)) <$> evs) st.
Proof.
  revert st. induction evs as [|ev evs IH]; intros st; [done|].
  simpl. apply IH.
Qed.

(** So is the closure of the latest render, for some choice of closures. *)
Lemma receiveAll_latest_receiveEach evs st :
  ∃ hs, length hs = length evs ∧
        receiveAll_latest evs st = receiveEach (zip hs evs) st.
Proof.
  revert st. induction evs as [|ev evs IH]; intros st.
  - by exists [].
  - destruct (IH (handleDataChannelMessage (receivedFileMeta st) ev st))
      as (hs & Hlen & Heq).
    exists (receivedFileMeta st :: hs). split; [simpl; lia|].
    simpl. exact Heq.
Qed.

(** What one frame does to the blob store: nothing, or one more blob,
    made of the chunks held before it and the frame itself. *)
Lemma handle_objectURLs h ev st :
  let st' := handleDataChannelMessage h ev st in
  objectURLs st' = objectURLs st ∨
  ∃ data, ev = Binary data ∧
          receivedFileChunksRef st' = receivedFileChunksRef st ++ [data] ∧
          objectURLs st' = objectURLs st ++ [concat (receivedFileChunksRef st')].
Proof.
  destruct ev as [[c|n sz|]|s|data]; simpl; auto.
  destruct h as [meta|]; auto.
  case_decide; simpl; [|auto].
  right. by exists data.
Qed.

(** What one frame does to the chunk sequence: a file-meta frame empties
    it, a binary frame is added at the end or dropped, the rest leave it. *)
Lemma handle_chunks h ev st :
  let st' := handleDataChannelMessage h ev st in
  (∃ n sz, ev = TextJSON (file_meta n sz) ∧ receivedFileChunksRef st' = []) ∨
  (∃ data, ev = Binary data ∧
           receivedFileChunksRef st' = receivedFileChunksRef st ++ [data]) ∨
  receivedFileChunksRef st' = receivedFileChunksRef st.
Proof.
  destruct ev as [[c|n sz|]|s|data]; simpl; eauto.
  destruct h as [meta|]; auto.
  right; left. exists data. split; [done|]. by case_decide.
Qed.

(** Whatever closures handle them, frames only ever put into a blob
    chunks that are held already or that arrive among them, in order. *)
Lemma receiveEach_blobs frames st held :
  receivedFileChunksRef st `sublist_of` held →
  let st' := receiveEach frames st in
  receivedFileChunksRef st' `sublist_of` held ++ binary_frames frames.*2 ∧
  ∃ news, objectURLs st' = objectURLs st ++ news ∧
    Forall (λ blob, ∃ l, l `sublist_of` held ++ binary_frames frames.*2 ∧
                         blob = concat l) news.
Proof.
  intros Hheld. induction frames as [|[h ev] frames IH] using rev_ind; simpl.
  - rewrite app_nil_r. split; [done|]. exists []. by rewrite app_nil_r.
  - rewrite receiveEach_snoc. simpl.
    set (mid := receiveEach frames st) in *.
    destruct IH as (Hsub & news & Hurls & Hnews).
    unfold binary_frames in *. rewrite fmap_app, omap_app. simpl.
    assert (Hgrow : ∀ l : list ArrayBuffer, ∀ extra,
              l `sublist_of` held ++ omap (λ ev, match ev with
                                            | Binary data => Some data
                                            | _ => None end) frames.*2 →
              l `sublist_of` held ++ omap (λ ev, match ev with
                                            | Binary data => Some data
                                            | _ => None end) frames.*2 ++ extra).
    { intros l extra Hl. rewrite app_assoc. by apply sublist_inserts_r. }
    assert (Hchunks :
      receivedFileChunksRef (handleDataChannelMessage h ev mid) `sublist_of`
        held ++ omap (λ ev, match ev with
                            | Binary data => Some data
                            | _ => None end) frames.*2
             ++ match ev with Binary data => [data] | _ => [] end).
    { destruct (handle_chunks h ev mid) as [(n & sz & -> & ->)|[(d & -> & ->)| ->]].
      - apply sublist_nil_l.
      - rewrite app_assoc. by apply sublist_app.
      - by apply Hgrow. }
    assert (Hext : match ev with Binary data => [data] | _ => [] end
                   = from_option (λ x, [x]) []
                       match ev with Binary data => Some data | _ => None end).
    { by destruct ev as [[| |]| |]. }
    rewrite Hext in Hchunks.
    split.
    + destruct ev as [[| |]| |]; simpl in *; exact Hchunks.
    + destruct (handle_objectURLs h ev mid) as [-> |(d & -> & Hc & ->)].
      * exists news. split; [done|].
        eapply Forall_impl; [exact Hnews|].
        intros blob (l & Hl & ->). exists l. split; [by apply Hgrow|done].
      * exists (news ++ [concat (receivedFileChunksRef
                                   (handleDataChannelMessage h (Binary d) mid))]).
        split; [by rewrite Hurls, app_assoc|].
        apply Forall_app. split.
        -- eapply Forall_impl; [exact Hnews|].
           intros blob (l & Hl & ->). exists l. split; [by apply Hgrow|done].
        -- apply Forall_singleton. eexists. split; [|done]. exact Hchunks.
Qed.

Lemma binary_frames_dropped (more : list ArrayBuffer) (st : AppState) :
  receiveAll None (Binary <$> more) st = st.
Proof. induction more as [|d more IH]; [done|]. simpl. exact IH. Qed.

Lemma binary_frames_dropped_latest (more : list ArrayBuffer) (st : AppState) :
  receivedFileMeta st = None → receiveAll_latest (Binary <$> more) st = st.
Proof.
  intros Hnone. induction more as [|d more IH]; [done|].
  simpl. rewrite Hnone. exact IH.
Qed.

(** C10.  A binary frame handled by a closure that holds no file
    metadata (no [file-meta] frame had set any when the closure was
    made) is dropped without a trace: the chunk sequence, the message
    log, the download link, the blob store and all the rest of the
    state are what they were, for one frame and for any number.  The
    same holds for the closure of the latest render as long as no
    [file-meta] frame has been received. *)
Theorem C10_binary_frame_without_transfer_is_dropped :
  ∀ (data : ArrayBuffer) (more : list ArrayBuffer) (st : AppState),
    handleDataChannelMessage None (Binary data) st = st ∧
    receiveAll None (Binary <$> more) st = st ∧
    (receivedFileMeta st = None →
     receiveAll_latest (Binary <$> more) st = st).
Proof.
  intros data more st. split; [done|]. split.
  - apply binary_frames_dropped.
  - apply binary_frames_dropped_latest.
Qed.

Lemma C10_witness :
  receiveAll_latest [Binary [Byte.x01]; Binary [Byte.x02; Byte.x03]] initialState
  = initialState.
Proof.
  exact (proj2 (proj2 (C10_binary_frame_without_transfer_is_dropped
                         [] [[Byte.x01]; [Byte.x02; Byte.x03]] initialState))
           eq_refl).
Defined.

(** A [file-meta] frame, in any state and whichever closure handles
    it, empties the chunk sequence and replaces the metadata, and fires
    no completion itself.  No later completion delivers anything of what
    was discarded: whatever frames follow and whichever closures handle
    them, every blob created from then on is made only of binary frames
    that arrived after this [file-meta], in their order of arrival. *)
Lemma file_meta_discards_held_chunks :
  ∀ (h : Handler) (n : string) (sz : N) (st : AppState),
    let st' := handleDataChannelMessage h (TextJSON (file_meta n sz)) st in
    receivedFileChunksRef st' = [] ∧
    receivedFileMeta st' = Some {| name := n; size := sz |} ∧
    objectURLs st' = objectURLs st ∧
    downloadLink st' = downloadLink st ∧
    ∀ frames : list (Handler * MessageData),
      ∃ news, objectURLs (receiveEach frames st') = objectURLs st ++ news ∧
        Forall (λ blob, ∃ l, l `sublist_of` binary_frames frames.*2 ∧
                             blob = concat l) news.
Proof.
  intros h n sz st st'. repeat split; try done.
  intros frames.
  destruct (receiveEach_blobs frames st' []) as (_ & news & Hurls & Hnews);
    [done|].
  exists news. split; [exact Hurls|exact Hnews].
Qed.

(** Binary frames handled by a closure that holds metadata are all
    kept, in arrival order; none of them removes a blob or writes the
    metadata cell. *)
Lemma binary_frames_kept (meta : FileMeta) (arriving : list ArrayBuffer) :
  ∀ st : AppState,
    let st' := receiveAll (Some meta) (Binary <$> arriving) st in
    receivedFileChunksRef st' = receivedFileChunksRef st ++ arriving ∧
    (length (objectURLs st) ≤ length (objectURLs st'))%nat ∧
    receivedFileMeta st' = receivedFileMeta st.
Proof.
  induction arriving as [|c arriving IH] using rev_ind; intros st.
  - simpl. by rewrite app_nil_r.
  - cbv zeta. rewrite fmap_app.
    change (Binary <$> [c]) with [Binary c]. rewrite receiveAll_snoc.
    destruct (IH st) as (Hc & Hu & Hm).
    set (mid := receiveAll (Some meta) (Binary <$> arriving) st) in *.
    simpl. rewrite Hc, app_assoc.
    case_decide; simpl; rewrite ?length_app; simpl;
      (split; [done|split; [lia|done]]).
Qed.

(** The threshold that counts is the one of the closure: as soon as the
    bytes held reach the size the closure captured, the frame that was
    handled last has fired a completion, under the name the closure
    captured and over all the chunks held. *)
Lemma binary_frames_reach (meta : FileMeta) (later : list ArrayBuffer)
    (st : AppState) :
  later ≠ [] →
  (size meta ≤ N.of_nat (totalReceived (receivedFileChunksRef st ++ later)))%N →
  let st' := receiveAll (Some meta) (Binary <$> later) st in
  length (objectURLs st) < length (objectURLs st') ∧
  last (objectURLs st') = Some (new_Blob (receivedFileChunksRef st ++ later)) ∧
  downloadLink st' = Some (name meta, length (objectURLs st') - 1) ∧
  last (messages st') = Some ("System: File " +:+ name meta +:+ " received.").
Proof.
  destruct later as [|c later _] using rev_ind; [done|]. intros _ Hge.
  cbv zeta. rewrite fmap_app.
  change (Binary <$> [c]) with [Binary c]. rewrite receiveAll_snoc.
  destruct (binary_frames_kept meta later st) as (Hc & Hu & _).
  set (mid := receiveAll (Some meta) (Binary <$> later) st) in *.
  simpl. rewrite Hc, <- app_assoc.
  case_decide as Hlt; [|lia].
  simpl. rewrite !last_snoc, length_app. simpl.
  repeat split; [lia|].
  do 2 f_equal. lia.
Qed.

(** C5.  The [file-meta] frame of a second transfer does discard what
    was held of the first: the chunk sequence is emptied and the
    metadata cell replaced, with no completion at that frame.  But the
    closure that handles the channel's frames still holds the metadata
    of the first transfer, and it is this captured name and size that
    the binary branch reads.  So once the binary frames that follow the
    second [file-meta] add up to the size of the first file, a
    completion fires for the first file: the download link and the
    [received] line carry its name, while the blob is made of the frames
    that came after the second [file-meta] and the metadata cell shows
    the second file. *)
Theorem C5_discarded_transfer_completes_after_second_file_meta :
  ∀ (first : FileMeta) (n : string) (sz : N) (later : list ArrayBuffer)
    (st : AppState),
    receivedFileMeta st = Some first →
    (N.of_nat (totalReceived (receivedFileChunksRef st)) < size first)%N →
    (size first ≤ N.of_nat (totalReceived later))%N →
    let st1 := handleDataChannelMessage (Some first)
                 (TextJSON (file_meta n sz)) st in
    let st' := receiveAll (Some first) (Binary <$> later) st1 in
    (receivedFileChunksRef st1 = [] ∧
     receivedFileMeta st1 = Some {| name := n; size := sz |} ∧
     objectURLs st1 = objectURLs st ∧ downloadLink st1 = downloadLink st) ∧
    0 < completions st1 st' ∧
    last (objectURLs st') = Some (new_Blob later) ∧
    downloadLink st' = Some (name first, length (objectURLs st') - 1) ∧
    last (messages st')
    = Some ("System: File " +:+ name first +:+ " received.") ∧
    receivedFileMeta st' = Some {| name := n; size := sz |}.
Proof.
  intros first n sz later st _ Hheld Hreach st1 st'.
  split; [done|].
  assert (Hne : later ≠ []).
  { intros ->. change (totalReceived []) with 0 in Hreach. lia. }
  destruct (binary_frames_reach first later st1 Hne Hreach)
    as (Hlen & Hblob & Hlink & Hline).
  destruct (binary_frames_kept first later st1) as (_ & _ & Hmeta).
  fold st' in Hlen, Hblob, Hlink, Hline, Hmeta.
  split; [unfold completions; lia|].
  split; [exact Hblob|]. split; [exact Hlink|]. split; [exact Hline|].
  exact Hmeta.
Qed.

Lemma C5_witness :
  let a := {| name := "a.bin"; size := 4 |} in
  let st := receiveEach [(None, TextJSON (file_meta "a.bin" 4));
                         (Some a, Binary [Byte.x01; Byte.x02])] initialState in
  let st' := receiveAll (Some a)
               [TextJSON (file_meta "b.bin" 2);
                Binary [Byte.x09; Byte.x09]; Binary [Byte.x08; Byte.x08]] st in
  (receivedFileMeta st = Some a ∧
   receivedFileChunksRef st = [[Byte.x01; Byte.x02]]) ∧
  objectURLs st' = [[Byte.x09; Byte.x09; Byte.x08; Byte.x08]] ∧
  downloadLink st' = Some ("a.bin", 0) ∧
  last (messages st') = Some "System: File a.bin received." ∧
  receivedFileMeta st' = Some {| name := "b.bin"; size := 2 |}.
Proof.
  intros a st st'.
  destruct (C5_discarded_transfer_completes_after_second_file_meta
              a "b.bin" 2 [[Byte.x09; Byte.x09]; [Byte.x08; Byte.x08]] st
              eq_refl eq_refl ltac:(by vm_compute))
    as (_ & _ & _ & Hlink & Hline & Hmeta).
  split; [done|]. split; [done|].
  split; [exact Hlink|]. split; [exact Hline|exact Hmeta].
Defined.

(** A closure that holds the metadata of a file is what a channel gets
    when it is opened from a render that came after that file's
    [file-meta]: the share button runs the [startScreenShare] of the
    latest render.  Here [P1] has called, its [file-meta] for [a.bin]
    has arrived on the channel it opened, and the share button is
    clicked afterwards; the channel [startCall] then opens to [P1]
    completes [a.bin] out of the bytes that follow the [file-meta] of
    [b.bin]. *)
Example discarded_transfer_end_to_end :
  let a := {| name := "a.bin"; size := 4 |} in
  let inbound := {| label := "chat"; readyState := open;
                    onmessage := None; sent := [] |} in
  let st :=
    run [on_connect "me"; on_user_connected None "P1";
         on_offer None "P1" {| sdp_type := offer; sdp := "v=0" |};
         on_datachannel None "P1" inbound;
         on_message None (TextJSON (file_meta "a.bin" 4));
         click_share (Some a) (acquired [{| track_id := 0; kind := "video" |}])]
      initialState in
  ∃ dc, Map_get "P1" (dataChannels st) = Some dc ∧
        onmessage dc = Some (Some a) ∧
        let st' := foldl (λ st ev, dispatch_message dc ev st) st
                     [Binary [Byte.x01; Byte.x02];
                      TextJSON (file_meta "b.bin" 2);
                      Binary [Byte.x09; Byte.x09];
                      Binary [Byte.x08; Byte.x08]] in
        receivedFileMeta st' = Some {| name := "b.bin"; size := 2 |} ∧
        objectURLs st' = [[Byte.x09; Byte.x09; Byte.x08; Byte.x08]] ∧
        downloadLink st' = Some ("a.bin", 0).
Proof. eexists. by repeat split. Qed.

Lemma concat_nonempty (chunks : list ArrayBuffer) :
  chunks ≠ [] → Forall (λ c, c ≠ []) chunks → 0 < length (concat chunks).
Proof.
  destruct chunks as [|[|b c] chunks]; [done| |].
  - intros _ Hall. by apply Forall_cons in Hall as [? _].
  - intros _ _. simpl. lia.
Qed.

(** When the closure that handles the binary frames holds the metadata
    of the transfer, reassembly works as the protocol intends: chunks,
    none of them empty, that add up to the declared size give one blob,
    their concatenation, at the last chunk. *)
Lemma binary_frames_complete_at_last (meta : FileMeta) (rest : list ArrayBuffer) :
  ∀ (pre : list ArrayBuffer) (st : AppState),
    rest ≠ [] → Forall (λ c, c ≠ []) rest →
    receivedFileChunksRef st = pre →
    size meta = N.of_nat (length (concat (pre ++ rest))) →
    let st' := receiveAll (Some meta) (Binary <$> rest) st in
    objectURLs st' = objectURLs st ++ [concat (pre ++ rest)] ∧
    downloadLink st' = Some (name meta, length (objectURLs st)) ∧
    receivedFileChunksRef st' = pre ++ rest ∧
    receivedFileMeta st' = receivedFileMeta st.
Proof.
  induction rest as [|c rest IH]; intros pre st Hne Hall Hpre Hsize; [done|].
  apply Forall_cons in Hall as [Hc Hall].
  unfold receiveAll in *. simpl. rewrite Hpre, totalReceived_concat.
  destruct (decide (rest = [])) as [-> |Hrest].
  - simpl. case_decide as Hge; [|lia]. by simpl.
  - case_decide as Hge.
    + exfalso. pose proof (concat_nonempty rest Hrest Hall) as Hpos.
      rewrite Hsize in Hge.
      rewrite !concat_app, !length_app in Hge. simpl in Hge.
      rewrite app_nil_r, length_app in Hge. lia.
    + set (st1 := set_receivedFileChunksRef (pre ++ [c]) st).
      destruct (IH (pre ++ [c]) st1) as (H1 & H2 & H3 & H4); try done.
      { by rewrite <- app_assoc. }
      rewrite <- app_assoc in H1, H3.
      repeat split; [exact H1|exact H2|exact H3|exact H4].
Qed.

Lemma reassembly_when_closure_is_current (n : string) (chunks : list ArrayBuffer)
    (st : AppState) :
  chunks ≠ [] → Forall (λ c, c ≠ []) chunks →
  let declared := N.of_nat (length (concat chunks)) in
  let st' := receiveAll (Some {| name := n; size := declared |})
               (TextJSON (file_meta n declared) :: (Binary <$> chunks)) st in
  objectURLs st' = objectURLs st ++ [concat chunks] ∧
  downloadLink st' = Some (n, length (objectURLs st)) ∧
  completions st st' = 1.
Proof.
  intros Hne Hall declared st'. subst st'.
  set (meta := {| name := n; size := declared |}).
  change (receiveAll (Some meta) (TextJSON (file_meta n declared) :: (Binary <$> chunks)) st)
    with (receiveAll (Some meta) (Binary <$> chunks)
            (handleDataChannelMessage (Some meta) (TextJSON (file_meta n declared)) st)).
  destruct (binary_frames_complete_at_last meta chunks []
              (handleDataChannelMessage (Some meta) (TextJSON (file_meta n declared)) st)
              Hne Hall eq_refl eq_refl) as (H1 & H2 & _).
  unfold completions. rewrite H1, H2. simpl.
  repeat split. rewrite length_app. simpl. lia.
Qed.

(** Once the threshold is reached the state stays as it is, so each
    further binary frame fires again, over a longer chunk sequence. *)
Lemma binary_frame_after_completion (meta : FileMeta) (extra : ArrayBuffer)
    (st : AppState) :
  (N.of_nat (totalReceived (receivedFileChunksRef st)) >= size meta)%N →
  let st' := handleDataChannelMessage (Some meta) (Binary extra) st in
  receivedFileChunksRef st' = receivedFileChunksRef st ++ [extra] ∧
  objectURLs st' = objectURLs st ++ [concat (receivedFileChunksRef st ++ [extra])] ∧
  receivedFileMeta st' = receivedFileMeta st.
Proof.
  intros Hge. simpl. case_decide as Hge'; [done|].
  exfalso. apply Hge'.
  rewrite !totalReceived_concat in *. rewrite concat_app, length_app. lia.
Qed.

(** A channel made by [startCall] carries the closure that made it.
    The socket handlers are registered once, by the render that follows
    the creation of the socket, when no file metadata has been received
    yet; the channel they open for a peer therefore drops the chunks of
    the transfer that peer then sends. *)
Example first_transfer_end_to_end :
  let sharing :=
    startScreenShare None (acquired [{| track_id := 0; kind := "video" |}])
      initialState in
  let st := handleUserConnected None "P1" sharing in
  ∃ dc, Map_get "P1" (dataChannels st) = Some dc ∧
        onmessage dc = Some None ∧
        let st1 := dispatch_message dc (TextJSON (file_meta "a.bin" 3)) st in
        let st2 := dispatch_message dc
                     (Binary [Byte.x01; Byte.x02; Byte.x03]) st1 in
        receivedFileMeta st2 = Some {| name := "a.bin"; size := 3 |} ∧
        receivedFileChunksRef st2 = [] ∧
        objectURLs st2 = [] ∧ downloadLink st2 = None.
Proof. eexists. by repeat split. Qed.

(** C2.  The closure assigned to a channel when the channel is set up
    keeps the [receivedFileMeta] of that render; for the first transfer
    the app receives that is [null] (here [None]), and the
    [file-meta] frame only writes the cell.  So for every name, size and
    chunks, the binary frames are dropped and no completion fires: no
    blob, no download link.  Independently of which closure handles the
    frames, an empty file (size 0, no chunk) never completes, and
    with the closure of the latest render a chunk of the declared size
    followed by an empty one completes twice. *)
Theorem C2_received_file_does_not_complete_once :
  (∀ (n : string) (sz : N) (chunks : list ArrayBuffer) (st : AppState),
     let st' := receiveAll None
                  (TextJSON (file_meta n sz) :: (Binary <$> chunks)) st in
     objectURLs st' = objectURLs st ∧ downloadLink st' = downloadLink st ∧
     receivedFileChunksRef st' = [] ∧ completions st st' = 0) ∧
  (∀ (h : Handler) (n : string) (st : AppState),
     completions st (receiveAll h [TextJSON (file_meta n 0)] st) = 0 ∧
     completions st (receiveAll_latest [TextJSON (file_meta n 0)] st) = 0) ∧
  completions initialState
    (receiveAll_latest
       [TextJSON (file_meta "a.bin" 3);
        Binary [Byte.x01; Byte.x02; Byte.x03]; Binary []] initialState) = 2.
Proof.
  split; [|split].
  - intros n sz chunks st. simpl.
    match goal with
    | |- context [receiveAll None _ ?s] =>
        pose proof (binary_frames_dropped chunks s) as Hdrop
    end.
    unfold receiveAll in *. simpl in *. rewrite Hdrop. simpl.
    repeat split. unfold completions. simpl. lia.
  - intros h n st. unfold completions. simpl. split; lia.
  - reflexivity.
Qed.

(** C4.  Nothing is cleared when the threshold is reached (the reset
    under the comment [Reset state] is commented out, and the chunk
    sequence is not emptied either).  After a one-byte transfer has
    completed, the metadata and the chunk are still held; one more
    binary frame is appended to them and fires a second completion,
    whose blob holds both frames.  This is so for the closure that holds
    the metadata and for the closure of the latest render alike. *)
Theorem C4_completed_transfer_is_kept_and_fires_again :
  let meta := {| name := "a.bin"; size := 1 |} in
  let first := [TextJSON (file_meta "a.bin" 1); Binary [Byte.x07]] in
  let later := [Binary [Byte.x08]] in
  let done1 := receiveAll (Some meta) first initialState in
  let done2 := receiveAll_latest first initialState in
  (objectURLs done1 = [[Byte.x07]] ∧ receivedFileMeta done1 = Some meta ∧
   receivedFileChunksRef done1 = [[Byte.x07]]) ∧
  (objectURLs done2 = [[Byte.x07]] ∧ receivedFileMeta done2 = Some meta ∧
   receivedFileChunksRef done2 = [[Byte.x07]]) ∧
  (let st' := receiveAll (Some meta) later done1 in
   objectURLs st' = [[Byte.x07]; [Byte.x07; Byte.x08]] ∧
   downloadLink st' = Some ("a.bin", 1) ∧
   receivedFileChunksRef st' = [[Byte.x07]; [Byte.x08]]) ∧
  (let st' := receiveAll_latest later done2 in
   objectURLs st' = [[Byte.x07]; [Byte.x07; Byte.x08]] ∧
   downloadLink st' = Some ("a.bin", 1) ∧
   receivedFileChunksRef st' = [[Byte.x07]; [Byte.x08]]).
Proof. repeat split. Qed.

(** ** Peer connection manager *)

Lemma Map_get_set {V} (k : string) (v : V) (m : list (string * V)) :
  Map_get k (Map_set k v m) = Some v.
Proof.
  induction m as [|[k' v'] m IH]; simpl.
  - by rewrite decide_True.
  - destruct (decide (k' = k)) as [-> |Hne]; simpl.
    + by rewrite decide_True.
    + by rewrite decide_False.
Qed.

Lemma Map_get_set_ne {V} (k k2 : string) (v : V) (m : list (string * V)) :
  k ≠ k2 → Map_get k2 (Map_set k v m) = Map_get k2 m.
Proof.
  intros Hne. induction m as [|[k' v'] m IH]; simpl.
  - by rewrite decide_False.
  - destruct (decide (k' = k)) as [-> |Hne']; simpl.
    + by rewrite !decide_False.
    + by rewrite IH.
Qed.

Lemma Map_get_None {V} (k : string) (m : list (string * V)) :
  Map_get k m = None ↔ k ∉ m.*1.
Proof.
  induction m as [|[k' v'] m IH]; simpl.
  - split; [intros _; apply not_elem_of_nil|done].
  - rewrite not_elem_of_cons. destruct (decide (k' = k)) as [-> |Hne].
    + split; [done|]. by intros [? _].
    + rewrite IH. split; [intros ?; by split|by intros [_ ?]].
Qed.

Lemma Map_set_fresh {V} (k : string) (v : V) (m : list (string * V)) :
  Map_get k m = None → Map_set k v m = m ++ [(k, v)].
Proof.
  induction m as [|[k' v'] m IH]; simpl; [done|].
  destruct (decide (k' = k)); [done|]. intros H. by rewrite IH.
Qed.

(** One request: a registered id constructs nothing and changes neither
    the registry nor the store; an unregistered one constructs one
    connection and registers it at the end. *)
Lemma createPeerConnection_spec (h : Handler) (targetUserId : string)
    (st : AppState) :
  let r := createPeerConnection h targetUserId st in
  Map_get targetUserId (peerConnections r.2) = Some r.1 ∧
  match Map_get targetUserId (peerConnections st) with
  | Some existingPc =>
      r.1 = existingPc ∧ constructed r.2 = constructed st ∧
      peerConnections r.2 = peerConnections st
  | None =>
      r.1 = length (constructed st) ∧
      constructed r.2 = constructed st ++ [new_RTCPeerConnection h] ∧
      peerConnections r.2 = peerConnections st ++ [(targetUserId, r.1)]
  end.
Proof.
  unfold createPeerConnection.
  destruct (Map_get targetUserId (peerConnections st)) as [pc|] eqn:Hget; simpl.
  - by rewrite Hget.
  - rewrite Map_get_set. by rewrite (Map_set_fresh _ _ _ Hget).
Qed.

Lemma createPeerConnection_keys (h : Handler) (targetUserId : string)
    (st : AppState) :
  NoDup (peerConnections st).*1 →
  NoDup (peerConnections (createPeerConnection h targetUserId st).2).*1.
Proof.
  intros Hnd.
  destruct (createPeerConnection_spec h targetUserId st) as [_ Hspec].
  destruct (Map_get targetUserId (peerConnections st)) eqn:Hget.
  - destruct Hspec as (_ & _ & ->). done.
  - destruct Hspec as (_ & _ & ->). rewrite fmap_app. simpl.
    apply NoDup_app. split; [done|]. split; [|apply NoDup_singleton].
    intros k Hk ->%list_elem_of_singleton. by apply Map_get_None in Hget.
Qed.

Lemma requests_for_registered (targetUserId : string) (hs : list Handler) :
  ∀ (st : AppState) (pc : nat),
    Map_get targetUserId (peerConnections st) = Some pc →
    let r := connection_requests ((λ h, (h, targetUserId)) <$> hs) st in
    r.1 = replicate (length hs) pc ∧
    constructed r.2 = constructed st ∧
    peerConnections r.2 = peerConnections st.
Proof.
  induction hs as [|h hs IH]; intros st pc Hget; [done|].
  simpl.
  destruct (createPeerConnection_spec h targetUserId st) as [Hreg Hspec].
  rewrite Hget in Hspec. destruct Hspec as (Hpc & Hcons & Hmap).
  destruct (createPeerConnection h targetUserId st) as [pc1 st1] eqn:Hcall.
  simpl in *. subst pc1.
  destruct (IH st1 pc Hreg) as (H1 & H2 & H3).
  destruct (connection_requests _ st1) as [pcs st2]. simpl in *.
  by rewrite H1, H2, H3, Hcons, Hmap.
Qed.

(** ** The registry at any time *)

Lemma registry_same_ok st st' :
  registry_same st st' → registry_ok st → registry_ok st'.
Proof. intros [Hm Hl] [Hk Hv]. split; by rewrite Hm, ?Hl. Qed.

Lemma registry_same_trans st1 st2 st3 :
  registry_same st1 st2 → registry_same st2 st3 → registry_same st1 st3.
Proof. intros [? ?] [? ?]. split; congruence. Qed.

Lemma createPeerConnection_registry h targetUserId st :
  registry_ok st → registry_ok (createPeerConnection h targetUserId st).2.
Proof.
  intros [Hk Hv]. split; [by apply createPeerConnection_keys|].
  destruct (createPeerConnection_spec h targetUserId st) as [_ Hspec].
  destruct (Map_get targetUserId (peerConnections st)).
  - destruct Hspec as (_ & -> & ->). done.
  - destruct Hspec as (-> & -> & ->).
    rewrite fmap_app, length_app, Hv. simpl.
    by rewrite Nat.add_1_r, seq_S.
Qed.

Lemma addTracks_registry tracks pc st :
  registry_same st (addTracks tracks pc st).2.
Proof.
  revert st. induction tracks as [|track tracks IH]; intros st; simpl; [done|].
  destruct (constructed st !! pc ≫= addTrack track) as [conn|]; [|done].
  eapply registry_same_trans; [|apply IH].
  split; [done|]. simpl. apply length_insert.
Qed.

Lemma startCall_registry h targetUserId st :
  registry_ok st → registry_ok (startCall h targetUserId st).
Proof.
  intros Hok. unfold startCall.
  destruct (localStream st) as [stream|]; [|done].
  set (st0 := emit (console_log (log_starting_call targetUserId)) st).
  pose proof (createPeerConnection_registry h targetUserId st0 Hok) as H1.
  destruct (createPeerConnection h targetUserId st0) as [pc st1]. simpl in H1.
  pose proof (addTracks_registry stream pc st1) as H2.
  destruct (addTracks stream pc st1) as [ok st2]. simpl in H2.
  pose proof (registry_same_ok _ _ H2 H1) as H3.
  destruct ok; [|done].
  destruct (constructed st2 !! pc) as [conn|]; [|done].
  destruct (decide (signalingState conn = signaling_closed)); [done|].
  destruct (createOffer conn ≫= λ o, setLocalDescription o conn); [|done].
  eapply registry_same_ok; [|exact H3].
  split; [done|]. simpl. apply length_insert.
Qed.

Lemma handleReceiveOffer_registry h callerId sdp st :
  registry_ok st → registry_ok (handleReceiveOffer h callerId sdp st).
Proof.
  intros Hok. unfold handleReceiveOffer.
  set (st0 := emit (console_log (log_received_offer callerId)) st).
  pose proof (createPeerConnection_registry h callerId st0 Hok) as H1.
  destruct (createPeerConnection h callerId st0) as [pc st1]. simpl in H1.
  destruct (constructed st1 !! pc ≫= setRemoteDescription sdp) as [conn|];
    [|done].
  assert (H2 : registry_ok (set_constructed (<[pc := conn]> (constructed st1)) st1)).
  { eapply registry_same_ok; [|exact H1]. split; [done|]. apply length_insert. }
  destruct (createAnswer conn ≫= λ a, setLocalDescription a conn) as [conn'|];
    [|exact H2].
  eapply registry_same_ok; [|exact H2].
  split; [done|]. simpl. by rewrite !length_insert.
Qed.

Lemma answer_fallback_registry entries sdp st :
  registry_same st (answer_fallback entries sdp st).
Proof.
  induction entries as [|[userId pc] entries IH]; simpl; [done|].
  destruct (constructed st !! pc) as [conn|]; [|done].
  destruct (decide (signalingState conn = have_local_offer)); [|done].
  destruct (setRemoteDescription sdp conn); [|done].
  split; [done|]. simpl. apply length_insert.
Qed.

Lemma handleReceiveAnswer_registry callerId sdp st :
  registry_same st (handleReceiveAnswer callerId sdp st).
Proof.
  unfold handleReceiveAnswer.
  set (st0 := emit (console_log (log_received_answer callerId)) st).
  destruct (callerId ≫= λ k, Map_get k (peerConnections st0)) as [pc|].
  - destruct (constructed st0 !! pc ≫= setRemoteDescription sdp); [|done].
    split; [done|]. simpl. apply length_insert.
  - apply (answer_fallback_registry _ sdp st0).
Qed.

Lemma fan_out_registry h peers : ∀ st,
  registry_ok st →
  registry_ok (foldl (λ st userId, startCall h userId st) st peers).
Proof.
  induction peers as [|userId peers IH]; intros st Hok; [done|].
  simpl. apply IH. by apply startCall_registry.
Qed.

Lemma sendFile_registry file st : registry_same st (sendFile file st).
Proof.
  unfold sendFile. destruct (first_open (dataChannels st)) as [pos|]; [|done].
  simpl. generalize (file_chunks (file_bytes file)).
  set (st0 := setMessages _ _).
  assert (H0 : registry_same st st0) by done. clearbody st0.
  intros chunks. revert st0 H0.
  induction chunks as [|c chunks IH]; intros st0 H0; [done|].
  simpl. by apply IH.
Qed.

Lemma handle_event_registry ev st :
  registry_ok st → registry_ok (handle_event ev st).
Proof.
  intros Hok.
  destruct ev as [sid|h u|u|us|us|h c d|c d|h t ch|h d|h m|i|f]; simpl.
  - done.
  - unfold handleUserConnected.
    set (st0 := setStatus _ st).
    set (st1 := if decide (u ∈ peersRef st0) then st0 else _).
    assert (H1 : registry_ok st1).
    { unfold st1. by destruct (decide (u ∈ peersRef st0)). }
    destruct (isSharingRef st1); [by apply startCall_registry|done].
  - done.
  - done.
  - done.
  - by apply handleReceiveOffer_registry.
  - eapply registry_same_ok; [apply handleReceiveAnswer_registry|done].
  - done.
  - destruct d as [[| |]| |d]; try done.
    simpl. destruct h as [meta|]; [|done]. by case_decide.
  - unfold startScreenShare. destruct (isSharingRef st); [done|].
    destruct m as [stream|en em]; [|done].
    by apply fan_out_registry.
  - unfold sendMessage.
    destruct (send_to_open (TextJSON (chat i)) (dataChannels st) false)
      as [dcs flag].
    by destruct flag.
  - eapply registry_same_ok; [apply sendFile_registry|done].
Qed.

(** Whatever events the app has handled since it was mounted, no id is
    registered twice and as many connections have been constructed as
    there are registered ids. *)
Lemma registry_ok_always (evs : list AppEvent) :
  registry_ok (run evs initialState) ∧
  length (constructed (run evs initialState))
  = length (peerConnections (run evs initialState)).
Proof.
  assert (Hok : registry_ok (run evs initialState)).
  { induction evs as [|ev evs IH] using rev_ind.
    - split; [apply NoDup_nil_2|done].
    - unfold run in *. rewrite foldl_app. simpl. by apply handle_event_registry. }
  split; [exact Hok|].
  destruct Hok as [_ Hv]. apply (f_equal length) in Hv.
  by rewrite length_fmap, length_seq in Hv.
Qed.

(** C1.  Connection requests for one participant id, however many and
    from whichever renders, all return the connection of the first one;
    the requests after the first construct nothing and leave the
    registry as the first left it.  The first constructs a connection
    only when the id was not registered, and then exactly one.  At any
    time, whatever events have been handled since the app was mounted,
    no id is registered twice and there are as many constructed
    connections as registered ids: one per participant. *)
Theorem C1_one_connection_per_participant :
  ∀ (targetUserId : string) (h : Handler) (hs : list Handler) (st : AppState),
    NoDup (peerConnections st).*1 →
    let first := createPeerConnection h targetUserId st in
    let r := connection_requests
               ((h, targetUserId) :: ((λ h', (h', targetUserId)) <$> hs)) st in
    r.1 = replicate (S (length hs)) first.1 ∧
    Map_get targetUserId (peerConnections r.2) = Some first.1 ∧
    constructed r.2 = constructed first.2 ∧
    peerConnections r.2 = peerConnections first.2 ∧
    constructed r.2 =
      constructed st ++
      (if Map_get targetUserId (peerConnections st) is Some _ then []
       else [new_RTCPeerConnection h]) ∧
    NoDup (peerConnections r.2).*1 ∧
    ∀ evs : list AppEvent,
      NoDup (peerConnections (run evs initialState)).*1 ∧
      length (constructed (run evs initialState))
      = length (peerConnections (run evs initialState)).
Proof.
  intros targetUserId h hs st Hnd first r. subst first r. simpl.
  pose proof (createPeerConnection_keys h targetUserId st Hnd) as Hnd1.
  destruct (createPeerConnection_spec h targetUserId st) as [Hreg Hspec].
  destruct (createPeerConnection h targetUserId st) as [pc1 st1] eqn:Hcall.
  simpl in *.
  destruct (requests_for_registered targetUserId hs st1 pc1 Hreg)
    as (H1 & H2 & H3).
  destruct (connection_requests _ st1) as [pcs st2]. simpl in *.
  rewrite H1, H2, H3. repeat split; try done.
  - destruct (Map_get targetUserId (peerConnections st)).
    + destruct Hspec as (_ & -> & _). by rewrite app_nil_r.
    + by destruct Hspec as (_ & -> & _).
  - apply (registry_ok_always evs).
  - apply (registry_ok_always evs).
Qed.

Lemma C1_witness :
  let r := connection_requests [(None, "P1"); (None, "P1"); (None, "P1")]
             initialState in
  r.1 = [0; 0; 0] ∧ length (constructed r.2) = 1 ∧
  peerConnections r.2 = [("P1", 0)].
Proof.
  intros r.
  destruct (C1_one_connection_per_participant "P1" None [None; None]
              initialState (NoDup_nil_2 : NoDup (peerConnections initialState).*1))
    as (H1 & _ & H3 & H4 & _).
  split; [exact H1|split; [exact (f_equal length H3)|exact H4]].
Defined.

(** The fallback loop stops at the first connection in
    [have-local-offer]; when only one connection is in that state, that
    is the one. *)
Lemma answer_fallback_only_offer (sdp : RTCSessionDescription)
    (st : AppState) (pc : nat) (conn : RTCPeerConnection)
    (entries : list (string * nat)) :
  sdp_type sdp = answer →
  constructed st !! pc = Some conn →
  signalingState conn = have_local_offer →
  pc ∈ entries.*2 →
  (∀ pc' conn', pc' ∈ entries.*2 → constructed st !! pc' = Some conn' →
                signalingState conn' = have_local_offer → pc' = pc) →
  let st' := answer_fallback entries sdp st in
  constructed st' =
    <[pc := with_signaling stable (with_remoteDescription sdp conn)]> (constructed st) ∧
  peerConnections st' = peerConnections st.
Proof.
  intros Hans Hconn Hstate Hin Honly.
  induction entries as [|[userId p] entries IH]; simpl in *.
  - by apply elem_of_nil in Hin.
  - destruct (constructed st !! p) as [c|] eqn:Hp.
    + destruct (decide (signalingState c = have_local_offer)) as [Hc|Hc].
      * assert (p = pc) as ->.
        { eapply Honly; [|exact Hp|exact Hc]. apply elem_of_cons. by left. }
        assert (c = conn) as -> by congruence.
        unfold setRemoteDescription. rewrite Hans, Hstate. by simpl.
      * apply IH.
        -- apply elem_of_cons in Hin as [-> |Hin]; [|done]. congruence.
        -- intros pc' conn' Hin'. apply Honly. apply elem_of_cons. by right.
    + apply IH.
      * apply elem_of_cons in Hin as [-> |Hin]; [|done]. congruence.
      * intros pc' conn' Hin'. apply Honly. apply elem_of_cons. by right.
Qed.

(** C7.  An answer whose sender id resolves to no tracked connection,
    received while one tracked connection, and no other, is in
    [have-local-offer], is applied to that connection: it gets the
    answer as its remote description and goes to [stable].  Every other
    connection, tracked or not, is what it was, and so is the registry. *)
Theorem C7_unresolved_answer_goes_to_the_pending_offer :
  ∀ (callerId : option string) (sdp : RTCSessionDescription) (st : AppState)
    (pc : nat) (conn : RTCPeerConnection),
    sdp_type sdp = answer →
    callerId ≫= (λ k, Map_get k (peerConnections st)) = None →
    pc ∈ (peerConnections st).*2 →
    constructed st !! pc = Some conn →
    signalingState conn = have_local_offer →
    (∀ pc' conn', pc' ∈ (peerConnections st).*2 →
                  constructed st !! pc' = Some conn' →
                  signalingState conn' = have_local_offer → pc' = pc) →
    let st' := handleReceiveAnswer callerId sdp st in
    (∃ conn', constructed st' !! pc = Some conn' ∧
              signalingState conn' = stable ∧
              remoteDescription conn' = Some sdp ∧
              localDescription conn' = localDescription conn ∧
              senders conn' = senders conn) ∧
    (∀ pc', pc' ≠ pc → constructed st' !! pc' = constructed st !! pc') ∧
    length (constructed st') = length (constructed st) ∧
    peerConnections st' = peerConnections st.
Proof.
  intros callerId sdp st pc conn Hans Hunres Hin Hconn Hstate Honly st'.
  subst st'. unfold handleReceiveAnswer.
  set (st0 := emit (console_log (log_received_answer callerId)) st).
  change (peerConnections st0) with (peerConnections st). rewrite Hunres.
  destruct (answer_fallback_only_offer sdp st0 pc conn (peerConnections st)
              Hans Hconn Hstate Hin Honly) as [Hcons Hmap].
  rewrite Hcons, Hmap. simpl.
  split; [|split; [|split]]; try done.
  - eexists. split.
    + apply list_lookup_insert_eq. by eapply lookup_lt_Some.
    + done.
  - intros pc' Hne. by apply list_lookup_insert_ne.
  - apply length_insert.
Qed.

Lemma C7_witness :
  let waiting := with_signaling have_local_offer (new_RTCPeerConnection None) in
  let st := set_peerConnections [("P1", 0); ("P2", 1)]
              (set_constructed [new_RTCPeerConnection None; waiting] initialState) in
  let sdp := {| sdp_type := answer; sdp := "v=0" |} in
  let st' := handleReceiveAnswer None sdp st in
  (signalingState <$> constructed st' !! 1) = Some stable ∧
  constructed st' !! 0 = Some (new_RTCPeerConnection None).
Proof.
  intros waiting st sdp st'.
  assert (Hin : 1 ∈ (peerConnections st).*2).
  { simpl. apply elem_of_cons. right. apply elem_of_cons. by left. }
  assert (Honly : ∀ pc' conn', pc' ∈ (peerConnections st).*2 →
                    constructed st !! pc' = Some conn' →
                    signalingState conn' = have_local_offer → pc' = 1).
  { intros [|[|pc']] conn'; simpl; intros _ Hl Hs; [|done|done].
    by injection Hl as <-. }
  destruct (C7_unresolved_answer_goes_to_the_pending_offer None sdp st 1 waiting
              eq_refl eq_refl Hin eq_refl eq_refl Honly)
    as ((conn' & Hl & Hs & _) & Hother & _).
  unfold st'. split.
  - rewrite Hl. simpl. by rewrite Hs.
  - rewrite (Hother 0); [done|lia].
Defined.

(** ** Session controller *)

Lemma started_calls_emit (e : Effect) (st : AppState) :
  started_calls (emit e st) =
  started_calls st ++
  match e with console_log (log_starting_call t) => [t] | _ => [] end.
Proof.
  unfold started_calls. simpl. rewrite omap_app. f_equal.
  by destruct e as [[]| |].
Qed.

Lemma session_untouched_refl st : session_untouched st st.
Proof. by repeat split. Qed.

Lemma session_untouched_trans st1 st2 st3 :
  session_untouched st1 st2 → session_untouched st2 st3 →
  session_untouched st1 st3.
Proof.
  intros (? & ? & ? & ?) (? & ? & ? & ?). repeat split; congruence.
Qed.

Lemma createPeerConnection_session h targetUserId st :
  session_untouched st (createPeerConnection h targetUserId st).2.
Proof.
  unfold createPeerConnection.
  destruct (Map_get targetUserId (peerConnections st)); simpl;
    repeat split; unfold started_calls; simpl; rewrite omap_app; simpl;
    by rewrite app_nil_r.
Qed.

Lemma addTracks_session tracks pc st :
  session_untouched st (addTracks tracks pc st).2.
Proof.
  revert st. induction tracks as [|track tracks IH]; intros st; simpl.
  - apply session_untouched_refl.
  - set (st1 := emit (console_log (log_adding_track (kind track))) st).
    assert (Hst1 : session_untouched st st1).
    { repeat split. unfold st1. rewrite started_calls_emit. by rewrite app_nil_r. }
    destruct (constructed st !! pc ≫= addTrack track) as [conn|];
      [|exact Hst1].
    eapply session_untouched_trans; [exact Hst1|].
    eapply session_untouched_trans; [|apply IH]. by repeat split.
Qed.

(** With a local stream attached, [startCall] starts one call, to its
    target, and leaves the session controller's refs alone. *)
Lemma startCall_started h targetUserId st :
  is_Some (localStream st) →
  let st' := startCall h targetUserId st in
  started_calls st' = started_calls st ++ [targetUserId] ∧
  localStream st' = localStream st ∧
  isSharingRef st' = isSharingRef st ∧
  peersRef st' = peersRef st.
Proof.
  intros [stream Hstream]. unfold startCall. rewrite Hstream.
  set (st0 := emit (console_log (log_starting_call targetUserId)) st).
  assert (H0 : started_calls st0 = started_calls st ++ [targetUserId])
    by apply started_calls_emit.
  pose proof (createPeerConnection_session h targetUserId st0) as H1.
  destruct (createPeerConnection h targetUserId st0) as [pc st1]. simpl in H1.
  pose proof (addTracks_session stream pc st1) as H2.
  destruct (addTracks stream pc st1) as [ok st2]. simpl in H2.
  pose proof (session_untouched_trans _ _ _ H1 H2) as (Hs & Hl & Hi & Hp).
  change (localStream st0) with (localStream st) in Hl.
  change (isSharingRef st0) with (isSharingRef st) in Hi.
  change (peersRef st0) with (peersRef st) in Hp.
  rewrite H0 in Hs. rewrite Hstream in Hl.
  pose proof (conj Hs (conj Hl (conj Hi Hp))) as Hst2.
  destruct ok; [|exact Hst2].
  destruct (constructed st2 !! pc) as [conn|]; [|exact Hst2].
  destruct (decide (signalingState conn = signaling_closed)); [exact Hst2|].
  destruct (createOffer conn ≫= λ o, setLocalDescription o conn); simpl.
  - rewrite !started_calls_emit. simpl. rewrite !app_nil_r. exact Hst2.
  - exact Hst2.
Qed.

(** Without one it starts none. *)
Lemma startCall_no_stream h targetUserId st :
  localStream st = None →
  session_untouched st (startCall h targetUserId st).
Proof.
  intros Hnone. unfold startCall. rewrite Hnone.
  repeat split. rewrite started_calls_emit. by rewrite app_nil_r.
Qed.

(** The fan-out of [startScreenShare]: one call per entry, in order. *)
Lemma fan_out_started h peers : ∀ st,
  is_Some (localStream st) →
  let st' := foldl (λ st userId, startCall h userId st) st peers in
  started_calls st' = started_calls st ++ peers ∧
  localStream st' = localStream st ∧
  isSharingRef st' = isSharingRef st ∧
  peersRef st' = peersRef st.
Proof.
  induction peers as [|userId peers IH]; intros st Hstream; simpl.
  - by rewrite app_nil_r.
  - destruct (startCall_started h userId st Hstream) as (H1 & H2 & H3 & H4).
    destruct (IH (startCall h userId st)) as (H5 & H6 & H7 & H8).
    { by rewrite H2. }
    rewrite H5, H6, H7, H8, H1, H2, H3, H4. by rewrite <- app_assoc.
Qed.

(** While sharing, [handleUserConnected] starts a call whether or not
    the id is already known. *)
Lemma handleUserConnected_sharing h userId st :
  isSharingRef st = true → is_Some (localStream st) →
  let st' := handleUserConnected h userId st in
  started_calls st' = started_calls st ++ [userId] ∧
  localStream st' = localStream st ∧
  isSharingRef st' = true ∧
  peersRef st' = (if decide (userId ∈ peersRef st) then peersRef st
                  else peersRef st ++ [userId]).
Proof.
  intros Hsharing Hstream. unfold handleUserConnected.
  set (st0 := setStatus ("User connected: " +:+ userId) st).
  set (st1 := if decide (userId ∈ peersRef st0) then st0
              else set_peersRef (peersRef st0 ++ [userId]) st0).
  assert (H1 : started_calls st1 = started_calls st ∧
               localStream st1 = localStream st ∧
               isSharingRef st1 = true ∧
               peersRef st1 = (if decide (userId ∈ peersRef st) then peersRef st
                               else peersRef st ++ [userId])).
  { unfold st1. change (peersRef st0) with (peersRef st).
    destruct (decide (userId ∈ peersRef st)); by repeat split. }
  destruct H1 as (Hs & Hl & Hi & Hp). rewrite Hi.
  destruct (startCall_started h userId st1) as (H1 & H2 & H3 & H4).
  { by rewrite Hl. }
  rewrite H1, H2, H3, H4, Hs, Hl. by repeat split.
Qed.

(** *** Sharing implies a stream *)

Lemma session_untouched_stream st st' :
  session_untouched st st' → stream_same st st'.
Proof. by intros (_ & ? & ? & _). Qed.

Lemma startCall_stream h targetUserId st :
  stream_same st (startCall h targetUserId st).
Proof.
  destruct (localStream st) as [stream|] eqn:Hstream.
  - destruct (startCall_started h targetUserId st) as (_ & H2 & H3 & _);
      [by eexists|]. by split.
  - apply session_untouched_stream. by apply startCall_no_stream.
Qed.

Lemma fan_out_stream h peers : ∀ st,
  stream_same st (foldl (λ st userId, startCall h userId st) st peers).
Proof.
  induction peers as [|userId peers IH]; intros st; [done|].
  simpl. destruct (IH (startCall h userId st)) as [H1 H2].
  destruct (startCall_stream h userId st) as [H3 H4].
  split; congruence.
Qed.

Lemma handleReceiveOffer_stream h callerId sdp st :
  stream_same st (handleReceiveOffer h callerId sdp st).
Proof.
  unfold handleReceiveOffer.
  set (st0 := emit (console_log (log_received_offer callerId)) st).
  pose proof (session_untouched_stream _ _
                (createPeerConnection_session h callerId st0)) as H1.
  destruct (createPeerConnection h callerId st0) as [pc st1]. simpl in H1.
  destruct (constructed st1 !! pc ≫= setRemoteDescription sdp) as [conn|];
    [|exact H1].
  destruct (createAnswer conn ≫= λ a, setLocalDescription a conn); exact H1.
Qed.

Lemma answer_fallback_stream entries sdp st :
  stream_same st (answer_fallback entries sdp st).
Proof.
  induction entries as [|[userId pc] entries IH]; simpl; [done|].
  destruct (constructed st !! pc) as [conn|]; [|done].
  destruct (decide (signalingState conn = have_local_offer)); [|done].
  by destruct (setRemoteDescription sdp conn).
Qed.

Lemma handleReceiveAnswer_stream callerId sdp st :
  stream_same st (handleReceiveAnswer callerId sdp st).
Proof.
  unfold handleReceiveAnswer.
  set (st0 := emit (console_log (log_received_answer callerId)) st).
  destruct (callerId ≫= λ k, Map_get k (peerConnections st0)) as [pc|].
  - by destruct (constructed st0 !! pc ≫= setRemoteDescription sdp).
  - apply (answer_fallback_stream _ sdp st0).
Qed.

Lemma sendFile_stream file st : stream_same st (sendFile file st).
Proof.
  unfold sendFile. destruct (first_open (dataChannels st)) as [pos|]; [|done].
  simpl. generalize (file_chunks (file_bytes file)).
  set (st0 := setMessages _ _).
  assert (H0 : stream_same st st0) by done. clearbody st0.
  intros chunks. revert st0 H0.
  induction chunks as [|c chunks IH]; intros st0 H0; [done|].
  simpl. by apply IH.
Qed.

Lemma handle_event_sharing ev st :
  (isSharingRef st = true → is_Some (localStream st)) →
  isSharingRef (handle_event ev st) = true →
  is_Some (localStream (handle_event ev st)).
Proof.
  intros Hinv.
  assert (Hsame : ∀ st', stream_same st st' →
            isSharingRef st' = true → is_Some (localStream st')).
  { intros st' [-> ->]. exact Hinv. }
  destruct ev as [sid|h u|u|us|us|h c d|c d|h t ch|h d|h m|i|f]; simpl.
  - exact Hinv.
  - apply Hsame. unfold handleUserConnected.
    set (st0 := setStatus _ st).
    set (st1 := if decide (u ∈ peersRef st0) then st0 else _).
    assert (H1 : stream_same st st1).
    { unfold st1. by destruct (decide (u ∈ peersRef st0)). }
    destruct (isSharingRef st1); [|exact H1].
    destruct (startCall_stream h u st1) as [H2 H3].
    destruct H1 as [H4 H5]. split; congruence.
  - exact Hinv.
  - exact Hinv.
  - exact Hinv.
  - apply Hsame, handleReceiveOffer_stream.
  - apply Hsame, handleReceiveAnswer_stream.
  - exact Hinv.
  - apply Hsame. destruct d as [[| |]| |d]; try done.
    simpl. destruct h as [meta|]; [|done]. by case_decide.
  - unfold startScreenShare.
    destruct (isSharingRef st) eqn:Hsharing; [by intros _; apply Hinv|].
    destruct m as [stream|en em]; [|simpl; congruence].
    intros _.
    match goal with
    | |- is_Some (localStream (foldl _ ?s ?l)) =>
        destruct (fan_out_stream h l s) as [-> _]
    end.
    by eexists.
  - apply Hsame. unfold sendMessage.
    destruct (send_to_open (TextJSON (chat i)) (dataChannels st) false)
      as [dcs flag].
    by destruct flag.
  - apply Hsame, sendFile_stream.
Qed.

(** Whatever events have been handled, the app is sharing only with its
    local stream attached. *)
Lemma sharing_has_stream (evs : list AppEvent) :
  isSharingRef (run evs initialState) = true →
  is_Some (localStream (run evs initialState)).
Proof.
  induction evs as [|ev evs IH] using rev_ind; [done|].
  unfold run in *. rewrite foldl_app. simpl.
  by apply handle_event_sharing.
Qed.

(** The claim C3 fails: while sharing, a second [user-connected] for the
    same id starts a second call to it. *)
Lemma C3_duplicate_user_connected_calls_again :
  let sharing :=
    startScreenShare None (acquired [{| track_id := 0; kind := "video" |}])
      initialState in
  let once := handleUserConnected None "P1" sharing in
  let twice := handleUserConnected None "P1" once in
  isSharingRef sharing = true ∧
  calls_started "P1" once = 1 ∧
  calls_started "P1" twice = 2 ∧
  calls_started "P1" twice ≠ 1 ∧
  peersRef twice = ["P1"].
Proof. by repeat split. Qed.

(** C3, as the code has it.  While the local side is sharing, with its
    stream attached, every [user-connected] event for a peer id starts
    one call to that id, a repeated event as well: after the event and
    its duplicate two calls to the id have been started.  What a
    duplicate does skip is adding the id to the known peers again. *)
Theorem C3_every_user_connected_starts_a_call :
  ∀ (h h' : Handler) (userId : string) (st : AppState),
    isSharingRef st = true → is_Some (localStream st) →
    let once := handleUserConnected h userId st in
    let twice := handleUserConnected h' userId once in
    started_calls once = started_calls st ++ [userId] ∧
    started_calls twice = started_calls st ++ [userId; userId] ∧
    calls_started userId once = S (calls_started userId st) ∧
    calls_started userId twice = S (S (calls_started userId st)) ∧
    userId ∈ peersRef once ∧
    peersRef twice = peersRef once.
Proof.
  intros h h' userId st Hsharing Hstream once twice.
  destruct (handleUserConnected_sharing h userId st Hsharing Hstream)
    as (H1 & H2 & H3 & H4).
  fold once in H1, H2, H3, H4.
  assert (Hin : userId ∈ peersRef once).
  { rewrite H4. case_decide; [done|]. apply elem_of_app. right.
    by apply list_elem_of_singleton. }
  destruct (handleUserConnected_sharing h' userId once H3) as (H5 & H6 & H7 & H8).
  { by rewrite H2. }
  fold twice in H5, H6, H7, H8.
  rewrite decide_True in H8 by done.
  assert (Htwice : started_calls twice = started_calls st ++ [userId; userId]).
  { rewrite H5, H1. by rewrite <- app_assoc. }
  unfold calls_started. rewrite Htwice, H1, !filter_app, !length_app.
  rewrite !filter_cons_True, filter_nil by done. simpl.
  repeat split; try done; lia.
Qed.

Lemma C3_witness :
  let sharing :=
    startScreenShare None (acquired [{| track_id := 0; kind := "video" |}])
      initialState in
  started_calls
    (handleUserConnected None "P1" (handleUserConnected None "P1" sharing))
  = ["P1"; "P1"].
Proof.
  intros sharing.
  exact (proj1 (proj2 (C3_every_user_connected_starts_a_call
           None None "P1" sharing eq_refl (ex_intro _ _ eq_refl)))).
Defined.



(** ** Sending *)

Lemma send_to_open_entries data entries flag :
  (send_to_open data entries flag).1
  = (λ e, if decide (is_open e) then (e.1, dc_send data e.2) else e) <$> entries.
Proof.
  revert flag. induction entries as [|[k dc] entries IH]; intros flag; [done|].
  simpl. unfold is_open at 1. simpl.
  destruct (decide (readyState dc = open)).
  - specialize (IH true). destruct (send_to_open data entries true).
    simpl in *. by rewrite IH.
  - specialize (IH flag). destruct (send_to_open data entries flag).
    simpl in *. by rewrite IH.
Qed.

Lemma send_to_open_flag data entries flag :
  (send_to_open data entries flag).2 = true ↔
  flag = true ∨ Exists is_open entries.
Proof.
  revert flag. induction entries as [|[k dc] entries IH]; intros flag; simpl.
  - rewrite Exists_nil. tauto.
  - rewrite Exists_cons. unfold is_open at 1. simpl.
    destruct (decide (readyState dc = open)).
    + specialize (IH true). destruct (send_to_open data entries true).
      simpl in *. rewrite IH. tauto.
    + specialize (IH flag). destruct (send_to_open data entries flag).
      simpl in *. rewrite IH. tauto.
Qed.

Lemma none_open_fmap data (entries : list (string * RTCDataChannel)) :
  Forall (λ e, ¬ is_open e) entries →
  (λ e, if decide (is_open e) then (e.1, dc_send data e.2) else e) <$> entries
  = entries.
Proof.
  induction 1 as [|e entries He _ IH]; [done|].
  rewrite fmap_cons, IH. by rewrite decide_False.
Qed.

Lemma set_dataChannels_same st : set_dataChannels (dataChannels st) st = st.
Proof. by destruct st. Qed.

(** C6.  With no data channel open, [sendMessage] changes nothing at
    all: nothing is sent, the message log is as it was and the input is
    not cleared.  With a channel open, the log gets the line and the
    input is emptied, so the two outcomes can be told apart by the state
    they leave; and whenever the log has changed, some open channel was
    handed the message. *)
Theorem C6_chat_with_no_open_channel_is_not_logged :
  ∀ (input : string) (st : AppState),
    let st' := sendMessage input st in
    (Forall (λ e, ¬ is_open e) (dataChannels st) → st' = st) ∧
    (Exists is_open (dataChannels st) →
       messages st' = messages st ++ ["Me: " +:+ input] ∧
       messageInput st' = "" ∧ st' ≠ st) ∧
    (messages st' ≠ messages st →
       ∃ i k dc, dataChannels st !! i = Some (k, dc) ∧ readyState dc = open ∧
                 dataChannels st' !! i
                 = Some (k, dc_send (TextJSON (chat input)) dc)).
Proof.
  intros input st st'. subst st'. unfold sendMessage.
  pose proof (send_to_open_entries (TextJSON (chat input)) (dataChannels st) false)
    as Hentries.
  pose proof (send_to_open_flag (TextJSON (chat input)) (dataChannels st) false)
    as Hflag.
  destruct (send_to_open (TextJSON (chat input)) (dataChannels st) false)
    as [dcs flag].
  simpl in Hentries, Hflag. subst dcs.
  split; [|split].
  - intros Hnone.
    destruct flag.
    + exfalso. destruct (proj1 Hflag eq_refl) as [?|Hex]; [done|].
      apply Exists_exists in Hex as (e & Hin & He).
      by eapply (proj1 (Forall_forall _ _) Hnone e).
    + rewrite none_open_fmap by done. apply set_dataChannels_same.
  - intros Hex.
    assert (flag = true) as -> by (apply Hflag; by right).
    simpl. repeat split.
    intros Heq. apply (f_equal messages) in Heq. simpl in Heq.
    apply (f_equal length) in Heq. rewrite length_app in Heq. simpl in Heq. lia.
  - intros Hchanged.
    destruct flag; [|done].
    destruct (proj1 Hflag eq_refl) as [?|Hex]; [done|].
    apply Exists_exists in Hex as (e & Hin & He).
    apply list_elem_of_lookup in Hin as [i Hi].
    exists i, e.1, e.2. destruct e as [k dc]. simpl in *.
    split; [done|]. split; [exact He|].
    rewrite list_lookup_fmap, Hi. simpl. by rewrite decide_True.
Qed.

Lemma C6_witness :
  let waiting := {| label := "chat"; readyState := connecting;
                    onmessage := Some None; sent := [] |} in
  let st := set_dataChannels [("P1", waiting)] initialState in
  sendMessage "hello" st = st.
Proof.
  intros waiting st.
  apply (proj1 (C6_chat_with_no_open_channel_is_not_logged "hello" st)).
  apply Forall_cons. split; [|apply Forall_nil_2].
  unfold is_open. simpl. discriminate.
Defined.

Lemma first_open_Some entries pos :
  first_open entries = Some pos →
  ∃ k dc, entries !! pos = Some (k, dc) ∧ readyState dc = open ∧
          ∀ j e, j < pos → entries !! j = Some e → ¬ is_open e.
Proof.
  revert pos. induction entries as [|[k dc] entries IH]; intros pos; [done|].
  simpl. destruct (decide (readyState dc = open)) as [Hopen|Hnot].
  - intros [= <-]. exists k, dc. repeat split; [done|]. intros j e Hj. lia.
  - destruct (first_open entries) as [pos'|]; [|done].
    intros [= <-]. destruct (IH pos' eq_refl) as (k' & dc' & Hl & Ho & Hbefore).
    exists k', dc'. repeat split; [done..|].
    intros [|j] e Hj; simpl.
    + by intros [= <-].
    + apply Hbefore. lia.
Qed.

Lemma first_open_None entries :
  first_open entries = None ↔ Forall (λ e, ¬ is_open e) entries.
Proof.
  induction entries as [|[k dc] entries IH]; simpl.
  - split; [intros _; apply Forall_nil_2|done].
  - rewrite Forall_cons. unfold is_open at 1. simpl.
    destruct (decide (readyState dc = open)) as [Hopen|Hnot].
    + split; [done|]. by intros [? _].
    + rewrite <- IH. destruct (first_open entries); simpl.
      * split; [done|]. by intros [_ ?].
      * by split.
Qed.

(** Frames handed one after the other to the channel at [pos]. *)
Lemma send_on_all pos (frames : list MessageData) :
  ∀ entries : list (string * RTCDataChannel),
    let entries' := foldl (λ es f, send_on pos f es) entries frames in
    entries' !! pos
      = (λ e, (e.1, after_sending frames e.2)) <$> entries !! pos ∧
    (∀ j, j ≠ pos → entries' !! j = entries !! j) ∧
    length entries' = length entries.
Proof.
  induction frames as [|f frames IH]; intros entries; simpl.
  - split; [|done]. destruct (entries !! pos) as [[k [l r o s]]|]; [|done].
    simpl. unfold after_sending. simpl. by rewrite app_nil_r.
  - destruct (IH (send_on pos f entries)) as (H1 & H2 & H3).
    unfold send_on in *. split; [|split].
    + rewrite H1, list_lookup_alter_eq.
      destruct (entries !! pos) as [[k dc]|]; [|done].
      simpl. unfold after_sending, dc_send. simpl. by rewrite <- app_assoc.
    + intros j Hj. rewrite (H2 j Hj). by apply list_lookup_alter_ne.
    + by rewrite H3, length_alter.
Qed.

Section Chunking.
Variable chunk_size : nat.
Hypothesis chunk_size_pos : 0 < chunk_size.

(** With fuel for every remaining byte the loop stops by its own
    test, having sent what was left from [i] on. *)
Lemma chunk_loop_concat (buffer : ArrayBuffer) : ∀ fuel i : nat,
  (length buffer ≤ i + fuel)%nat →
  concat (chunk_loop chunk_size fuel i buffer) = drop i buffer.
Proof.
  induction fuel as [|fuel IH]; intros i Hfuel; simpl.
  - rewrite drop_ge; [done|lia].
  - unfold byteLength. case_decide as Hlt; simpl.
    + rewrite IH by lia. unfold slice.
      replace (i + chunk_size - i) with chunk_size by lia.
      rewrite <- drop_drop. apply take_drop.
    + rewrite drop_ge; [done|lia].
Qed.

(** The chunk of index [k] is the slice that starts [k] chunk sizes
    after [i], and it starts inside the buffer. *)
Lemma chunk_loop_lookup (buffer : ArrayBuffer) : ∀ (fuel i k : nat) c,
  chunk_loop chunk_size fuel i buffer !! k = Some c →
  c = slice (i + k * chunk_size) (i + k * chunk_size + chunk_size) buffer ∧
  (i + k * chunk_size < length buffer)%nat.
Proof.
  induction fuel as [|fuel IH]; intros i k c; simpl; [done|].
  unfold byteLength. case_decide as Hlt; [|done].
  destruct k as [|k]; simpl.
  - intros [= <-]. rewrite Nat.add_0_r. by split.
  - intros Hk. apply IH in Hk as [-> Hin].
    replace (i + chunk_size + k * chunk_size)
      with (i + (chunk_size + k * chunk_size)) in * by lia.
    by split.
Qed.

(** More fuel than that changes nothing. *)
Lemma chunk_loop_fuel (buffer : ArrayBuffer) : ∀ (fuel fuel' i : nat),
  (length buffer ≤ i + fuel)%nat → (fuel ≤ fuel')%nat →
  chunk_loop chunk_size fuel' i buffer = chunk_loop chunk_size fuel i buffer.
Proof.
  induction fuel as [|fuel IH]; intros fuel' i Hfuel Hle.
  - destruct fuel' as [|fuel']; [done|]. simpl.
    unfold byteLength. case_decide; [lia|done].
  - destruct fuel' as [|fuel']; [lia|]. simpl.
    unfold byteLength. case_decide; [|done].
    f_equal. apply IH; lia.
Qed.

Lemma slice_length (buffer : ArrayBuffer) (i : nat) :
  length (slice i (i + chunk_size) buffer)
  = chunk_size `min` (length buffer - i).
Proof.
  unfold slice. rewrite length_take, length_drop. lia.
Qed.
End Chunking.

Lemma CHUNK_SIZE_value : N.of_nat CHUNK_SIZE = 16384%N.
Proof. by vm_compute. Qed.

Lemma CHUNK_SIZE_pos : 0 < CHUNK_SIZE.
Proof. unfold CHUNK_SIZE. lia. Qed.

Lemma sendFile_channels (file : File) (st : AppState) (pos : nat) :
  first_open (dataChannels st) = Some pos →
  let frames := TextJSON (file_meta (file_name file) (file_size file))
                :: (Binary <$> file_chunks (file_bytes file)) in
  dataChannels (sendFile file st)
    = foldl (λ es f, send_on pos f es) (dataChannels st) frames ∧
  effects (sendFile file st) = effects st ∧
  messages (sendFile file st)
    = messages st ++ ["Me: Sending file " +:+ file_name file +:+ "...";
                      "Me: File sent."].
Proof.
  intros Hpos. unfold sendFile. rewrite Hpos. simpl.
  generalize (file_chunks (file_bytes file)).
  set (st0 := setMessages _ _).
  change (send_on pos (TextJSON (file_meta (file_name file) (file_size file)))
            (dataChannels st)) with (dataChannels st0).
  assert (Hst0 : effects st0 = effects st ∧
                 messages st0 = messages st ++
                   ["Me: Sending file " +:+ file_name file +:+ "..."]) by done.
  destruct Hst0 as [He Hm]. rewrite <- He. clearbody st0.
  intros chunks.
  assert (Hm' : messages st0 ++ ["Me: File sent."]
               = messages st ++ ["Me: Sending file " +:+ file_name file +:+ "...";
                                 "Me: File sent."]).
  { rewrite Hm. by rewrite <- app_assoc. }
  rewrite <- Hm'. clear Hm Hm' He.
  revert st0. induction chunks as [|c chunks IH]; intros st0; [done|].
  simpl. destruct (IH (set_dataChannels
                         (send_on pos (Binary c) (dataChannels st0)) st0))
    as (H1 & H2 & H3).
  done.
Qed.

(** C9.  With a channel open, [sendFile] hands the metadata frame and
    then the chunks, in order, to the first open channel of the map and
    to that one only: every other channel is as it was, and no notice is
    raised.  The chunks are the consecutive 16 KiB slices of the file;
    together they are the file, each but the last is 16 KiB long and
    none is empty.  With no channel open, the one thing [sendFile] does
    is raise the notice [Connection not ready.]: no channel gets a
    frame, nothing is logged, nothing is kept for later. *)
Theorem C9_file_goes_to_the_first_open_channel_only :
  ∀ (file : File) (st : AppState),
    let st' := sendFile file st in
    let chunks := file_chunks (file_bytes file) in
    (Exists is_open (dataChannels st) →
       ∃ pos k dc,
         dataChannels st !! pos = Some (k, dc) ∧ readyState dc = open ∧
         (∀ j e, j < pos → dataChannels st !! j = Some e → ¬ is_open e) ∧
         dataChannels st' !! pos
           = Some (k, after_sending
                        (TextJSON (file_meta (file_name file) (file_size file))
                         :: (Binary <$> chunks)) dc) ∧
         (∀ j, j ≠ pos → dataChannels st' !! j = dataChannels st !! j) ∧
         length (dataChannels st') = length (dataChannels st) ∧
         effects st' = effects st) ∧
    (Forall (λ e, ¬ is_open e) (dataChannels st) →
       st' = emit (alert "Connection not ready.") st) ∧
    concat chunks = file_bytes file ∧
    (∀ i c, chunks !! i = Some c →
       c = slice (i * CHUNK_SIZE) (i * CHUNK_SIZE + CHUNK_SIZE) (file_bytes file) ∧
       0 < length c ≤ CHUNK_SIZE ∧
       (S i < length chunks → length c = CHUNK_SIZE)) ∧
    N.of_nat CHUNK_SIZE = 16384%N.
Proof.
  intros file st st' chunks. split; [|split; [|split; [|split]]].
  - intros Hex.
    destruct (first_open (dataChannels st)) as [pos|] eqn:Hpos.
    + destruct (first_open_Some _ _ Hpos) as (k & dc & Hl & Ho & Hbefore).
      destruct (sendFile_channels file st pos Hpos) as (Hdcs & Heff & _).
      fold st' in Hdcs, Heff.
      match type of Hdcs with
      | _ = foldl _ _ ?frames =>
          destruct (send_on_all pos frames (dataChannels st)) as (H1 & H2 & H3)
      end.
      exists pos, k, dc. rewrite Hdcs.
      repeat split; try done.
      by rewrite H1, Hl.
    + exfalso. apply first_open_None in Hpos.
      apply Exists_exists in Hex as (e & Hin & He).
      by apply (proj1 (Forall_forall _ _) Hpos e).
  - intros Hnone. apply first_open_None in Hnone.
    unfold st', sendFile. by rewrite Hnone.
  - unfold chunks, file_chunks.
    rewrite (chunk_loop_concat CHUNK_SIZE CHUNK_SIZE_pos); [done|].
    unfold byteLength. lia.
  - intros i c Hc. unfold chunks, file_chunks in *.
    pose proof Hc as Hc'.
    apply (chunk_loop_lookup CHUNK_SIZE CHUNK_SIZE_pos) in Hc' as [Hceq Hin].
    rewrite !Nat.add_0_l in Hceq, Hin. subst c.
    split; [done|].
    rewrite (slice_length CHUNK_SIZE CHUNK_SIZE_pos).
    pose proof CHUNK_SIZE_pos. split; [lia|].
    intros Hnext.
    destruct (lookup_lt_is_Some_2 _ _ Hnext) as [c' Hc'].
    apply (chunk_loop_lookup CHUNK_SIZE CHUNK_SIZE_pos) in Hc' as [_ Hin'].
    rewrite Nat.add_0_l, Nat.mul_succ_l in Hin'. lia.
  - apply CHUNK_SIZE_value.
Qed.

Lemma C9_witness :
  let ch (s : ReadyState) := {| label := "chat"; readyState := s;
                                onmessage := Some None; sent := [] |} in
  let st := set_dataChannels
              [("P1", ch closed); ("P2", ch open); ("P3", ch open)] initialState in
  let file := {| file_name := "a.bin";
                 file_bytes := [Byte.x01; Byte.x02; Byte.x03] |} in
  Exists is_open (dataChannels st) ∧
  (∃ pos k dc,
     dataChannels st !! pos = Some (k, dc) ∧ readyState dc = open ∧
     dataChannels (sendFile file st) !! pos
       = Some (k, after_sending
                    (TextJSON (file_meta "a.bin" 3)
                     :: (Binary <$> file_chunks (file_bytes file))) dc) ∧
     ∀ j, j ≠ pos → dataChannels (sendFile file st) !! j = dataChannels st !! j) ∧
  sendFile file initialState = emit (alert "Connection not ready.") initialState.
Proof.
  intros ch st file.
  assert (Hex : Exists is_open (dataChannels st)).
  { apply Exists_cons. right. apply Exists_cons. by left. }
  split; [exact Hex|]. split.
  - destruct (proj1 (C9_file_goes_to_the_first_open_channel_only file st) Hex)
      as (pos & k & dc & H1 & H2 & _ & H4 & H5 & _).
    exists pos, k, dc. split; [exact H1|]. split; [exact H2|].
    split; [exact H4|exact H5].
  - apply (proj1 (proj2 (C9_file_goes_to_the_first_open_channel_only
                           file initialState))).
    apply Forall_nil_2.
Defined.

Example sendFile_small_file :
  let ch (s : ReadyState) := {| label := "chat"; readyState := s;
                                onmessage := Some None; sent := [] |} in
  let st := set_dataChannels
              [("P1", ch closed); ("P2", ch open); ("P3", ch open)] initialState in
  let file := {| file_name := "a.bin";
                 file_bytes := [Byte.x01; Byte.x02; Byte.x03] |} in
  (sent <$> (snd <$> dataChannels (sendFile file st)))
  = [ []; [TextJSON (file_meta "a.bin" 3);
           Binary [Byte.x01; Byte.x02; Byte.x03]]; [] ].
Proof. by vm_compute. Qed.

(** * Further properties *)

(** ** Receiving *)

Lemma sequences_seen_cons held c arriving :
  sequences_seen held (c :: arriving)
  = (held ++ [c]) :: sequences_seen (held ++ [c]) arriving.
Proof.
  unfold sequences_seen. simpl. f_equal.
  rewrite <- fmap_S_seq, <- list_fmap_compose.
  apply list_fmap_ext. intros _ k _. simpl. by rewrite <- app_assoc.
Qed.

(** X1.  Binary frames handled by a closure that holds metadata are all
    kept, in arrival order, and a completion fires at each frame at
    which the bytes held reach the declared size: at the frame that
    first crosses it (bytes over the size included) and at every frame
    after that one.  The blobs created are the concatenations of the
    chunk sequences that reach the size, in order. *)
Theorem X1_completion_at_every_frame_past_the_size :
  ∀ (meta : FileMeta) (arriving : list ArrayBuffer) (st : AppState),
    let st' := receiveAll (Some meta) (Binary <$> arriving) st in
    receivedFileChunksRef st' = receivedFileChunksRef st ++ arriving ∧
    objectURLs st'
      = objectURLs st ++
        (new_Blob <$> filter (reaches meta)
                        (sequences_seen (receivedFileChunksRef st) arriving)) ∧
    receivedFileMeta st' = receivedFileMeta st.
Proof.
  intros meta arriving. induction arriving as [|c arriving IH]; intros st.
  - simpl. by rewrite !app_nil_r.
  - rewrite sequences_seen_cons.
    change (receiveAll (Some meta) (Binary <$> c :: arriving) st)
      with (receiveAll (Some meta) (Binary <$> arriving)
              (handleDataChannelMessage (Some meta) (Binary c) st)).
    set (st1 := handleDataChannelMessage (Some meta) (Binary c) st).
    assert (H1 : receivedFileChunksRef st1 = receivedFileChunksRef st ++ [c] ∧
                 objectURLs st1
                 = objectURLs st ++
                   (if decide (reaches meta (receivedFileChunksRef st ++ [c]))
                    then [new_Blob (receivedFileChunksRef st ++ [c])] else []) ∧
                 receivedFileMeta st1 = receivedFileMeta st).
    { unfold st1. simpl.
      destruct (decide (reaches meta (receivedFileChunksRef st ++ [c])))
        as [Hr|Hr]; unfold reaches in Hr; case_decide; simpl; try done.
      by rewrite app_nil_r. }
    destruct H1 as (Hc & Hu & Hm).
    destruct (IH st1) as (IH1 & IH2 & IH3).
    cbv zeta. rewrite IH1, IH2, IH3, Hc, Hu, Hm.
    split; [by rewrite <- app_assoc|]. split; [|done].
    rewrite <- app_assoc. f_equal.
    destruct (decide (reaches meta (receivedFileChunksRef st ++ [c]))).
    + by rewrite filter_cons_True.
    + by rewrite filter_cons_False.
Qed.

Lemma same_transfer_step h data st st' :
  same_transfer st st' →
  same_transfer (handleDataChannelMessage h data st)
                (handleDataChannelMessage h data st').
Proof.
  intros (Hm & Hc & Hd & Hu).
  destruct data as [[content|n sz|]|text|chunk]; simpl; try done.
  destruct h as [meta|]; [|done].
  rewrite Hc. case_decide; simpl; [|done]. by rewrite Hu.
Qed.

Lemma text_frame_step h data st :
  is_transfer_frame data = false →
  same_transfer st (handleDataChannelMessage h data st) ∧
  messages (handleDataChannelMessage h data st)
  = messages st ++ option_list (logged_line data).
Proof.
  destruct data as [[content|n sz|]|text|chunk]; simpl; try done.
  intros _. by rewrite app_nil_r.
Qed.

Lemma receiveAll_same_transfer h evs : ∀ st st',
  same_transfer st st' →
  same_transfer (receiveAll h evs st)
                (receiveAll h (filter (λ ev, is_transfer_frame ev = true) evs) st').
Proof.
  induction evs as [|ev evs IH]; intros st st' Hsame; [done|].
  simpl. destruct (is_transfer_frame ev) eqn:Hev.
  - rewrite filter_cons_True by done. simpl.
    apply IH. by apply same_transfer_step.
  - rewrite filter_cons_False by (rewrite Hev; done).
    apply IH.
    destruct (text_frame_step h ev st Hev) as [(H1 & H2 & H3 & H4) _].
    destruct Hsame as (H5 & H6 & H7 & H8).
    repeat split; congruence.
Qed.

(** X2.  Chat and other text frames that arrive in between the frames of
    a file transfer do not disturb it: the metadata, the chunks, the
    blobs and the download link end up as if only the [file-meta] and
    binary frames had arrived. *)
Theorem X2_text_frames_leave_the_transfer_alone :
  ∀ (h : Handler) (evs : list MessageData) (st : AppState),
    let st' := receiveAll h evs st in
    let st'' := receiveAll h (filter (λ ev, is_transfer_frame ev = true) evs) st in
    receivedFileMeta st' = receivedFileMeta st'' ∧
    receivedFileChunksRef st' = receivedFileChunksRef st'' ∧
    downloadLink st' = downloadLink st'' ∧
    objectURLs st' = objectURLs st''.
Proof.
  intros h evs st.
  destruct (receiveAll_same_transfer h evs st st) as (H1 & H2 & H3 & H4);
    [done|].
  by repeat split.
Qed.

(** ** Sending and receiving together *)

Lemma sendMessage_channels (input : string) (st : AppState) :
  dataChannels (sendMessage input st)
  = (λ e, if decide (is_open e)
          then (e.1, after_sending [TextJSON (chat input)] e.2) else e)
    <$> dataChannels st.
Proof.
  unfold sendMessage.
  pose proof (send_to_open_entries (TextJSON (chat input)) (dataChannels st) false)
    as Hentries.
  destruct (send_to_open (TextJSON (chat input)) (dataChannels st) false)
    as [dcs flag].
  simpl in Hentries. subst dcs. by destruct flag.
Qed.

Lemma sendMessage_logged (input : string) (st : AppState) :
  Exists is_open (dataChannels st) →
  messages (sendMessage input st) = messages st ++ ["Me: " +:+ input].
Proof.
  intros Hex. unfold sendMessage.
  pose proof (send_to_open_flag (TextJSON (chat input)) (dataChannels st) false)
    as Hflag.
  destruct (send_to_open (TextJSON (chat input)) (dataChannels st) false)
    as [dcs flag].
  simpl in Hflag. assert (flag = true) as -> by (apply Hflag; by right). done.
Qed.

(** X3.  [sendMessage] is a broadcast: each channel of the map that is
    open is handed the one chat frame, after what it had been handed
    before, and each channel that is not open is left as it was; the
    map keeps its keys and their order.  Connections, peers, transfer
    state and the trace of outside calls are not touched. *)
Theorem X3_chat_is_handed_to_every_open_channel :
  ∀ (input : string) (st : AppState),
    let st' := sendMessage input st in
    dataChannels st'
      = (λ e, if decide (is_open e)
              then (e.1, after_sending [TextJSON (chat input)] e.2) else e)
        <$> dataChannels st ∧
    (dataChannels st').*1 = (dataChannels st).*1 ∧
    constructed st' = constructed st ∧
    peerConnections st' = peerConnections st ∧
    peersRef st' = peersRef st ∧
    objectURLs st' = objectURLs st ∧
    receivedFileChunksRef st' = receivedFileChunksRef st ∧
    effects st' = effects st.
Proof.
  intros input st st'. subst st'.
  split; [apply sendMessage_channels|].
  split.
  { rewrite sendMessage_channels, <- list_fmap_compose.
    apply list_fmap_ext. intros _ e _. simpl. by case_decide. }
  unfold sendMessage.
  destruct (send_to_open (TextJSON (chat input)) (dataChannels st) false)
    as [dcs flag].
  by destruct flag.
Qed.

(** X4.  What [sendMessage] hands to an open channel is the frame that
    makes the receiving side log [Peer:] followed by the text typed,
    while the sending side logs [Me:] followed by the same text;
    the receiving side's transfer state does not change. *)
Theorem X4_chat_round_trip :
  ∀ (input : string) (sender receiver : AppState) (h : Handler)
    (i : nat) (k : string) (dc : RTCDataChannel),
    dataChannels sender !! i = Some (k, dc) → readyState dc = open →
    ∃ dc', dataChannels (sendMessage input sender) !! i = Some (k, dc') ∧
           sent dc' = sent dc ++ [TextJSON (chat input)] ∧
           messages (sendMessage input sender)
             = messages sender ++ ["Me: " +:+ input] ∧
           let receiver' :=
             receiveAll h (drop (length (sent dc)) (sent dc')) receiver in
           messages receiver' = messages receiver ++ ["Peer: " +:+ input] ∧
           same_transfer receiver receiver'.
Proof.
  intros input sender receiver h i k dc Hl Hopen.
  exists (after_sending [TextJSON (chat input)] dc).
  assert (Hex : Exists is_open (dataChannels sender)).
  { apply Exists_exists. exists (k, dc). split; [|done].
    by eapply list_elem_of_lookup_2. }
  split.
  { rewrite sendMessage_channels, list_lookup_fmap, Hl. simpl.
    by rewrite decide_True. }
  split; [done|]. split; [by apply sendMessage_logged|].
  simpl. rewrite drop_app_length. simpl. by repeat split.
Qed.

Lemma X4_witness :
  let ch := {| label := "chat"; readyState := open;
               onmessage := Some None; sent := [] |} in
  let sender := set_dataChannels [("P1", ch)] initialState in
  messages (sendMessage "hello" sender) = ["Me: hello"] ∧
  messages (receiveAll None [TextJSON (chat "hello")] initialState)
  = ["Peer: hello"].
Proof.
  intros ch sender.
  destruct (X4_chat_round_trip "hello" sender initialState None 0 "P1" ch
              eq_refl eq_refl) as (dc' & _ & Hs & Hm & Hr & _).
  split; [exact Hm|]. rewrite Hs in Hr. exact Hr.
Defined.

(** *** Chunking *)

Lemma chunk_loop_lookup_Some (chunk_size : nat) (buffer : ArrayBuffer) :
  0 < chunk_size → ∀ (fuel i k : nat),
  (length buffer ≤ i + fuel)%nat →
  i + k * chunk_size < length buffer →
  is_Some (chunk_loop chunk_size fuel i buffer !! k).
Proof.
  intros Hpos. induction fuel as [|fuel IH]; intros i k Hfuel Hin; [lia|].
  simpl. unfold byteLength. rewrite decide_True by lia.
  destruct k as [|k]; simpl; [by eexists|].
  apply IH; lia.
Qed.

Lemma file_chunks_index (buffer : ArrayBuffer) (k : nat) :
  k < length (file_chunks buffer) ↔ k * CHUNK_SIZE < length buffer.
Proof.
  unfold file_chunks. split.
  - intros Hk. destruct (lookup_lt_is_Some_2 _ _ Hk) as [c Hc].
    apply (chunk_loop_lookup CHUNK_SIZE CHUNK_SIZE_pos) in Hc as [_ Hin].
    by rewrite Nat.add_0_l in Hin.
  - intros Hin. apply lookup_lt_is_Some_1.
    apply (chunk_loop_lookup_Some CHUNK_SIZE _ CHUNK_SIZE_pos);
      unfold byteLength; lia.
Qed.

Lemma file_chunks_concat (buffer : ArrayBuffer) :
  concat (file_chunks buffer) = buffer.
Proof.
  unfold file_chunks.
  rewrite (chunk_loop_concat CHUNK_SIZE CHUNK_SIZE_pos); [done|].
  unfold byteLength. lia.
Qed.

Lemma file_chunks_not_empty (buffer : ArrayBuffer) :
  Forall (λ c, c ≠ []) (file_chunks buffer).
Proof.
  apply Forall_lookup. intros k c Hc. unfold file_chunks in Hc.
  apply (chunk_loop_lookup CHUNK_SIZE CHUNK_SIZE_pos) in Hc as [-> Hin].
  rewrite Nat.add_0_l in *. intros Hnil.
  pose proof (slice_length CHUNK_SIZE CHUNK_SIZE_pos buffer (k * CHUNK_SIZE))
    as Hlen.
  rewrite Hnil in Hlen. change (length (@nil Byte.byte)) with 0 in Hlen.
  pose proof CHUNK_SIZE_pos. lia.
Qed.

(** X5.  [sendFile] cuts a file of [n] bytes into the least number of
    16 KiB chunks that hold it, [n] divided by 16384 and rounded up: an
    empty file gives no chunk at all, a file of exactly 16 KiB one. *)
Theorem X5_number_of_chunks :
  ∀ buffer : ArrayBuffer,
    length (file_chunks buffer)
    = (length buffer + CHUNK_SIZE - 1) / CHUNK_SIZE.
Proof.
  intros buffer.
  pose proof CHUNK_SIZE_pos as Hpos.
  pose proof (file_chunks_index buffer) as Hidx.
  generalize dependent CHUNK_SIZE. intros C Hpos.
  generalize (length (file_chunks buffer)) (length buffer).
  intros m n Hidx.
  pose proof (Nat.div_mod_eq (n + C - 1) C) as Hdiv.
  pose proof (Nat.mod_upper_bound (n + C - 1) C ltac:(lia)) as Hmod.
  set (q := (n + C - 1) / C) in *. set (r := (n + C - 1) mod C) in *.
  destruct (Nat.lt_trichotomy m q) as [Hlt|[Heq|Hgt]]; [|done|].
  - assert (¬ m * C < n) as Hn by (intros H%Hidx; lia).
    exfalso. apply Hn. nia.
  - assert (q * C < n) as Hq by (apply Hidx; lia). nia.
Qed.

Lemma sendFile_sent (file : File) (st : AppState) :
  Exists is_open (dataChannels st) →
  ∃ pos k dc,
    first_open (dataChannels st) = Some pos ∧
    dataChannels st !! pos = Some (k, dc) ∧ readyState dc = open ∧
    dataChannels (sendFile file st) !! pos
    = Some (k, after_sending
                 (TextJSON (file_meta (file_name file) (file_size file))
                  :: (Binary <$> file_chunks (file_bytes file))) dc).
Proof.
  intros Hex.
  destruct (first_open (dataChannels st)) as [pos|] eqn:Hpos.
  - destruct (first_open_Some _ _ Hpos) as (k & dc & Hl & Ho & _).
    destruct (sendFile_channels file st pos Hpos) as (Hdcs & _).
    exists pos, k, dc. repeat split; try done.
    rewrite Hdcs.
    match goal with
    | |- foldl _ _ ?frames !! _ = _ =>
        destruct (send_on_all pos frames (dataChannels st)) as (H1 & _)
    end.
    by rewrite H1, Hl.
  - exfalso. apply first_open_None in Hpos.
    apply Exists_exists in Hex as (e & Hin & He).
    by apply (proj1 (Forall_forall _ _) Hpos e).
Qed.

(** X6.  The frames [sendFile] hands to its channel for a file that is
    not empty, handled on the other side by a closure that holds the
    metadata of that file, give back the file: one completion, whose
    blob is the bytes of the file and whose download link carries the
    name of the file. *)
Theorem X6_file_round_trip :
  ∀ (file : File) (sender receiver : AppState),
    Exists is_open (dataChannels sender) →
    file_bytes file ≠ [] →
    ∃ pos k dc dc',
      dataChannels sender !! pos = Some (k, dc) ∧
      dataChannels (sendFile file sender) !! pos = Some (k, dc') ∧
      let frames := drop (length (sent dc)) (sent dc') in
      let meta := {| name := file_name file; size := file_size file |} in
      let receiver' := receiveAll (Some meta) frames receiver in
      objectURLs receiver' = objectURLs receiver ++ [file_bytes file] ∧
      downloadLink receiver'
        = Some (file_name file, length (objectURLs receiver)) ∧
      completions receiver receiver' = 1.
Proof.
  intros file sender receiver Hex Hbytes.
  destruct (sendFile_sent file sender Hex) as (pos & k & dc & _ & Hl & _ & Hs).
  eexists pos, k, dc, _. split; [exact Hl|]. split; [exact Hs|].
  simpl. rewrite drop_app_length.
  assert (Hne : file_chunks (file_bytes file) ≠ []).
  { intros Hnil. pose proof (file_chunks_concat (file_bytes file)) as Hc.
    rewrite Hnil in Hc. by apply Hbytes. }
  pose proof (reassembly_when_closure_is_current (file_name file)
                (file_chunks (file_bytes file)) receiver Hne
                (file_chunks_not_empty (file_bytes file))) as Hre.
  rewrite file_chunks_concat in Hre. exact Hre.
Qed.

Lemma X6_witness :
  let ch := {| label := "chat"; readyState := open;
               onmessage := Some None; sent := [] |} in
  let sender := set_dataChannels [("P1", ch)] initialState in
  let file := {| file_name := "a.bin";
                 file_bytes := [Byte.x01; Byte.x02; Byte.x03] |} in
  ∃ pos k dc dc',
    dataChannels sender !! pos = Some (k, dc) ∧
    dataChannels (sendFile file sender) !! pos = Some (k, dc') ∧
    objectURLs (receiveAll (Some {| name := "a.bin"; size := 3 |})
                  (drop (length (sent dc)) (sent dc')) initialState)
    = [[Byte.x01; Byte.x02; Byte.x03]].
Proof.
  intros ch sender file.
  assert (Hex : Exists is_open (dataChannels sender)).
  { apply Exists_cons. by left. }
  assert (Hbytes : file_bytes file ≠ []) by done.
  destruct (X6_file_round_trip file sender initialState Hex Hbytes)
    as (pos & k & dc & dc' & Hl & Hs & Hu & _).
  exists pos, k, dc, dc'. split; [exact Hl|]. split; [exact Hs|exact Hu].
Defined.

(** ** Offer and answer *)

Lemma with_senders_twice s s' conn :
  with_senders s (with_senders s' conn) = with_senders s conn.
Proof. done. Qed.

Lemma with_senders_same conn : with_senders (senders conn) conn = conn.
Proof. by destruct conn. Qed.

(** Tracks that are pairwise different and not yet sent on an open
    connection are all added, in order. *)
Lemma addTracks_fresh (tracks : list MediaStreamTrack) (pc : nat) :
  ∀ (st : AppState) (conn : RTCPeerConnection),
    constructed st !! pc = Some conn →
    signalingState conn ≠ signaling_closed →
    NoDup (senders conn ++ tracks) →
    ∃ st', addTracks tracks pc st = (true, st') ∧
           constructed st'
           = <[pc := with_senders (senders conn ++ tracks) conn]> (constructed st) ∧
           peerConnections st' = peerConnections st ∧
           dataChannels st' = dataChannels st ∧
           socket_id st' = socket_id st ∧
           effects st'
           = effects st ++ ((λ t, console_log (log_adding_track (kind t))) <$> tracks).
Proof.
  induction tracks as [|t tracks IH]; intros st conn Hconn Hopen Hnd.
  - exists st. simpl. rewrite !app_nil_r, with_senders_same.
    by rewrite list_insert_id.
  - simpl. rewrite Hconn. simpl. unfold addTrack.
    rewrite decide_False by done.
    assert (Hfresh : t ∉ senders conn).
    { apply NoDup_app in Hnd as (_ & Hdisj & _).
      intros Hin. apply (Hdisj t Hin). by left. }
    rewrite decide_False by done.
    set (conn1 := with_senders (senders conn ++ [t]) conn).
    set (st1 := set_constructed _ _).
    destruct (IH st1 conn1) as (st' & Hrun & Hc & Hp & Hd & Hs & He).
    { unfold st1. simpl. apply list_lookup_insert_eq. by eapply lookup_lt_Some. }
    { done. }
    { unfold conn1. simpl. by rewrite <- app_assoc. }
    exists st'. split; [exact Hrun|].
    rewrite Hc, Hp, Hd, Hs, He. unfold st1, conn1. simpl.
    rewrite list_insert_insert_eq, <- !app_assoc. by repeat split.
Qed.

(** An answer whose sender has a connection goes to that connection
    and to no other; when the connection does not take it, nothing is
    changed. *)
Lemma handleReceiveAnswer_resolved (k : string) (sdp : RTCSessionDescription)
    (st : AppState) (pc : nat) :
  Map_get k (peerConnections st) = Some pc →
  let st' := handleReceiveAnswer (Some k) sdp st in
  constructed st'
    = match constructed st !! pc ≫= setRemoteDescription sdp with
      | Some conn => <[pc := conn]> (constructed st)
      | None => constructed st
      end ∧
  peerConnections st' = peerConnections st ∧
  dataChannels st' = dataChannels st.
Proof.
  intros Hget. unfold handleReceiveAnswer. simpl. rewrite Hget.
  by destruct (constructed st !! pc ≫= setRemoteDescription sdp).
Qed.

Lemma startCall_new_peer (h : Handler) (targetUserId : string)
    (st : AppState) (stream : MediaStream) :
  localStream st = Some stream → NoDup stream →
  Map_get targetUserId (peerConnections st) = None →
  let st' := startCall h targetUserId st in
  let the_offer := {| sdp_type := offer; sdp := "v=0" |} in
  peerConnections st'
    = peerConnections st ++ [(targetUserId, length (constructed st))] ∧
  constructed st'
    = constructed st ++
      [ {| signalingState := have_local_offer;
           localDescription := Some the_offer;
           remoteDescription := None;
           senders := stream;
           ondatachannel := Some h |} ] ∧
  Map_get targetUserId (dataChannels st')
    = Some {| label := "chat"; readyState := connecting;
              onmessage := Some h; sent := [] |} ∧
  last (effects st')
    = Some (socket_emit "offer"
              (offer_payload (Some targetUserId) (socket_id st)
                 (Some the_offer))).
Proof.
  intros Hstream Hnd Hfresh st' the_offer.
  subst st' the_offer. unfold startCall. rewrite Hstream.
  set (st0 := emit (console_log (log_starting_call targetUserId)) st).
  destruct (createPeerConnection_spec h targetUserId st0) as [_ Hspec].
  change (peerConnections st0) with (peerConnections st) in Hspec.
  change (constructed st0) with (constructed st) in Hspec.
  rewrite Hfresh in Hspec. destruct Hspec as (Hpc & Hcons & Hmap).
  destruct (createPeerConnection h targetUserId st0) as [pc1 st1] eqn:Hcall.
  simpl in Hpc, Hcons, Hmap. subst pc1.
  assert (Hsock : socket_id st1 = socket_id st).
  { unfold createPeerConnection in Hcall.
    change (peerConnections st0) with (peerConnections st) in Hcall.
    rewrite Hfresh in Hcall. by injection Hcall as <-. }
  assert (Hl : constructed st1 !! length (constructed st)
               = Some (new_RTCPeerConnection h)).
  { rewrite Hcons. by rewrite lookup_app_r, Nat.sub_diag. }
  destruct (addTracks_fresh stream (length (constructed st)) st1
              (new_RTCPeerConnection h) Hl)
    as (st2 & Hrun & Hc2 & Hp2 & Hd2 & Hs2 & _); [done|done|].
  rewrite Hrun. rewrite Hc2.
  rewrite list_lookup_insert_eq by (by eapply lookup_lt_Some).
  simpl. rewrite Hc2, Hp2, Hmap, Hs2, Hsock.
  rewrite list_insert_insert_eq, Map_get_set.
  split; [done|]. split; [|split; [done|]].
  - rewrite Hcons.
    replace (length (constructed st)) with (length (constructed st) + 0) at 1 by lia.
    by rewrite insert_app_r.
  - by rewrite last_snoc.
Qed.

(** X7.  [startCall] to a peer that has no connection yet, with a local
    stream of pairwise different tracks attached, constructs one
    connection and registers it under the peer's id; the connection
    carries every track of the stream, in order, and is left in
    [have-local-offer] with the offer as its local description.  A
    [chat] data channel for the peer is put in the channel map, not yet
    open, and the last call made is the [offer] sent to the relay for
    that peer, with the offer and the local socket id.  An answer that
    then arrives with the peer's id as sender takes that connection to
    [stable], with the answer as its remote description and tracks and
    offer kept.  No connection made before is changed by either step. *)
Theorem X7_call_to_a_new_peer_and_its_answer :
  ∀ (h : Handler) (targetUserId : string) (st : AppState) (stream : MediaStream)
    (body : string),
    localStream st = Some stream → NoDup stream →
    Map_get targetUserId (peerConnections st) = None →
    let st' := startCall h targetUserId st in
    let pc := length (constructed st) in
    let the_offer := {| sdp_type := offer; sdp := "v=0" |} in
    let the_answer := {| sdp_type := answer; sdp := body |} in
    let st'' := handleReceiveAnswer (Some targetUserId) the_answer st' in
    peerConnections st' = peerConnections st ++ [(targetUserId, pc)] ∧
    constructed st'
      = constructed st ++
        [ {| signalingState := have_local_offer;
             localDescription := Some the_offer;
             remoteDescription := None;
             senders := stream;
             ondatachannel := Some h |} ] ∧
    Map_get targetUserId (dataChannels st')
      = Some {| label := "chat"; readyState := connecting;
                onmessage := Some h; sent := [] |} ∧
    last (effects st')
      = Some (socket_emit "offer"
                (offer_payload (Some targetUserId) (socket_id st)
                   (Some the_offer))) ∧
    peerConnections st'' = peerConnections st' ∧
    constructed st''
      = constructed st ++
        [ {| signalingState := stable;
             localDescription := Some the_offer;
             remoteDescription := Some the_answer;
             senders := stream;
             ondatachannel := Some h |} ].
Proof.
  intros h targetUserId st stream body Hstream Hnd Hfresh
         st' pc the_offer the_answer st''.
  pose proof (startCall_new_peer h targetUserId st stream Hstream Hnd Hfresh)
    as Hcall.
  fold st' pc the_offer in Hcall. cbv zeta in Hcall.
  destruct Hcall as (H1 & H2 & H3 & H4).
  assert (Hreg : Map_get targetUserId (peerConnections st') = Some pc).
  { rewrite H1. clear -Hfresh.
    induction (peerConnections st) as [|[k' v'] m IH]; simpl in *.
    - by rewrite decide_True.
    - destruct (decide (k' = targetUserId)); [done|]. by apply IH. }
  destruct (handleReceiveAnswer_resolved targetUserId the_answer st' pc Hreg)
    as (H5 & H6 & _).
  fold st'' in H5, H6.
  repeat split; try done.
  rewrite H5, H2. unfold pc.
  rewrite lookup_app_r, Nat.sub_diag by done. simpl.
  replace (length (constructed st)) with (length (constructed st) + 0) at 1 by lia.
  by rewrite insert_app_r.
Qed.

Lemma X7_witness :
  let sharing :=
    startScreenShare None
      (acquired [{| track_id := 0; kind := "video" |};
                 {| track_id := 1; kind := "audio" |}]) initialState in
  let st' := startCall None "P1" sharing in
  let st'' := handleReceiveAnswer (Some "P1")
                {| sdp_type := answer; sdp := "v=0" |} st' in
  peerConnections st' = [("P1", 0)] ∧
  (signalingState <$> constructed st') = [have_local_offer] ∧
  (signalingState <$> constructed st'') = [stable].
Proof.
  intros sharing st' st''.
  assert (Hnd : NoDup [{| track_id := 0; kind := "video" |};
                       {| track_id := 1; kind := "audio" |}]).
  { apply NoDup_cons. split; [|apply NoDup_singleton].
    by intros ?%list_elem_of_singleton. }
  destruct (X7_call_to_a_new_peer_and_its_answer None "P1" sharing _ "v=0"
              eq_refl Hnd eq_refl)
    as (H1 & H2 & _ & _ & _ & H6).
  fold st' in H1, H2. fold st' st'' in H6. rewrite H1, H2, H6. done.
Defined.

(** X8.  An answer whose sender id has a connection is offered to that
    connection and to no other.  When that connection does not take it
    (it is not in [have-local-offer], or the description is not an
    answer), no connection is changed at all: the answer is not passed
    on to another connection that is waiting for one. *)
Theorem X8_resolved_answer_is_never_redirected :
  ∀ (k : string) (sdp : RTCSessionDescription) (st : AppState) (pc : nat),
    Map_get k (peerConnections st) = Some pc →
    let st' := handleReceiveAnswer (Some k) sdp st in
    (∀ pc', pc' ≠ pc → constructed st' !! pc' = constructed st !! pc') ∧
    (constructed st !! pc ≫= setRemoteDescription sdp = None →
     constructed st' = constructed st) ∧
    length (constructed st') = length (constructed st) ∧
    peerConnections st' = peerConnections st ∧
    dataChannels st' = dataChannels st.
Proof.
  intros k sdp st pc Hget st'.
  destruct (handleReceiveAnswer_resolved k sdp st pc Hget) as (H1 & H2 & H3).
  fold st' in H1, H2, H3. rewrite H1.
  destruct (constructed st !! pc ≫= setRemoteDescription sdp) as [conn|].
  - repeat split; try done.
    + intros pc' Hne. by apply list_lookup_insert_ne.
    + apply length_insert.
  - by repeat split.
Qed.

Lemma X8_witness :
  let waiting := with_signaling have_local_offer (new_RTCPeerConnection None) in
  let st := set_peerConnections [("P1", 0); ("P2", 1)]
              (set_constructed [new_RTCPeerConnection None; waiting] initialState) in
  constructed (handleReceiveAnswer (Some "P1")
                 {| sdp_type := answer; sdp := "v=0" |} st)
  = constructed st.
Proof.
  intros waiting st.
  exact (proj1 (proj2 (X8_resolved_answer_is_never_redirected "P1"
           {| sdp_type := answer; sdp := "v=0" |} st 0 eq_refl)) eq_refl).
Defined.

Lemma answer_fallback_first (sdp : RTCSessionDescription) (st : AppState)
    (entries : list (string * nat)) :
  sdp_type sdp = answer →
  ∀ (i : nat) (userId : string) (pc : nat) (conn : RTCPeerConnection),
    entries !! i = Some (userId, pc) →
    constructed st !! pc = Some conn →
    signalingState conn = have_local_offer →
    (∀ j e conn', j < i → entries !! j = Some e →
                  constructed st !! e.2 = Some conn' →
                  signalingState conn' ≠ have_local_offer) →
    answer_fallback entries sdp st
    = emit (console_log (log_set_remote_fallback userId))
        (set_constructed
           (<[pc := with_signaling stable (with_remoteDescription sdp conn)]>
              (constructed st)) st).
Proof.
  intros Hans. induction entries as [|[u p] entries IH];
    intros i userId pc conn Hi Hconn Hstate Hbefore; [done|].
  destruct i as [|i]; simpl in *.
  - injection Hi as -> ->. rewrite Hconn, decide_True by done.
    unfold setRemoteDescription. by rewrite Hans, Hstate.
  - destruct (constructed st !! p) as [c|] eqn:Hp.
    + rewrite decide_False.
      * eapply IH; eauto. intros j e conn' Hj. apply (Hbefore (S j)). lia.
      * apply (Hbefore 0 (u, p) c); [lia|done|done].
    + eapply IH; eauto. intros j e conn' Hj. apply (Hbefore (S j)). lia.
Qed.

Lemma answer_fallback_none (sdp : RTCSessionDescription) (st : AppState)
    (entries : list (string * nat)) :
  (∀ e conn, e ∈ entries → constructed st !! e.2 = Some conn →
             signalingState conn ≠ have_local_offer) →
  answer_fallback entries sdp st = st.
Proof.
  induction entries as [|[u p] entries IH]; intros Hnone; [done|].
  simpl. destruct (constructed st !! p) as [c|] eqn:Hp.
  - rewrite decide_False.
    + apply IH. intros e conn He. apply Hnone. by right.
    + apply (Hnone (u, p) c); [by left|done].
  - apply IH. intros e conn He. apply Hnone. by right.
Qed.

(** X9.  An answer whose sender id has no connection goes to the
    connection that was registered first among those in
    [have-local-offer]: that one becomes [stable] with the answer as its
    remote description, and every other connection, the other waiting
    ones included, is left as it was.  When no registered connection is
    in [have-local-offer], the answer is dropped: only the console line
    for its arrival is added. *)
Theorem X9_unresolved_answer_goes_to_the_earliest_pending_offer :
  ∀ (callerId : option string) (sdp : RTCSessionDescription) (st : AppState),
    sdp_type sdp = answer →
    callerId ≫= (λ k, Map_get k (peerConnections st)) = None →
    let st' := handleReceiveAnswer callerId sdp st in
    (∀ (i : nat) (userId : string) (pc : nat) (conn : RTCPeerConnection),
       peerConnections st !! i = Some (userId, pc) →
       constructed st !! pc = Some conn →
       signalingState conn = have_local_offer →
       (∀ j e conn', j < i → peerConnections st !! j = Some e →
                     constructed st !! e.2 = Some conn' →
                     signalingState conn' ≠ have_local_offer) →
       constructed st'
       = <[pc := with_signaling stable (with_remoteDescription sdp conn)]>
           (constructed st)) ∧
    ((∀ e conn, e ∈ peerConnections st → constructed st !! e.2 = Some conn →
                signalingState conn ≠ have_local_offer) →
     st' = emit (console_log (log_received_answer callerId)) st).
Proof.
  intros callerId sdp st Hans Hunres st'. subst st'.
  unfold handleReceiveAnswer.
  set (st0 := emit (console_log (log_received_answer callerId)) st).
  change (peerConnections st0) with (peerConnections st). rewrite Hunres.
  split.
  - intros i userId pc conn Hi Hconn Hstate Hbefore.
    by rewrite (answer_fallback_first sdp st0 (peerConnections st) Hans
                  i userId pc conn Hi Hconn Hstate Hbefore).
  - intros Hnone. by apply answer_fallback_none.
Qed.

Lemma X9_witness :
  let waiting := with_signaling have_local_offer (new_RTCPeerConnection None) in
  let st := set_peerConnections [("P1", 0); ("P2", 1); ("P3", 2)]
              (set_constructed [new_RTCPeerConnection None; waiting; waiting]
                 initialState) in
  (signalingState <$>
     constructed (handleReceiveAnswer None
                    {| sdp_type := answer; sdp := "v=0" |} st))
  = [stable; stable; have_local_offer].
Proof.
  intros waiting st.
  destruct (X9_unresolved_answer_goes_to_the_earliest_pending_offer None
              {| sdp_type := answer; sdp := "v=0" |} st eq_refl eq_refl)
    as [Hfirst _].
  rewrite (Hfirst 1 "P2" 1 waiting eq_refl eq_refl eq_refl); [done|].
  intros [|j] e conn' Hj; [|lia]. simpl. intros [= <-]. simpl.
  by intros [= <-].
Defined.

Lemma lookup_snoc_last {A} (l : list A) (x : A) :
  (l ++ [x]) !! length l = Some x.
Proof. by rewrite lookup_app_r, Nat.sub_diag. Qed.

Lemma insert_snoc_last {A} (l : list A) (x y : A) :
  <[length l := y]> (l ++ [x]) = l ++ [y].
Proof.
  replace (length l) with (length l + 0) at 1 by lia.
  by rewrite insert_app_r.
Qed.

(** X10.  An offer from a peer that has no connection yet makes
    [handleReceiveOffer] construct one connection and register it under
    the caller's id; the connection ends [stable], with the offer as its
    remote and the answer as its local description, and the last call
    made is the [answer] sent to the relay for the caller.  The callee
    side adds no track, creates no data channel and starts no call. *)
Theorem X10_offer_from_a_new_peer_is_answered :
  ∀ (h : Handler) (callerId body : string) (st : AppState),
    Map_get callerId (peerConnections st) = None →
    let the_offer := {| sdp_type := offer; sdp := body |} in
    let the_answer := {| sdp_type := answer; sdp := "v=0" |} in
    let st' := handleReceiveOffer h callerId the_offer st in
    peerConnections st'
      = peerConnections st ++ [(callerId, length (constructed st))] ∧
    constructed st'
      = constructed st ++
        [ {| signalingState := stable;
             localDescription := Some the_answer;
             remoteDescription := Some the_offer;
             senders := [];
             ondatachannel := Some h |} ] ∧
    last (effects st')
      = Some (socket_emit "answer" (answer_payload callerId (Some the_answer))) ∧
    dataChannels st' = dataChannels st ∧
    started_calls st' = started_calls st.
Proof.
  intros h callerId body st Hfresh the_offer the_answer st'.
  subst st' the_offer the_answer. unfold handleReceiveOffer.
  set (st0 := emit (console_log (log_received_offer callerId)) st).
  unfold createPeerConnection.
  change (peerConnections st0) with (peerConnections st). rewrite Hfresh.
  simpl. rewrite lookup_snoc_last. simpl.
  rewrite !insert_snoc_last, (Map_set_fresh _ _ _ Hfresh).
  split; [done|]. split; [done|]. split; [by rewrite last_snoc|].
  split; [done|].
  unfold started_calls. simpl. rewrite !omap_app. simpl. by rewrite !app_nil_r.
Qed.

Lemma X10_witness :
  let st' := handleReceiveOffer None "P1" {| sdp_type := offer; sdp := "v=0" |}
               initialState in
  peerConnections st' = [("P1", 0)] ∧
  (signalingState <$> constructed st') = [stable] ∧
  dataChannels st' = [].
Proof.
  intros st'.
  destruct (X10_offer_from_a_new_peer_is_answered None "P1" "v=0" initialState
              eq_refl) as (H1 & H2 & _ & H4 & _).
  fold st' in H1, H2, H4. by rewrite H1, H2, H4.
Defined.

(** ** The event loop *)

Lemma mesh_step_refl st : mesh_step st st.
Proof. by repeat split. Qed.

Lemma mesh_step_trans st1 st2 st3 :
  mesh_step st1 st2 → mesh_step st2 st3 → mesh_step st1 st3.
Proof.
  intros (?&?&?&?&?&?&?&?&?&?&?&?&?&?&?&?) (?&?&?&?&?&?&?&?&?&?&?&?&?&?&?&?).
  repeat split; try congruence; try (by etrans); lia.
Qed.

Lemma mesh_step_emit e st : mesh_step st (emit e st).
Proof. repeat split; try done. simpl. by apply prefix_app_r. Qed.

Lemma mesh_step_insert pc conn st :
  mesh_step st (set_constructed (<[pc := conn]> (constructed st)) st).
Proof. repeat split; try done. simpl. by rewrite length_insert. Qed.

Lemma mesh_step_channels dcs st : mesh_step st (set_dataChannels dcs st).
Proof. by repeat split. Qed.

Lemma createPeerConnection_mesh h targetUserId st :
  mesh_step st (createPeerConnection h targetUserId st).2.
Proof.
  unfold createPeerConnection.
  destruct (Map_get targetUserId (peerConnections st)) eqn:Hget; simpl.
  - apply mesh_step_emit.
  - repeat split; try done; simpl.
    + by apply prefix_app_r.
    + rewrite (Map_set_fresh _ _ _ Hget). by apply prefix_app_r.
    + rewrite length_app. lia.
Qed.

Lemma addTracks_mesh tracks pc st : mesh_step st (addTracks tracks pc st).2.
Proof.
  revert st. induction tracks as [|track tracks IH]; intros st; simpl.
  - apply mesh_step_refl.
  - destruct (constructed st !! pc ≫= addTrack track) as [conn|].
    + eapply mesh_step_trans; [apply mesh_step_emit|].
      eapply mesh_step_trans; [|apply IH].
      apply (mesh_step_insert pc conn
               (emit (console_log (log_adding_track (kind track))) st)).
    + apply mesh_step_emit.
Qed.

Lemma startCall_mesh h targetUserId st :
  mesh_step st (startCall h targetUserId st).
Proof.
  unfold startCall. destruct (localStream st) as [stream|];
    [|apply mesh_step_emit].
  set (st0 := emit (console_log (log_starting_call targetUserId)) st).
  pose proof (mesh_step_emit (console_log (log_starting_call targetUserId)) st)
    as H0. fold st0 in H0.
  pose proof (createPeerConnection_mesh h targetUserId st0) as H1.
  destruct (createPeerConnection h targetUserId st0) as [pc st1]. simpl in H1.
  pose proof (addTracks_mesh stream pc st1) as H2.
  destruct (addTracks stream pc st1) as [ok st2]. simpl in H2.
  pose proof (mesh_step_trans _ _ _ H0 (mesh_step_trans _ _ _ H1 H2)) as H3.
  destruct ok; [|exact H3].
  destruct (constructed st2 !! pc) as [conn|]; [|exact H3].
  destruct (decide (signalingState conn = signaling_closed)); [exact H3|].
  set (st3 := set_dataChannels _ st2).
  assert (H4 : mesh_step st st3).
  { eapply mesh_step_trans; [exact H3|apply mesh_step_channels]. }
  destruct (createOffer conn ≫= λ o, setLocalDescription o conn) as [conn'|];
    [|exact H4].
  eapply mesh_step_trans; [exact H4|].
  eapply mesh_step_trans; [apply (mesh_step_insert pc conn' st3)|].
  eapply mesh_step_trans; apply mesh_step_emit.
Qed.

Lemma fan_out_mesh h peers : ∀ st,
  mesh_step st (foldl (λ st userId, startCall h userId st) st peers).
Proof.
  induction peers as [|userId peers IH]; intros st; [apply mesh_step_refl|].
  simpl. eapply mesh_step_trans; [apply startCall_mesh|apply IH].
Qed.

Lemma handleReceiveOffer_mesh h callerId sdp st :
  mesh_step st (handleReceiveOffer h callerId sdp st).
Proof.
  unfold handleReceiveOffer.
  set (st0 := emit (console_log (log_received_offer callerId)) st).
  pose proof (mesh_step_emit (console_log (log_received_offer callerId)) st)
    as H0. fold st0 in H0.
  pose proof (createPeerConnection_mesh h callerId st0) as H1.
  destruct (createPeerConnection h callerId st0) as [pc st1]. simpl in H1.
  pose proof (mesh_step_trans _ _ _ H0 H1) as H2.
  destruct (constructed st1 !! pc ≫= setRemoteDescription sdp) as [conn|];
    [|exact H2].
  set (st2 := emit _ (set_constructed _ st1)).
  assert (H3 : mesh_step st st2).
  { eapply mesh_step_trans; [exact H2|].
    eapply mesh_step_trans; [apply (mesh_step_insert pc conn st1)|].
    apply mesh_step_emit. }
  destruct (createAnswer conn ≫= λ a, setLocalDescription a conn) as [conn'|];
    [|exact H3].
  eapply mesh_step_trans; [exact H3|].
  eapply mesh_step_trans; [apply (mesh_step_insert pc conn' st2)|].
  eapply mesh_step_trans; apply mesh_step_emit.
Qed.

Lemma answer_fallback_mesh entries sdp st :
  mesh_step st (answer_fallback entries sdp st).
Proof.
  induction entries as [|[userId pc] entries IH]; simpl;
    [apply mesh_step_refl|].
  destruct (constructed st !! pc) as [conn|]; [|exact IH].
  destruct (decide (signalingState conn = have_local_offer)); [|exact IH].
  destruct (setRemoteDescription sdp conn) as [conn'|];
    [|apply mesh_step_refl].
  eapply mesh_step_trans; [apply (mesh_step_insert pc conn' st)|].
  apply mesh_step_emit.
Qed.

Lemma handleReceiveAnswer_mesh callerId sdp st :
  mesh_step st (handleReceiveAnswer callerId sdp st).
Proof.
  unfold handleReceiveAnswer.
  set (st0 := emit (console_log (log_received_answer callerId)) st).
  pose proof (mesh_step_emit (console_log (log_received_answer callerId)) st)
    as H0. fold st0 in H0.
  destruct (callerId ≫= λ k, Map_get k (peerConnections st0)) as [pc|].
  - destruct (constructed st0 !! pc ≫= setRemoteDescription sdp) as [conn|];
      [|exact H0].
    eapply mesh_step_trans; [exact H0|].
    eapply mesh_step_trans; [apply (mesh_step_insert pc conn st0)|].
    apply mesh_step_emit.
  - eapply mesh_step_trans; [exact H0|apply answer_fallback_mesh].
Qed.

Lemma grows_refl st : grows st st.
Proof. by repeat split. Qed.

Lemma grows_trans st1 st2 st3 : grows st1 st2 → grows st2 st3 → grows st1 st3.
Proof.
  intros (?&?&?&?&?) (?&?&?&?&?). repeat split; try (by etrans); lia.
Qed.

Lemma mesh_step_grows st st' : mesh_step st st' → grows st st'.
Proof.
  intros (_&Hm&_&_&_&_&_&_&_&_&_&Hu&_&He&Hp&Hc).
  repeat split; try done; by rewrite ?Hm, ?Hu.
Qed.

Lemma sendFile_grows file st : grows st (sendFile file st).
Proof.
  unfold sendFile. destruct (first_open (dataChannels st)) as [pos|].
  - simpl. generalize (file_chunks (file_bytes file)).
    set (st0 := setMessages _ _).
    assert (H0 : grows st st0).
    { repeat split; try done. simpl. by apply prefix_app_r. }
    clearbody st0. intros chunks.
    assert (H1 : ∀ st1, grows st st1 →
              grows st (setMessages (λ prev, prev ++ ["Me: File sent."])
                          (foldl (λ st chunk,
                             set_dataChannels
                               (send_on pos (Binary chunk) (dataChannels st)) st)
                             st1 chunks))).
    { induction chunks as [|c chunks IH]; intros st1 H1; simpl.
      - eapply grows_trans; [exact H1|].
        repeat split; try done. simpl. by apply prefix_app_r.
      - apply IH. eapply grows_trans; [exact H1|]. by repeat split. }
    by apply H1.
  - repeat split; try done. simpl. by apply prefix_app_r.
Qed.

Lemma handleDataChannelMessage_grows h data st :
  grows st (handleDataChannelMessage h data st).
Proof.
  destruct data as [[content|n sz|]|text|chunk]; simpl;
    try (repeat split; try done; simpl; by apply prefix_app_r).
  destruct h as [meta|]; [|apply grows_refl].
  case_decide; [|by repeat split].
  repeat split; try done; simpl; by apply prefix_app_r.
Qed.

Lemma handle_event_grows ev st : grows st (handle_event ev st).
Proof.
  destruct ev as [sid|h u|u|us|us|h c d|c d|h t ch|h d|h m|i|f]; simpl.
  - by repeat split.
  - unfold handleUserConnected.
    set (st0 := setStatus _ st).
    set (st1 := if decide (u ∈ peersRef st0) then st0 else _).
    assert (H1 : grows st st1).
    { unfold st1. by destruct (decide (u ∈ peersRef st0)). }
    destruct (isSharingRef st1); [|exact H1].
    eapply grows_trans; [exact H1|]. apply mesh_step_grows, startCall_mesh.
  - by repeat split.
  - repeat split; try done. simpl. by apply prefix_app_r.
  - by repeat split.
  - apply mesh_step_grows, handleReceiveOffer_mesh.
  - apply mesh_step_grows, handleReceiveAnswer_mesh.
  - repeat split; try done. simpl. by apply prefix_app_r.
  - apply handleDataChannelMessage_grows.
  - unfold startScreenShare. destruct (isSharingRef st); [apply grows_refl|].
    destruct m as [stream|en em].
    + eapply grows_trans; [|apply mesh_step_grows, fan_out_mesh].
      repeat split; try done. simpl. rewrite <- app_assoc. by apply prefix_app_r.
    + repeat split; try done. simpl. rewrite <- !app_assoc. by apply prefix_app_r.
  - unfold sendMessage.
    destruct (send_to_open (TextJSON (chat i)) (dataChannels st) false)
      as [dcs [|]]; repeat split; try done.
    simpl. by apply prefix_app_r.
  - apply sendFile_grows.
Qed.

(** X11.  Nothing the app handles takes anything back: whatever the
    events, the message log, the trace of outside calls, the blob store
    and the registry of peer connections after them start with what
    they were before, and no fewer connections have been constructed.
    In particular no event unregisters or replaces the connection of a
    peer, a disconnected one included. *)
Theorem X11_logs_and_registry_only_grow :
  ∀ (evs : list AppEvent) (st : AppState),
    messages st `prefix_of` messages (run evs st) ∧
    effects st `prefix_of` effects (run evs st) ∧
    objectURLs st `prefix_of` objectURLs (run evs st) ∧
    peerConnections st `prefix_of` peerConnections (run evs st) ∧
    (length (constructed st) ≤ length (constructed (run evs st)))%nat.
Proof.
  intros evs st.
  change (grows st (run evs st)).
  induction evs as [|ev evs IH] using rev_ind; [apply grows_refl|].
  unfold run in *. rewrite foldl_app. simpl.
  eapply grows_trans; [exact IH|apply handle_event_grows].
Qed.

Lemma mesh_step_sharing st st' :
  mesh_step st st' →
  isSharing st' = isSharing st ∧ isSharingRef st' = isSharingRef st ∧
  localStream st' = localStream st.
Proof. by intros (_&_&_&_&_&?&_&_&?&?&_). Qed.

Lemma handle_event_sharing_flags ev st :
  sharing_consistent st →
  sharing_consistent (handle_event ev st) ∧
  isSharingRef (handle_event ev st)
  = isSharingRef st || bool_decide (acquires ev).
Proof.
  intros [Hflag Hstream].
  assert (Hsame : ∀ st', ¬ acquires ev →
            isSharing st' = isSharing st ∧ isSharingRef st' = isSharingRef st ∧
            localStream st' = localStream st →
            sharing_consistent st' ∧
            isSharingRef st' = isSharingRef st || bool_decide (acquires ev)).
  { intros st' Hno (H1 & H2 & H3). unfold sharing_consistent.
    rewrite H1, H2, H3, (bool_decide_eq_false_2 _ Hno), orb_false_r. done. }
  destruct ev as [sid|h u|u|us|us|h c d|c d|h t ch|h d|h m|i|f].
  - apply Hsame; [simpl; tauto|done].
  - apply Hsame; [simpl; tauto|simpl]. unfold handleUserConnected.
    set (st0 := setStatus _ st).
    set (st1 := if decide (u ∈ peersRef st0) then st0 else _).
    assert (H1 : isSharing st1 = isSharing st ∧ isSharingRef st1 = isSharingRef st ∧
                 localStream st1 = localStream st).
    { unfold st1. by destruct (decide (u ∈ peersRef st0)). }
    case_eq (isSharingRef st1); intros _; [|exact H1].
    destruct (mesh_step_sharing _ _ (startCall_mesh h u st1)) as (?&?&?).
    destruct H1 as (?&?&?). repeat split; congruence.
  - apply Hsame; [simpl; tauto|done].
  - apply Hsame; [simpl; tauto|done].
  - apply Hsame; [simpl; tauto|done].
  - apply Hsame; [simpl; tauto|simpl]. apply mesh_step_sharing, handleReceiveOffer_mesh.
  - apply Hsame; [simpl; tauto|simpl]. apply mesh_step_sharing, handleReceiveAnswer_mesh.
  - apply Hsame; [simpl; tauto|done].
  - apply Hsame; [simpl; tauto|simpl].
    destruct d as [[| |]| |d]; try done.
    simpl. destruct h as [meta|]; [|done]. by case_decide.
  - simpl. unfold startScreenShare.
    destruct (isSharingRef st) eqn:Hsharing.
    + split; [split; congruence|]. by rewrite ?Hsharing.
    + destruct m as [stream|en em]; simpl.
      * match goal with
        | |- context [foldl _ ?s ?l] =>
            destruct (mesh_step_sharing _ _ (fan_out_mesh h l s)) as (H1&H2&H3)
        end.
        simpl in H1, H2, H3.
        unfold sharing_consistent. rewrite H1, H2, H3.
        split; [split|].
        -- done.
        -- by apply bool_decide_eq_true_2.
        -- symmetry. rewrite ?Hsharing. simpl.
           first [done | by apply bool_decide_eq_true_2].
      * split; [split; simpl; congruence|]. simpl. by rewrite ?Hsharing.
  - apply Hsame; [simpl; tauto|simpl]. unfold sendMessage.
    destruct (send_to_open (TextJSON (chat i)) (dataChannels st) false)
      as [dcs flag].
    by destruct flag.
  - apply Hsame; [simpl; tauto|simpl].
    destruct (sendFile_stream f st) as [H1 H2]. split; [|done].
    unfold sendFile. destruct (first_open (dataChannels st)) as [pos|]; [|done].
    simpl. generalize (file_chunks (file_bytes f)).
    set (st0 := setMessages _ _).
    assert (H0 : isSharing st0 = isSharing st) by done. clearbody st0.
    intros chunks. revert st0 H0.
    induction chunks as [|c chunks IH]; intros st0 H0; [done|].
    simpl. by apply IH.
Qed.

(** X12.  After any events since the app was mounted, the app is
    sharing exactly when one of the events was a click on the share
    button that got a stream: sharing begins with the first such click
    and no event ends it.  The [isSharing] state, the [isSharingRef] ref
    and the presence of the local stream always agree. *)
Theorem X12_sharing_starts_once_and_never_stops :
  ∀ evs : list AppEvent,
    let st := run evs initialState in
    isSharingRef st = bool_decide (Exists acquires evs) ∧
    isSharing st = isSharingRef st ∧
    bool_decide (is_Some (localStream st)) = isSharingRef st.
Proof.
  intros evs st. subst st.
  assert (H : sharing_consistent (run evs initialState) ∧
              isSharingRef (run evs initialState)
              = bool_decide (Exists acquires evs)).
  { induction evs as [|ev evs [IH1 IH2]] using rev_ind.
    - split; [by split|]. symmetry. apply bool_decide_eq_false_2.
      by intros ?%Exists_nil.
    - unfold run in *. rewrite foldl_app. simpl.
      destruct (handle_event_sharing_flags ev _ IH1) as [H1 H2].
      split; [exact H1|]. rewrite H2, IH2.
      destruct (decide (Exists acquires evs)) as [He|He];
        destruct (decide (acquires ev)) as [Ha|Ha].
      + rewrite !bool_decide_eq_true_2; try done. apply Exists_app. by left.
      + rewrite (bool_decide_eq_true_2 _ He), (bool_decide_eq_false_2 _ Ha).
        simpl. symmetry. apply bool_decide_eq_true_2. apply Exists_app. by left.
      + rewrite (bool_decide_eq_false_2 _ He), (bool_decide_eq_true_2 _ Ha).
        simpl. symmetry. apply bool_decide_eq_true_2. apply Exists_app. right.
        by apply Exists_cons; left.
      + rewrite (bool_decide_eq_false_2 _ He), (bool_decide_eq_false_2 _ Ha).
        simpl. symmetry. apply bool_decide_eq_false_2.
        intros [?|Hx]%Exists_app; [done|].
        apply Exists_cons in Hx as [?|?%Exists_nil]; done. }
  destruct H as [[H1 H2] H3]. by repeat split.
Qed.

(** X13.  A click on the share button while the app is sharing changes
    nothing, whatever the screen picker would have returned; so a
    second click after a successful one leaves the state of the first. *)
Theorem X13_share_button_is_reentrant :
  ∀ (h h' : Handler) (stream : MediaStream) (media : DisplayMedia)
    (st : AppState),
    startScreenShare h' media (startScreenShare h (acquired stream) st)
    = startScreenShare h (acquired stream) st.
Proof.
  intros h h' stream media st.
  assert (Hsharing : isSharingRef (startScreenShare h (acquired stream) st) = true).
  { unfold startScreenShare. destruct (isSharingRef st) eqn:Hs; [done|].
    match goal with
    | |- context [foldl _ ?s ?l] =>
        destruct (mesh_step_sharing _ _ (fan_out_mesh h l s)) as (_&->&_)
    end.
    done. }
  unfold startScreenShare at 1. by rewrite Hsharing.
Qed.

(** ** Known peers *)

Lemma handleUserConnected_peers h userId st :
  peersRef (handleUserConnected h userId st)
  = if decide (userId ∈ peersRef st) then peersRef st
    else peersRef st ++ [userId].
Proof.
  unfold handleUserConnected.
  set (st0 := setStatus _ st).
  set (st1 := if decide (userId ∈ peersRef st0) then st0 else _).
  assert (H1 : peersRef st1 = if decide (userId ∈ peersRef st) then peersRef st
                              else peersRef st ++ [userId]).
  { unfold st1. change (peersRef st0) with (peersRef st).
    by destruct (decide (userId ∈ peersRef st)). }
  case_eq (isSharingRef st1); intros _; [|exact H1].
  destruct (startCall_mesh h userId st1) as (_&_&_&_&_&_&_&_&_&_&Hp&_).
  by rewrite Hp.
Qed.

Lemma filter_ne_fresh (userId : string) (peers : list string) :
  userId ∉ peers → filter (λ id, id ≠ userId) peers = peers.
Proof.
  induction peers as [|p peers IH]; [done|].
  intros [Hne Hnot]%not_elem_of_cons.
  rewrite filter_cons_True by done. by rewrite IH.
Qed.

(** X14.  The known peers follow joins and leaves.  A [user-connected]
    adds the id at the end unless it is already known; a
    [user-disconnected] removes every occurrence of the id and keeps
    the others in order, so the id is no longer known, and a join
    followed by the leave of the same new peer gives back the list as
    it was.  Neither makes a duplicate-free list have duplicates.  A
    leave closes nothing: connections, registry and channel map are
    what they were. *)
Theorem X14_known_peers_follow_joins_and_leaves :
  ∀ (h : Handler) (userId : string) (st : AppState),
    let joined := handleUserConnected h userId st in
    let left := handleUserDisconnected userId st in
    userId ∈ peersRef joined ∧
    (userId ∉ peersRef left) ∧
    (∀ other, other ≠ userId →
       (other ∈ peersRef joined ↔ other ∈ peersRef st) ∧
       (other ∈ peersRef left ↔ other ∈ peersRef st)) ∧
    (userId ∉ peersRef st →
       peersRef (handleUserDisconnected userId joined) = peersRef st) ∧
    (NoDup (peersRef st) → NoDup (peersRef joined) ∧ NoDup (peersRef left)) ∧
    constructed left = constructed st ∧
    peerConnections left = peerConnections st ∧
    dataChannels left = dataChannels st.
Proof.
  intros h userId st joined left.
  pose proof (handleUserConnected_peers h userId st) as Hj. fold joined in Hj.
  assert (Hl : peersRef left = filter (λ id, id ≠ userId) (peersRef st)) by done.
  split; [|split; [|split; [|split; [|split]]]].
  - rewrite Hj. case_decide; [done|]. apply elem_of_app. right. by left.
  - rewrite Hl. intros [Hne _]%list_elem_of_filter. done.
  - intros other Hne. rewrite Hj, Hl. split.
    + case_decide; [done|]. rewrite elem_of_app, list_elem_of_singleton. tauto.
    + rewrite list_elem_of_filter. tauto.
  - intros Hfresh.
    change (peersRef (handleUserDisconnected userId joined))
      with (filter (λ id, id ≠ userId) (peersRef joined)).
    rewrite Hj, decide_False by done.
    rewrite filter_app, filter_ne_fresh by done.
    rewrite filter_cons_False by (intros Hc; by apply Hc).
    by rewrite filter_nil, app_nil_r.
  - intros Hnd. split.
    + rewrite Hj. case_decide; [done|].
      apply NoDup_app. split; [done|]. split; [|apply NoDup_singleton].
      by intros x Hx ->%list_elem_of_singleton.
    + rewrite Hl. by apply NoDup_filter.
  - done.
Qed.

Lemma X14_witness :
  peersRef (handleUserDisconnected "P2"
              (handleUserConnected None "P2"
                 (handleUserConnected None "P1" initialState)))
  = ["P1"].
Proof.
  destruct (X14_known_peers_follow_joins_and_leaves None "P2"
              (handleUserConnected None "P1" initialState))
    as (_ & _ & _ & Hround & _).
  apply Hround. simpl. by intros ?%list_elem_of_singleton.
Defined.


Lemma startScreenShare_started h stream st :
  isSharingRef st = false →
  started_calls (startScreenShare h (acquired stream) st)
  = started_calls st ++ peersRef st.
Proof.
  intros Hs. unfold startScreenShare. rewrite Hs.
  match goal with
  | |- context [foldl _ ?s0 ?l] =>
      destruct (fan_out_started h l s0) as (H1 & _); [by eexists|]
  end.
  rewrite H1. f_equal.
  unfold started_calls. simpl. rewrite !omap_app. simpl.
  by rewrite !app_nil_r.
Qed.




(** ** Who starts calls *)

Lemma calls_same_refl st : calls_same st st.
Proof. by split. Qed.

Lemma calls_same_trans st1 st2 st3 :
  calls_same st1 st2 → calls_same st2 st3 → calls_same st1 st3.
Proof. intros [? ?] [? ?]. split; congruence. Qed.

Lemma calls_same_emit e st : silent e → calls_same st (emit e st).
Proof.
  intros He. unfold calls_same, started_calls, offers_sent. simpl.
  rewrite !omap_app. simpl.
  destruct e as [[]|ev []|]; simpl in *; by rewrite ?app_nil_r.
Qed.

Lemma calls_same_frame st st' : effects st' = effects st → calls_same st st'.
Proof. intros He. unfold calls_same, started_calls, offers_sent. by rewrite He. Qed.

Lemma createPeerConnection_calls h targetUserId st :
  calls_same st (createPeerConnection h targetUserId st).2.
Proof.
  unfold createPeerConnection.
  destruct (Map_get targetUserId (peerConnections st)); simpl.
  - by apply calls_same_emit.
  - eapply calls_same_trans; [by apply (calls_same_emit
        (console_log (log_creating targetUserId)))|].
    by apply calls_same_frame.
Qed.

Lemma addTracks_calls tracks pc st : calls_same st (addTracks tracks pc st).2.
Proof.
  revert st. induction tracks as [|track tracks IH]; intros st; simpl.
  - apply calls_same_refl.
  - destruct (constructed st !! pc ≫= addTrack track) as [conn|].
    + eapply calls_same_trans;
        [by apply (calls_same_emit (console_log (log_adding_track (kind track))))|].
      eapply calls_same_trans; [|apply IH]. by apply calls_same_frame.
    + by apply calls_same_emit.
Qed.

Lemma handleReceiveOffer_calls h callerId sdp st :
  calls_same st (handleReceiveOffer h callerId sdp st).
Proof.
  unfold handleReceiveOffer.
  set (st0 := emit (console_log (log_received_offer callerId)) st).
  assert (H0 : calls_same st st0) by (by apply calls_same_emit).
  pose proof (createPeerConnection_calls h callerId st0) as H1.
  destruct (createPeerConnection h callerId st0) as [pc st1]. simpl in H1.
  pose proof (calls_same_trans _ _ _ H0 H1) as H2.
  destruct (constructed st1 !! pc ≫= setRemoteDescription sdp) as [conn|];
    [|exact H2].
  set (st2 := emit _ (set_constructed _ st1)).
  assert (H3 : calls_same st st2).
  { eapply calls_same_trans; [exact H2|].
    eapply calls_same_trans; [|by apply calls_same_emit].
    by apply calls_same_frame. }
  destruct (createAnswer conn ≫= λ a, setLocalDescription a conn) as [conn'|];
    [|exact H3].
  eapply calls_same_trans; [exact H3|].
  eapply calls_same_trans; [|by apply calls_same_emit].
  eapply calls_same_trans; [|by apply calls_same_emit].
  by apply calls_same_frame.
Qed.

Lemma answer_fallback_calls entries sdp st :
  calls_same st (answer_fallback entries sdp st).
Proof.
  induction entries as [|[userId pc] entries IH]; simpl;
    [apply calls_same_refl|].
  destruct (constructed st !! pc) as [conn|]; [|exact IH].
  destruct (decide (signalingState conn = have_local_offer)); [|exact IH].
  destruct (setRemoteDescription sdp conn) as [conn'|];
    [|apply calls_same_refl].
  eapply calls_same_trans; [|by apply calls_same_emit].
  by apply calls_same_frame.
Qed.

Lemma handleReceiveAnswer_calls callerId sdp st :
  calls_same st (handleReceiveAnswer callerId sdp st).
Proof.
  unfold handleReceiveAnswer.
  set (st0 := emit (console_log (log_received_answer callerId)) st).
  assert (H0 : calls_same st st0) by (by apply calls_same_emit).
  destruct (callerId ≫= λ k, Map_get k (peerConnections st0)) as [pc|].
  - destruct (constructed st0 !! pc ≫= setRemoteDescription sdp) as [conn|];
      [|exact H0].
    eapply calls_same_trans; [exact H0|].
    eapply calls_same_trans; [|by apply calls_same_emit].
    by apply calls_same_frame.
  - eapply calls_same_trans; [exact H0|apply answer_fallback_calls].
Qed.

Lemma sendFile_calls file st : calls_same st (sendFile file st).
Proof.
  destruct (first_open (dataChannels st)) as [pos|] eqn:Hpos.
  - destruct (sendFile_channels file st pos Hpos) as (_ & He & _).
    by apply calls_same_frame.
  - unfold sendFile. rewrite Hpos. by apply calls_same_emit.
Qed.

Lemma calls_step_same st st' : calls_same st st' → calls_step st st'.
Proof. intros [H1 H2]. exists [], []. by rewrite H1, H2, !app_nil_r. Qed.

Lemma calls_step_trans st1 st2 st3 :
  calls_step st1 st2 → calls_step st2 st3 → calls_step st1 st3.
Proof.
  intros (i1 & o1 & H1 & H2 & H3) (i2 & o2 & H4 & H5 & H6).
  exists (i1 ++ i2), (o1 ++ o2).
  rewrite H4, H1, H5, H2, <- !app_assoc, fmap_app.
  repeat split. by apply sublist_app.
Qed.

Lemma startCall_calls h targetUserId st :
  calls_step st (startCall h targetUserId st).
Proof.
  unfold startCall. destruct (localStream st) as [stream|];
    [|by apply calls_step_same, calls_same_emit].
  set (st0 := emit (console_log (log_starting_call targetUserId)) st).
  assert (H0 : started_calls st0 = started_calls st ++ [targetUserId] ∧
               offers_sent st0 = offers_sent st).
  { unfold st0, started_calls, offers_sent. simpl. rewrite !omap_app. simpl.
    by rewrite app_nil_r. }
  destruct H0 as [Hs0 Ho0].
  pose proof (createPeerConnection_calls h targetUserId st0) as H1.
  destruct (createPeerConnection h targetUserId st0) as [pc st1]. simpl in H1.
  pose proof (addTracks_calls stream pc st1) as H2.
  destruct (addTracks stream pc st1) as [ok st2]. simpl in H2.
  destruct (calls_same_trans _ _ _ H1 H2) as [Hs2 Ho2].
  rewrite Hs0 in Hs2. rewrite Ho0 in Ho2.
  assert (Hquiet : calls_step st st2).
  { exists [targetUserId], []. rewrite app_nil_r. repeat split; try done.
    apply sublist_nil_l. }
  destruct ok; [|exact Hquiet].
  destruct (constructed st2 !! pc) as [conn|]; [|exact Hquiet].
  destruct (decide (signalingState conn = signaling_closed)); [exact Hquiet|].
  destruct (createOffer conn ≫= λ o, setLocalDescription o conn) as [conn'|].
  - exists [targetUserId], [Some targetUserId].
    unfold started_calls, offers_sent in *. simpl.
    rewrite !omap_app. simpl. rewrite !app_nil_r.
    by rewrite Hs2, Ho2.
  - exists [targetUserId], []. rewrite app_nil_r.
    repeat split; try done. apply sublist_nil_l.
Qed.

Lemma fan_out_calls h peers : ∀ st,
  calls_step st (foldl (λ st userId, startCall h userId st) st peers).
Proof.
  induction peers as [|userId peers IH]; intros st;
    [apply calls_step_same, calls_same_refl|].
  simpl. eapply calls_step_trans; [apply startCall_calls|apply IH].
Qed.

Lemma handle_event_calls ev st : calls_step st (handle_event ev st).
Proof.
  destruct ev as [sid|h u|u|us|us|h c d|c d|h t ch|h d|h m|i|f]; simpl;
    try (by apply calls_step_same, calls_same_frame).
  - unfold handleUserConnected.
    set (st0 := setStatus _ st).
    set (st1 := if decide (u ∈ peersRef st0) then st0 else _).
    assert (H1 : calls_same st st1).
    { unfold st1. destruct (decide (u ∈ peersRef st0));
        by apply calls_same_frame. }
    destruct (isSharingRef st1); [|by apply calls_step_same].
    eapply calls_step_trans; [by apply calls_step_same|apply startCall_calls].
  - apply calls_step_same.
    eapply calls_same_trans; [|by apply calls_same_emit].
    by apply calls_same_frame.
  - apply calls_step_same, handleReceiveOffer_calls.
  - apply calls_step_same, handleReceiveAnswer_calls.
  - apply calls_step_same.
    eapply calls_same_trans; [by apply (calls_same_emit
        (console_log (log_received_data_channel t)))|].
    by apply calls_same_frame.
  - apply calls_step_same, calls_same_frame.
    destruct d as [[| |]| |d]; try done.
    simpl. destruct h as [meta|]; [|done]. by case_decide.
  - unfold startScreenShare. destruct (isSharingRef st);
      [apply calls_step_same, calls_same_refl|].
    destruct m as [stream|en em].
    + eapply calls_step_trans; [|apply fan_out_calls].
      apply calls_step_same.
      eapply calls_same_trans; [by apply (calls_same_emit
          (console_log log_requesting_display_media))|].
      eapply calls_same_trans; [|by apply calls_same_frame].
      by apply (calls_same_emit (console_log log_display_media_acquired)
                  (setStatus "Requesting screen access..."
                     (emit (console_log log_requesting_display_media) st))).
    + apply calls_step_same.
      eapply calls_same_trans; [by apply (calls_same_emit
          (console_log log_requesting_display_media))|].
      eapply calls_same_trans; [|by apply calls_same_emit].
      eapply calls_same_trans; [|by apply calls_same_frame].
      by apply (calls_same_emit (console_log log_error_screen_share)
                  (setStatus "Requesting screen access..."
                     (emit (console_log log_requesting_display_media) st))).
  - apply calls_step_same, calls_same_frame. unfold sendMessage.
    destruct (send_to_open (TextJSON (chat i)) (dataChannels st) false)
      as [dcs flag].
    by destruct flag.
  - apply calls_step_same, sendFile_calls.
Qed.

(** While the app is not sharing after an event, the event started no
    call and sent no offer, and the app was not sharing before it. *)
Lemma handle_event_not_sharing ev st :
  isSharingRef (handle_event ev st) = false →
  calls_same st (handle_event ev st) ∧ isSharingRef st = false.
Proof.
  destruct ev as [sid|h u|u|us|us|h c d|c d|h t ch|h d|h m|i|f]; simpl;
    try (intros Hs; split; [by apply calls_same_frame|exact Hs]).
  - unfold handleUserConnected.
    set (st0 := setStatus _ st).
    set (st1 := if decide (u ∈ peersRef st0) then st0 else _).
    assert (H1 : calls_same st st1 ∧ isSharingRef st1 = isSharingRef st).
    { unfold st1. destruct (decide (u ∈ peersRef st0));
        (split; [by apply calls_same_frame|done]). }
    destruct H1 as [H1 H2].
    case_eq (isSharingRef st1); intros Hs1.
    + destruct (startCall_mesh h u st1) as (_&_&_&_&_&_&_&_&_&Hi&_).
      rewrite Hi. congruence.
    + intros _. split; [exact H1|congruence].
  - intros Hs. split; [|exact Hs].
    eapply calls_same_trans; [|by apply calls_same_emit].
    by apply calls_same_frame.
  - destruct (handleReceiveOffer_mesh h c d st) as (_&_&_&_&_&_&_&_&_&Hi&_).
    rewrite Hi. intros Hs. split; [apply handleReceiveOffer_calls|exact Hs].
  - destruct (handleReceiveAnswer_mesh c d st) as (_&_&_&_&_&_&_&_&_&Hi&_).
    rewrite Hi. intros Hs. split; [apply handleReceiveAnswer_calls|exact Hs].
  - intros Hs. split; [|exact Hs].
    eapply calls_same_trans; [by apply (calls_same_emit
        (console_log (log_received_data_channel t)))|].
    by apply calls_same_frame.
  - intros Hs. split.
    + apply calls_same_frame.
      destruct d as [[| |]| |d]; try done.
      simpl. destruct h as [meta|]; [|done]. by case_decide.
    + revert Hs. destruct d as [[| |]| |d]; try done.
      simpl. destruct h as [meta|]; [|done]. by case_decide.
  - unfold startScreenShare.
    case_eq (isSharingRef st); intros Hs; [intros; congruence|].
    destruct m as [stream|en em].
    + match goal with
      | |- context [foldl _ ?s ?l] =>
          destruct (fan_out_mesh h l s) as (_&_&_&_&_&_&_&_&_&Hi&_)
      end.
      rewrite Hi. done.
    + intros _. split; [|done].
      eapply calls_same_trans; [by apply (calls_same_emit
          (console_log log_requesting_display_media))|].
      eapply calls_same_trans; [|by apply calls_same_emit].
      eapply calls_same_trans; [|by apply calls_same_frame].
      by apply (calls_same_emit (console_log log_error_screen_share)
                  (setStatus "Requesting screen access..."
                     (emit (console_log log_requesting_display_media) st))).
  - unfold sendMessage.
    destruct (send_to_open (TextJSON (chat i)) (dataChannels st) false)
      as [dcs flag].
    intros Hs. split; [apply calls_same_frame|]; by destruct flag.
  - destruct (sendFile_stream f st) as [_ Hi]. rewrite Hi.
    intros Hs. split; [apply sendFile_calls|exact Hs].
Qed.

(** X16.  Calls are started by the sharing side only.  After any events
    since the app was mounted, every offer sent to the relay belongs to
    a call that was started (the offers sent are, in order, among the
    calls started), and as long as the app is not sharing it has
    started no call and sent no offer, whatever peers joined and
    whatever offers and answers it received. *)
Theorem X16_only_the_sharing_side_calls :
  ∀ evs : list AppEvent,
    let st := run evs initialState in
    offers_sent st `sublist_of` (Some <$> started_calls st) ∧
    (isSharingRef st = false → started_calls st = [] ∧ offers_sent st = []).
Proof.
  intros evs st. subst st.
  induction evs as [|ev evs [IH1 IH2]] using rev_ind; [done|].
  unfold run in *. rewrite foldl_app. simpl.
  set (st := foldl (λ st ev, handle_event ev st) initialState evs) in *.
  split.
  - destruct (handle_event_calls ev st) as (ids & offs & -> & -> & Hsub).
    rewrite fmap_app. by apply sublist_app.
  - intros Hs. destruct (handle_event_not_sharing ev st Hs) as [[-> ->] Hs'].
    by apply IH2.
Qed.

Lemma X16_witness :
  let evs := [on_user_connected None "P1";
              on_offer None "P2" {| sdp_type := offer; sdp := "v=0" |};
              click_share None (rejected "NotAllowedError" "Permission denied");
              on_user_connected None "P3"] in
  started_calls (run evs initialState) = [] ∧
  offers_sent (run evs initialState) = [].
Proof.
  intros evs.
  exact (proj2 (X16_only_the_sharing_side_calls evs) eq_refl).
Defined.

(** ** ICE candidates *)

Lemma ice_fallback_offered accepts entries :
  ice_offered (ice_fallback accepts entries) = entries.*2 ∧
  ice_reported (ice_fallback accepts entries)
  = (filter (λ e, accepts e.2 = true) entries).*1 ∧
  ice_error ∉ ice_fallback accepts entries.
Proof.
  induction entries as [|[userId conn] entries (IH1 & IH2 & IH3)].
  - repeat split; try done. apply not_elem_of_nil.
  - unfold ice_offered, ice_reported in *. simpl.
    rewrite !omap_app, IH1, IH2.
    destruct (accepts conn) eqn:Hacc; simpl.
    + rewrite filter_cons_True by done. repeat split; try done.
      rewrite !not_elem_of_cons. by repeat split.
    + rewrite filter_cons_False by (simpl; congruence). repeat split; try done.
      rewrite !not_elem_of_cons. by repeat split.
Qed.

(** X17.  An ICE candidate whose sender id has a connection is handed to
    that connection alone, whether the connection takes it or not.  A
    candidate whose sender id has none is handed to every registered
    connection, once each and in registration order, and a connection
    that refuses it does not keep the later ones from getting it; the
    console reports it as added for exactly the peers whose connection
    took it, and reports no error. *)
Theorem X17_candidate_goes_to_its_sender_or_to_everyone :
  ∀ (accepts : nat → bool) (callerId : option string) (st : AppState),
    let steps := handleNewICECandidateMsg accepts callerId st in
    match callerId ≫= (λ k, Map_get k (peerConnections st)) with
    | Some pc => ice_offered steps = [pc] ∧ ice_reported steps = []
    | None =>
        ice_offered steps = (peerConnections st).*2 ∧
        ice_reported steps
        = (filter (λ e, accepts e.2 = true) (peerConnections st)).*1 ∧
        ice_error ∉ steps
    end.
Proof.
  intros accepts callerId st steps. subst steps.
  unfold handleNewICECandidateMsg.
  destruct (callerId ≫= λ k, Map_get k (peerConnections st)) as [pc|].
  - by destruct (accepts pc).
  - destruct (ice_fallback_offered accepts (peerConnections st))
      as (H1 & H2 & H3).
    unfold ice_offered, ice_reported in *. simpl.
    repeat split; try done. rewrite not_elem_of_cons. by split.
Qed.

(** ** Membership broadcast *)

(** X18.  After a [update-user-list] broadcast the local socket id is
    not among the known peers, so starting to share does not start a
    call to oneself.  The broadcast wins over what joins and leaves did
    to the list before it: the peers after the broadcast are the same
    whether or not a [user-connected] or [user-disconnected] came
    first.  Applying the same broadcast twice is the same as once. *)
Theorem X18_broadcast_excludes_self_and_overrides :
  ∀ (h : Handler) (stream : MediaStream) (users : list User)
    (sid userId : string) (st : AppState),
    socket_id st = Some sid → isSharingRef st = false →
    let st1 := handleUpdateUserList users st in
    (sid ∉ peersRef st1) ∧
    calls_started sid (startScreenShare h (acquired stream) st1)
      = calls_started sid st ∧
    peersRef (handleUpdateUserList users (handleUserConnected h userId st))
      = peersRef st1 ∧
    peersRef (handleUpdateUserList users (handleUserDisconnected userId st))
      = peersRef st1 ∧
    handleUpdateUserList users st1 = st1.
Proof.
  intros h stream users sid userId st Hsid Hnot st1.
  assert (Hpeers : peersRef st1
                   = id <$> filter (λ u, Some (id u) ≠ socket_id st) users) by done.
  assert (Hself : sid ∉ peersRef st1).
  { rewrite Hpeers. intros (u & -> & Hu)%list_elem_of_fmap.
    apply list_elem_of_filter in Hu as [Hne _]. by rewrite Hsid in Hne. }
  split; [exact Hself|]. split; [|split; [|split; [done|done]]].
  - unfold calls_started.
    rewrite (startScreenShare_started h stream st1 Hnot), filter_app, length_app.
    assert (Hnone : filter (λ t, t = sid) (peersRef st1) = []).
    { clear -Hself. induction (peersRef st1) as [|p l IH]; [done|].
      apply not_elem_of_cons in Hself as [Hne Hl].
      rewrite filter_cons_False by congruence. by apply IH. }
    rewrite Hnone. simpl. by rewrite Nat.add_0_r.
  - assert (Hsock : socket_id (handleUserConnected h userId st) = socket_id st).
    { unfold handleUserConnected.
      set (st0 := setStatus _ st).
      set (st2 := if decide (userId ∈ peersRef st0) then st0 else _).
      assert (H2 : socket_id st2 = socket_id st).
      { unfold st2. by destruct (decide (userId ∈ peersRef st0)). }
      case_eq (isSharingRef st2); intros _; [|exact H2].
      destruct (startCall_mesh h userId st2) as (_&_&_&_&_&_&_&_&_&_&_&_&Hs&_).
      by rewrite Hs, H2. }
    unfold st1, handleUpdateUserList. simpl. by rewrite Hsock.
Qed.

Lemma X18_witness :
  let st := handleConnect "me" initialState in
  let users := [{| id := "me"; ip := "10.0.0.1" |};
                {| id := "P1"; ip := "10.0.0.2" |}] in
  peersRef (handleUpdateUserList users st) = ["P1"] ∧
  calls_started "me"
    (startScreenShare None (acquired [{| track_id := 0; kind := "video" |}])
       (handleUpdateUserList users st)) = 0.
Proof.
  intros st users. split; [done|].
  exact (proj1 (proj2 (X18_broadcast_excludes_self_and_overrides None
           [{| track_id := 0; kind := "video" |}] users "me" "P1" st
           eq_refl eq_refl))).
Defined.

(** ** Transfer state and channel map over time *)

Lemma sendFile_transfer file st :
  receivedFileMeta (sendFile file st) = receivedFileMeta st ∧
  downloadLink (sendFile file st) = downloadLink st.
Proof.
  unfold sendFile. destruct (first_open (dataChannels st)) as [pos|]; [|done].
  simpl. generalize (file_chunks (file_bytes file)).
  set (st0 := setMessages _ _).
  assert (H0 : receivedFileMeta st0 = receivedFileMeta st ∧
               downloadLink st0 = downloadLink st) by done.
  clearbody st0. intros chunks. revert st0 H0.
  induction chunks as [|c chunks IH]; intros st0 H0; [done|].
  simpl. by apply IH.
Qed.

Lemma handle_event_keeps_transfer ev st :
  (is_Some (receivedFileMeta st) → is_Some (receivedFileMeta (handle_event ev st))) ∧
  (is_Some (downloadLink st) → is_Some (downloadLink (handle_event ev st))).
Proof.
  assert (Hsame : ∀ st', receivedFileMeta st' = receivedFileMeta st →
                         downloadLink st' = downloadLink st →
            (is_Some (receivedFileMeta st) → is_Some (receivedFileMeta st')) ∧
            (is_Some (downloadLink st) → is_Some (downloadLink st'))).
  { intros st' -> ->. done. }
  assert (Hmesh : ∀ st', mesh_step st st' →
            (is_Some (receivedFileMeta st) → is_Some (receivedFileMeta st')) ∧
            (is_Some (downloadLink st) → is_Some (downloadLink st'))).
  { intros st' (_&_&_&H1&H2&_). by apply Hsame. }
  destruct ev as [sid|h u|u|us|us|h c d|c d|h t ch|h d|h m|i|f].
  - by apply Hsame.
  - simpl. unfold handleUserConnected.
    set (st0 := setStatus _ st).
    set (st1 := if decide (u ∈ peersRef st0) then st0 else _).
    assert (H1 : receivedFileMeta st1 = receivedFileMeta st ∧
                 downloadLink st1 = downloadLink st).
    { unfold st1. by destruct (decide (u ∈ peersRef st0)). }
    destruct H1 as [H1 H2].
    case_eq (isSharingRef st1); intros _; [|by apply Hsame].
    destruct (startCall_mesh h u st1) as (_&_&_&H3&H4&_).
    apply Hsame; congruence.
  - by apply Hsame.
  - by apply Hsame.
  - by apply Hsame.
  - apply Hmesh, handleReceiveOffer_mesh.
  - apply Hmesh, handleReceiveAnswer_mesh.
  - by apply Hsame.
  - simpl. destruct d as [[content|n sz|]|text|chunk]; simpl.
    + by apply Hsame.
    + split; [by eexists|done].
    + by apply Hsame.
    + by apply Hsame.
    + destruct h as [meta|]; [|by apply Hsame].
      case_decide; simpl; [|by apply Hsame].
      split; [done|by eexists].
  - simpl. unfold startScreenShare. destruct (isSharingRef st); [done|].
    destruct m as [stream|en em]; [|by apply Hsame].
    match goal with
    | |- context [foldl _ ?s ?l] =>
        destruct (fan_out_mesh h l s) as (_&_&_&H3&H4&_)
    end.
    by apply Hsame.
  - simpl. unfold sendMessage.
    destruct (send_to_open (TextJSON (chat i)) (dataChannels st) false)
      as [dcs flag].
    destruct flag; by apply Hsame.
  - destruct (sendFile_transfer f st) as [H1 H2]. by apply Hsame.
Qed.

(** X19.  No event takes back what a transfer has set: once a
    [file-meta] frame has been handled the metadata cell holds
    metadata after every later event, and once a download link has been
    set there is one after every later event.  The closures of later
    renders therefore never again drop binary frames for want of
    metadata. *)
Theorem X19_metadata_and_link_are_never_cleared :
  ∀ (evs : list AppEvent) (st : AppState),
    (is_Some (receivedFileMeta st) → is_Some (receivedFileMeta (run evs st))) ∧
    (is_Some (downloadLink st) → is_Some (downloadLink (run evs st))).
Proof.
  intros evs st.
  induction evs as [|ev evs [IH1 IH2]] using rev_ind; [done|].
  unfold run in *. rewrite foldl_app. simpl.
  destruct (handle_event_keeps_transfer ev
              (foldl (λ st ev, handle_event ev st) st evs)) as [H1 H2].
  split; intros H; [apply H1, IH1, H|apply H2, IH2, H].
Qed.

Lemma X19_witness :
  let st := handleDataChannelMessage None (TextJSON (file_meta "a.bin" 1))
              initialState in
  is_Some (receivedFileMeta
             (run [on_message (Some {| name := "a.bin"; size := 1 |})
                     (Binary [Byte.x07]);
                   on_user_disconnected "P1"; click_send "hello"] st)).
Proof.
  intros st.
  apply (proj1 (X19_metadata_and_link_are_never_cleared _ st)).
  by eexists.
Defined.

Lemma Map_set_ok (k : string) (dc : RTCDataChannel)
    (m : list (string * RTCDataChannel)) :
  is_Some (onmessage dc) →
  NoDup m.*1 ∧ Forall (λ e, is_Some (onmessage e.2)) m →
  NoDup (Map_set k dc m).*1 ∧
  Forall (λ e, is_Some (onmessage e.2)) (Map_set k dc m).
Proof.
  intros Hdc. induction m as [|[k' v'] m IH]; intros [Hnd Hall]; simpl.
  - split; [apply NoDup_singleton|]. by apply Forall_singleton.
  - apply NoDup_cons in Hnd as [Hk' Hnd]. apply Forall_cons in Hall as [Hv' Hall].
    destruct (decide (k' = k)) as [-> |Hne]; simpl.
    + split; [by apply NoDup_cons|]. by apply Forall_cons.
    + destruct (IH (conj Hnd Hall)) as [IH1 IH2].
      split; [|by apply Forall_cons].
      apply NoDup_cons. split; [|done].
      intros (e & He & Hin)%list_elem_of_fmap.
      assert (Hkeys : ∀ x, x ∈ (Map_set k dc m).*1 → x = k ∨ x ∈ m.*1).
      { clear. induction m as [|[k2 v2] m IHm]; simpl; intros x.
        - intros ->%list_elem_of_singleton. by left.
        - destruct (decide (k2 = k)) as [-> |?]; simpl.
          + intros [-> |?]%elem_of_cons; [by left|]. right. by right.
          + intros [-> |Hx]%elem_of_cons; [right; by left|].
            destruct (IHm x Hx); [by left|]. right. by right. }
      destruct (Hkeys k') as [?|?]; [|done|done].
      apply list_elem_of_fmap. by exists e.
Qed.

Lemma channels_ok_same st st' :
  dataChannels st' = dataChannels st → channels_ok st → channels_ok st'.
Proof. intros He [? ?]. unfold channels_ok. by rewrite He. Qed.

Lemma createPeerConnection_channels h targetUserId st :
  dataChannels (createPeerConnection h targetUserId st).2 = dataChannels st.
Proof.
  unfold createPeerConnection.
  by destruct (Map_get targetUserId (peerConnections st)).
Qed.

Lemma addTracks_channels tracks pc st :
  dataChannels (addTracks tracks pc st).2 = dataChannels st.
Proof.
  revert st. induction tracks as [|track tracks IH]; intros st; simpl; [done|].
  destruct (constructed st !! pc ≫= addTrack track) as [conn|]; [|done].
  by rewrite IH.
Qed.

Lemma startCall_channels_ok h targetUserId st :
  channels_ok st → channels_ok (startCall h targetUserId st).
Proof.
  intros Hok. unfold startCall.
  destruct (localStream st) as [stream|]; [|done].
  set (st0 := emit (console_log (log_starting_call targetUserId)) st).
  pose proof (createPeerConnection_channels h targetUserId st0) as H1.
  destruct (createPeerConnection h targetUserId st0) as [pc st1]. simpl in H1.
  pose proof (addTracks_channels stream pc st1) as H2.
  destruct (addTracks stream pc st1) as [ok st2]. simpl in H2.
  assert (H3 : channels_ok st2).
  { apply (channels_ok_same st); [congruence|done]. }
  destruct ok; [|exact H3].
  destruct (constructed st2 !! pc) as [conn|]; [|exact H3].
  destruct (decide (signalingState conn = signaling_closed)); [exact H3|].
  assert (H4 : channels_ok
                 (set_dataChannels
                    (Map_set targetUserId
                       {| label := "chat"; readyState := connecting;
                          onmessage := Some h; sent := [] |} (dataChannels st2))
                    st2)).
  { unfold channels_ok. simpl. apply Map_set_ok; [by eexists|exact H3]. }
  by destruct (createOffer conn ≫= λ o, setLocalDescription o conn).
Qed.

Lemma fan_out_channels_ok h peers : ∀ st,
  channels_ok st →
  channels_ok (foldl (λ st userId, startCall h userId st) st peers).
Proof.
  induction peers as [|userId peers IH]; intros st Hok; [done|].
  simpl. apply IH. by apply startCall_channels_ok.
Qed.

Lemma send_on_keys pos data (entries : list (string * RTCDataChannel)) :
  (send_on pos data entries).*1 = entries.*1 ∧
  (Forall (λ e, is_Some (onmessage e.2)) entries →
   Forall (λ e, is_Some (onmessage e.2)) (send_on pos data entries)).
Proof.
  unfold send_on. revert pos.
  induction entries as [|[k dc] entries IH]; intros pos; [done|].
  destruct pos as [|pos].
  - split; [done|]. intros [? ?]%Forall_cons. by apply Forall_cons.
  - destruct (IH pos) as [IH1 IH2]. split.
    + change ((k :: (alter (λ e : string * RTCDataChannel,
                              (e.1, dc_send data e.2)) pos entries).*1)
              = k :: entries.*1).
      by rewrite IH1.
    + intros [? ?]%Forall_cons.
      change (Forall (λ e, is_Some (onmessage e.2))
                ((k, dc) :: alter (λ e : string * RTCDataChannel,
                                     (e.1, dc_send data e.2)) pos entries)).
      apply Forall_cons. split; [done|by apply IH2].
Qed.

Lemma sendFile_channels_ok file st :
  channels_ok st → channels_ok (sendFile file st).
Proof.
  intros Hok. destruct (first_open (dataChannels st)) as [pos|] eqn:Hpos.
  - destruct (sendFile_channels file st pos Hpos) as (Hdcs & _).
    unfold channels_ok. rewrite Hdcs. clear Hdcs Hpos.
    generalize (TextJSON (file_meta (file_name file) (file_size file))
                :: (Binary <$> file_chunks (file_bytes file))).
    intros frames. destruct Hok as [Hnd Hall].
    revert Hnd Hall. generalize (dataChannels st).
    induction frames as [|f frames IH]; intros entries Hnd Hall; [done|].
    simpl. destruct (send_on_keys pos f entries) as [Hk Hf].
    apply IH; [by rewrite Hk|by apply Hf].
  - unfold sendFile. by rewrite Hpos.
Qed.

Lemma handle_event_channels_ok ev st :
  channels_ok st → channels_ok (handle_event ev st).
Proof.
  intros Hok.
  destruct ev as [sid|h u|u|us|us|h c d|c d|h t ch|h d|h m|i|f]; simpl;
    try exact Hok.
  - unfold handleUserConnected.
    set (st0 := setStatus _ st).
    set (st1 := if decide (u ∈ peersRef st0) then st0 else _).
    assert (H1 : channels_ok st1).
    { unfold st1. by destruct (decide (u ∈ peersRef st0)). }
    destruct (isSharingRef st1); [by apply startCall_channels_ok|exact H1].
  - unfold handleReceiveOffer.
    set (st0 := emit (console_log (log_received_offer c)) st).
    pose proof (createPeerConnection_channels h c st0) as H1.
    destruct (createPeerConnection h c st0) as [pc st1]. simpl in H1.
    assert (H2 : channels_ok st1) by (by apply (channels_ok_same st)).
    destruct (constructed st1 !! pc ≫= setRemoteDescription d) as [conn|];
      [|exact H2].
    by destruct (createAnswer conn ≫= λ a, setLocalDescription a conn).
  - unfold handleReceiveAnswer.
    set (st0 := emit (console_log (log_received_answer c)) st).
    destruct (c ≫= λ k, Map_get k (peerConnections st0)) as [pc|].
    + by destruct (constructed st0 !! pc ≫= setRemoteDescription d).
    + assert (H : ∀ entries, dataChannels (answer_fallback entries d st0)
                             = dataChannels st).
      { induction entries as [|[userId pc] entries IH]; simpl; [done|].
        destruct (constructed st !! pc) as [conn|]; [|exact IH].
        destruct (decide (signalingState conn = have_local_offer)); [|exact IH].
        by destruct (setRemoteDescription d conn). }
      by apply (channels_ok_same st).
  - unfold pc_ondatachannel, channels_ok. simpl.
    apply Map_set_ok; [by eexists|exact Hok].
  - apply (channels_ok_same st); [|done].
    destruct d as [[| |]| |d]; try done.
    simpl. destruct h as [meta|]; [|done]. by case_decide.
  - unfold startScreenShare. destruct (isSharingRef st); [done|].
    destruct m as [stream|en em]; [|done].
    by apply fan_out_channels_ok.
  - unfold channels_ok. rewrite sendMessage_channels.
    destruct Hok as [Hnd Hall]. split.
    + rewrite <- list_fmap_compose.
      erewrite list_fmap_ext; [exact Hnd|]. intros _ e _. simpl. by case_decide.
    + apply Forall_fmap. eapply Forall_impl; [exact Hall|].
      intros e He. simpl. by case_decide.
  - by apply sendFile_channels_ok.
Qed.

(** X20.  After any events since the app was mounted, the channel map
    holds at most one channel per peer id (a channel put under an id
    that has one takes its place), and every channel in it has its
    message handler assigned. *)
Theorem X20_one_tracked_channel_per_peer :
  ∀ evs : list AppEvent,
    NoDup (dataChannels (run evs initialState)).*1 ∧
    Forall (λ e, is_Some (onmessage e.2)) (dataChannels (run evs initialState)).
Proof.
  intros evs. change (channels_ok (run evs initialState)).
  induction evs as [|ev evs IH] using rev_ind.
  - split; [apply NoDup_nil_2|apply Forall_nil_2].
  - unfold run in *. rewrite foldl_app. simpl.
    by apply handle_event_channels_ok.
Qed.

(** ** A second call to the same peer *)

Lemma Map_get_snoc_fresh {V} (k : string) (v : V) (m : list (string * V)) :
  Map_get k m = None → Map_get k (m ++ [(k, v)]) = Some v.
Proof.
  induction m as [|[k' v'] m IH]; simpl.
  - by rewrite decide_True.
  - destruct (decide (k' = k)); [done|]. exact IH.
Qed.

(** X21.  [startCall] to a peer whose connection already carries the
    tracks of the local stream, as after a first [startCall] to it,
    goes no further than [addTrack]: the browser refuses a track that
    the connection already sends, and the rest of [startCall] is
    skipped.  The call is counted as started, but no connection is
    constructed or changed, the channel map keeps the channel of the
    first call, and no second offer is sent. *)
Theorem X21_second_call_to_a_peer_stops_at_addTrack :
  ∀ (h h' : Handler) (targetUserId : string) (st : AppState)
    (stream : MediaStream),
    localStream st = Some stream → NoDup stream → stream ≠ [] →
    Map_get targetUserId (peerConnections st) = None →
    let first := startCall h targetUserId st in
    let second := startCall h' targetUserId first in
    constructed second = constructed first ∧
    peerConnections second = peerConnections first ∧
    dataChannels second = dataChannels first ∧
    offers_sent second = offers_sent first ∧
    started_calls second = started_calls first ++ [targetUserId].
Proof.
  intros h h' targetUserId st stream Hstream Hnd Hne Hfresh first second.
  destruct (startCall_new_peer h targetUserId st stream Hstream Hnd Hfresh)
    as (Hp & Hc & _ & _).
  fold first in Hp, Hc. cbv zeta in Hc.
  assert (Hls : localStream first = Some stream).
  { destruct (startCall_mesh h targetUserId st) as (_&_&_&_&_&_&_&_&Hl&_).
    fold first in Hl. by rewrite Hl. }
  assert (Hreg : Map_get targetUserId (peerConnections first)
                 = Some (length (constructed st))).
  { rewrite Hp. by apply Map_get_snoc_fresh. }
  destruct stream as [|t rest]; [done|].
  assert (Hsecond :
    second = emit (console_log (log_adding_track (kind t)))
               (emit (console_log (log_reusing targetUserId))
                  (emit (console_log (log_starting_call targetUserId)) first))).
  { subst second. unfold startCall at 1. rewrite Hls.
    unfold createPeerConnection. simpl. rewrite Hreg. simpl.
    rewrite Hc, lookup_snoc_last. simpl. unfold addTrack. simpl.
    rewrite decide_True by (by left). done. }
  rewrite Hsecond. repeat split; try done.
  - unfold offers_sent. simpl. rewrite !omap_app. simpl. by rewrite !app_nil_r.
  - rewrite !started_calls_emit. simpl. by rewrite !app_nil_r.
Qed.

Lemma X21_witness :
  let sharing :=
    startScreenShare None (acquired [{| track_id := 0; kind := "video" |}])
      initialState in
  let first := startCall None "P1" sharing in
  let second := startCall None "P1" first in
  offers_sent second = [Some "P1"] ∧ started_calls second = ["P1"; "P1"] ∧
  dataChannels second = dataChannels first.
Proof.
  intros sharing first second.
  assert (Hnd : NoDup [{| track_id := 0; kind := "video" |}])
    by apply NoDup_singleton.
  assert (Hne : [{| track_id := 0; kind := "video" |}] ≠ []) by done.
  destruct (X21_second_call_to_a_peer_stops_at_addTrack None None "P1" sharing
              _ eq_refl Hnd Hne eq_refl) as (_ & _ & H3 & H4 & H5).
  fold first second in H3, H4, H5. rewrite H4, H5. by repeat split.
Defined.
